(** * jor1k worker: the ring buffer and the UART built on it

    A shallow embedding of [src/js/worker/ringbuffer.js].  The file holds
    two versions of [RingBuffer] around the UART; the one modelled here is
    the later one, with [min_capacity], [empty_value] and the quartering
    shrink check, which amortises reallocation of an [Int32Array] store.
    [UARTDev] is the 8250-style register file whose receive FIFO it backs.

    JavaScript objects become records and each method becomes a function
    from the state of [this] to its next state (and the returned value).
    Numbers are integers of [Z]; the 32-bit operators ([<<], [>>], [|],
    [&], [~]) and the stores into an [Int32Array] wrap as ECMAScript
    prescribes.  The sum [get] forms with the index it is given is a sum
    of doubles and is rounded as such; the other sums are of positions in
    a store and of counters that one operation moves by one, which are
    exact below [2 ^ 53].  The calls a [UARTDev] makes on its
    collaborators ([intdev], [odev], [DebugMessage]) are logged in call
    order. *)

From Stdlib Require Import ZArith Lia List String Bool DecimalString.
From stdpp Require Import base list.

Local Open Scope Z_scope.

(** ** The fragment of JavaScript the source relies on *)

Module JS.

(** The values the modelled methods return: a number or [undefined]. *)
Inductive value : Set :=
| Undefined
| Num (z : Z).

(** ECMAScript [ToInt32] on an integer: reduction modulo [2^32] into the
    signed range. *)
Definition to_int32 (z : Z) : Z := (z + 2 ^ 31) mod 2 ^ 32 - 2 ^ 31.

Definition is_int32 (z : Z) : Prop := - 2 ^ 31 <= z < 2 ^ 31.

(** [ToInt32] of a value: [undefined] is converted to [NaN], then to [0]. *)
Definition ToInt32 (v : value) : Z :=
  match v with
  | Undefined => 0
  | Num z => to_int32 z
  end.

(** [a << n], [a >> n]: 32-bit operands, shift count taken modulo 32. *)
Definition shl (a n : Z) : Z := to_int32 (Z.shiftl (to_int32 a) (n mod 32)).
Definition sar (a n : Z) : Z := Z.shiftr (to_int32 a) (n mod 32).

(** [a | b], [a & b], [~ a] on the 32-bit two's complement patterns; on
    signed representatives these are the operations of [Z]. *)
Definition bit_or (a b : Z) : Z := Z.lor (to_int32 a) (to_int32 b).
Definition bit_and (a b : Z) : Z := Z.land (to_int32 a) (to_int32 b).
Definition bit_not (a : Z) : Z := Z.lnot (to_int32 a).

(** *** Numbers

    A number is a double.  An integer of at most 53 significant bits is
    held exactly; a longer one is held as the nearest multiple of the
    spacing of the doubles around it, and from [2 ^ 1024 - 2 ^ 970] on as
    an infinity. *)

(** The spacing of the doubles around [z]. *)
Definition ulp (z : Z) : Z := 2 ^ Z.max 0 (Z.log2 (Z.abs z) - 52).

(** The multiple of [ulp z] nearest to [z]; of two equally near, the even
    one. *)
Definition nearest (z : Z) : Z :=
  let u := ulp z in
  let q := z / u in
  let r := z mod u in
  if 2 * r <? u then q * u
  else if u <? 2 * r then (q + 1) * u
  else if Z.even q then q * u else (q + 1) * u.

(** An integer-valued number, or one that is not finite (an infinity or
    [NaN]). *)
Inductive number : Set :=
| Finite (z : Z)
| NotFinite.

(** The number an integer is held as. *)
Definition to_number (z : Z) : number :=
  let r := nearest z in
  if Z.abs r <? 2 ^ 1024 then Finite r else NotFinite.

(** [a + b]: the exact sum, rounded. *)
Definition add (a b : number) : number :=
  match a, b with
  | Finite x, Finite y => to_number (x + y)
  | _, _ => NotFinite
  end.

(** [a % b] on integers with [b] non-zero: the sign follows the dividend.
    (The divisor is always the length of a store, which is never [0].) *)
Definition rem (a b : Z) : Z := Z.rem a b.

(** Truthiness of a number in a condition. *)
Definition truthy (z : Z) : bool := negb (z =? 0).

(** *** [Int32Array] *)

(** [new Int32Array(size)]: [size] slots holding [0]. *)
Definition Int32Array (size : Z) : list Z := replicate (Z.to_nat size) 0.

(** The slot of index [i], if the store has one. *)
Definition slot (a : list Z) (i : Z) : option Z :=
  if i <? 0 then None else a !! Z.to_nat i.

(** [a[i]]: [undefined] outside the store. *)
Definition aget (a : list Z) (i : Z) : value :=
  match slot a i with
  | Some z => Num z
  | None => Undefined
  end.

(** [a[i] = v]: the value is converted with [ToInt32]; a write outside
    the store is ignored. *)
Definition aset (a : list Z) (i : Z) (v : value) : list Z :=
  if i <? 0 then a else <[Z.to_nat i := ToInt32 v]> a.

End JS.

(** ** RingBuffer *)

Module RingBuffer.

Record t : Type := mk {
  begin : Z;             (* first valid entry *)
  end_ : Z;              (* next free position at the end *)
  length : Z;
  _shrink_count : Z;
  min_capacity : Z;
  array : list Z;        (* the Int32Array *)
  empty_value : JS.value
}.

(** [this.array.length] *)
Definition capacity (this : t) : Z := Z.of_nat (List.length (array this)).

Definition _new_array (size : Z) : list Z := JS.Int32Array size.

(** [reset] assigns every field, so its result does not depend on the
    object it is called on; [new RingBuffer()] is [reset]. *)
Definition reset : t :=
  let a := _new_array 0x10 in
  {| begin := 0x0; end_ := 0x0; length := 0x0;
     _shrink_count := 0x0; min_capacity := 128;
     array := a; empty_value := JS.aget a 0 |}.

(** [while (i < bound) arr[i++] = old[j++];] on the loop state
    [(arr, i, j)].  Each iteration increases [i] by one, so
    [Z.to_nat (bound - i)] iterations are exactly what the loop runs. *)
Fixpoint copy_while (fuel : nat) (bound : Z) (old : list Z)
    (st : list Z * Z * Z) : list Z * Z * Z :=
  match fuel with
  | O => st
  | S fuel' =>
      let '(arr, i, j) := st in
      if i <? bound
      then copy_while fuel' bound old (JS.aset arr i (JS.aget old j), i + 1, j + 1)
      else st
  end.

Definition copy_loop (bound : Z) (old : list Z) (st : list Z * Z * Z) :=
  copy_while (Z.to_nat (bound - snd (fst st))) bound old st.

Definition _realloc (size : Z) (this : t) : t :=
  let len := length this in
  if len >? size then this (* sanity check *)
  else
    let old := array this in
    let arr0 := _new_array size in
    let wrap := Z.min len (Z.of_nat (List.length old) - begin this) in
    (* copy values up to the end of the old array *)
    let '(arr1, i1, _) := copy_loop wrap old (arr0, 0x0, begin this) in
    (* copy values that wrapped around *)
    let '(arr2, _, _) := copy_loop len old (arr1, i1, 0) in
    {| begin := 0x0; end_ := len; length := length this;
       _shrink_count := _shrink_count this;
       min_capacity := min_capacity this;
       array := arr2; empty_value := empty_value this |}.

Definition _check_grow (this : t) : t :=
  if length this =? capacity this
  then _realloc (JS.shl (length this) 1) this
  else this.

Definition shrink_candidate (this : t) : Z := JS.sar (capacity this) 2.

(** The guard of [_check_shrink]. *)
Definition shrinks (this : t) : bool :=
  (length this <=? JS.sar (shrink_candidate this) 1)
  && (shrink_candidate this >=? min_capacity this).

Definition _check_shrink (this : t) : t :=
  let candidate_size := shrink_candidate this in
  if shrinks this
  then _realloc candidate_size
         {| begin := begin this; end_ := end_ this; length := length this;
            _shrink_count := _shrink_count this + 1;
            min_capacity := min_capacity this;
            array := array this; empty_value := empty_value this |}
  else this.

(** Public methods; each returns the next state and the returned value. *)

(** [get] takes the index as the number it is held as.  The sum
    [this.begin + index] is a sum of doubles: it is exact up to [2 ^ 53]
    and rounded beyond.  Of a sum that is not finite the remainder is
    [NaN], and [this.array[NaN]] is [undefined]. *)
Definition get (index : Z) (this : t) : JS.value :=
  match JS.add (JS.to_number (begin this)) (JS.to_number index) with
  | JS.Finite i => JS.aget (array this) (JS.rem i (capacity this))
  | JS.NotFinite => JS.Undefined
  end.

Definition push (value : Z) (this : t) : t * JS.value :=
  let this := _check_grow this in
  let a := JS.aset (array this) (end_ this) (JS.Num value) in
  let e := JS.rem (end_ this + 1) (Z.of_nat (List.length a)) in
  let n := length this + 1 in
  ({| begin := begin this; end_ := e; length := n;
      _shrink_count := _shrink_count this;
      min_capacity := min_capacity this;
      array := a; empty_value := empty_value this |},
   JS.Num n).

Definition unshift (value : Z) (this : t) : t * JS.value :=
  let this := _check_grow this in
  let b := JS.rem (begin this + capacity this - 1) (capacity this) in
  let a := JS.aset (array this) b (JS.Num value) in
  let n := length this + 1 in
  ({| begin := b; end_ := end_ this; length := n;
      _shrink_count := _shrink_count this;
      min_capacity := min_capacity this;
      array := a; empty_value := empty_value this |},
   JS.Num n).

Definition pop (this : t) : t * JS.value :=
  if length this =? 0 then (this, JS.Undefined)
  else
    let this := _check_shrink this in
    let n := length this - 1 in
    let e := JS.rem (end_ this + capacity this - 1) (capacity this) in
    let result := JS.aget (array this) e in
    let a := JS.aset (array this) e (empty_value this) in
    ({| begin := begin this; end_ := e; length := n;
        _shrink_count := _shrink_count this;
        min_capacity := min_capacity this;
        array := a; empty_value := empty_value this |},
     result).

Definition shift (this : t) : t * JS.value :=
  if length this =? 0 then (this, JS.Undefined)
  else
    let this := _check_shrink this in
    let n := length this - 1 in
    let result := JS.aget (array this) (begin this) in
    let a := JS.aset (array this) (begin this) (empty_value this) in
    let b := JS.rem (begin this + 1) (Z.of_nat (List.length a)) in
    ({| begin := b; end_ := end_ this; length := n;
        _shrink_count := _shrink_count this;
        min_capacity := min_capacity this;
        array := a; empty_value := empty_value this |},
     result).

End RingBuffer.

(** ** UARTDev *)

Module UARTDev.

Definition UART_LSR_DATA_READY := 0x1.
Definition UART_LSR_FIFO_EMPTY := 0x20.
Definition UART_LSR_TRANSMITTER_EMPTY := 0x40.

Definition UART_IER_THRI := 0x02. (* Enable Transmitter holding register int. *)
Definition UART_IER_RDI := 0x01.  (* Enable receiver data interrupt *)

Definition UART_IIR_MSI := 0x00.  (* Modem status interrupt (Low priority) *)
Definition UART_IIR_NO_INT := 0x01.
Definition UART_IIR_THRI := 0x02. (* Transmitter holding register empty *)
Definition UART_IIR_RDI := 0x04.  (* Receiver data interrupt *)
Definition UART_IIR_RLSI := 0x06. (* Receiver line status interrupt (High p.) *)
Definition UART_IIR_CTI := 0x0c.  (* Character timeout *)

Definition UART_LCR_DLAB := 0x80. (* Divisor latch access bit *)

Definition UART_DLL := 0.
Definition UART_DLH := 1.
Definition UART_IER := 1.
Definition UART_IIR := 2.
Definition UART_FCR := 2.
Definition UART_LCR := 3.
Definition UART_MCR := 4.
Definition UART_LSR := 5.
Definition UART_MSR := 6.

(** The calls a [UARTDev] makes on what it does not own: the interrupt
    device, the output device and the debug log.
    [DebugMessage_hex8 msg x] stands for [DebugMessage(msg + hex8(x))]. *)
Inductive call : Set :=
| DebugMessage (msg : string)
| DebugMessage_hex8 (msg : string) (x : Z)
| intdev_RaiseInterrupt (line : Z)
| intdev_ClearInterrupt (line : Z)
| odev_PutChar (x : Z).

Record t : Type := mk {
  LCR : Z; LSR : Z; MSR : Z; IIR : Z; ints : Z; IER : Z;
  DLL : Z; DLH : Z; FCR : Z; MCR : Z; input : Z;
  fifo : RingBuffer.t;
  calls : list call        (* the calls made so far, oldest first *)
}.

(** Field assignments. *)
Definition set_LCR (v : Z) (s : t) : t :=
  mk v (LSR s) (MSR s) (IIR s) (ints s) (IER s) (DLL s) (DLH s) (FCR s) (MCR s) (input s) (fifo s) (calls s).
Definition set_LSR (v : Z) (s : t) : t :=
  mk (LCR s) v (MSR s) (IIR s) (ints s) (IER s) (DLL s) (DLH s) (FCR s) (MCR s) (input s) (fifo s) (calls s).
Definition set_IIR (v : Z) (s : t) : t :=
  mk (LCR s) (LSR s) (MSR s) v (ints s) (IER s) (DLL s) (DLH s) (FCR s) (MCR s) (input s) (fifo s) (calls s).
Definition set_ints (v : Z) (s : t) : t :=
  mk (LCR s) (LSR s) (MSR s) (IIR s) v (IER s) (DLL s) (DLH s) (FCR s) (MCR s) (input s) (fifo s) (calls s).
Definition set_IER (v : Z) (s : t) : t :=
  mk (LCR s) (LSR s) (MSR s) (IIR s) (ints s) v (DLL s) (DLH s) (FCR s) (MCR s) (input s) (fifo s) (calls s).
Definition set_DLL (v : Z) (s : t) : t :=
  mk (LCR s) (LSR s) (MSR s) (IIR s) (ints s) (IER s) v (DLH s) (FCR s) (MCR s) (input s) (fifo s) (calls s).
Definition set_DLH (v : Z) (s : t) : t :=
  mk (LCR s) (LSR s) (MSR s) (IIR s) (ints s) (IER s) (DLL s) v (FCR s) (MCR s) (input s) (fifo s) (calls s).
Definition set_FCR (v : Z) (s : t) : t :=
  mk (LCR s) (LSR s) (MSR s) (IIR s) (ints s) (IER s) (DLL s) (DLH s) v (MCR s) (input s) (fifo s) (calls s).
Definition set_MCR (v : Z) (s : t) : t :=
  mk (LCR s) (LSR s) (MSR s) (IIR s) (ints s) (IER s) (DLL s) (DLH s) (FCR s) v (input s) (fifo s) (calls s).
Definition set_input (v : Z) (s : t) : t :=
  mk (LCR s) (LSR s) (MSR s) (IIR s) (ints s) (IER s) (DLL s) (DLH s) (FCR s) (MCR s) v (fifo s) (calls s).
Definition set_fifo (v : RingBuffer.t) (s : t) : t :=
  mk (LCR s) (LSR s) (MSR s) (IIR s) (ints s) (IER s) (DLL s) (DLH s) (FCR s) (MCR s) (input s) v (calls s).

(** A call on a collaborator is appended to the log. *)
Definition do_call (c : call) (s : t) : t :=
  mk (LCR s) (LSR s) (MSR s) (IIR s) (ints s) (IER s) (DLL s) (DLH s) (FCR s) (MCR s) (input s) (fifo s) (calls s ++ [c]).

Definition Reset (this : t) : t :=
  {| LCR := 0x3;
     LSR := JS.bit_or UART_LSR_TRANSMITTER_EMPTY UART_LSR_FIFO_EMPTY;
     MSR := 0;
     IIR := UART_IIR_NO_INT;
     ints := 0x0;
     IER := 0x0;
     DLL := 0; DLH := 0;
     FCR := 0x0; MCR := 0x0;
     input := 0;
     fifo := fifo this;
     calls := calls this |}.

(** [new UARTDev(outputdev, intdev)]: [Reset] assigns every register, then
    the receive FIFO is created. *)
Definition new : t :=
  set_fifo RingBuffer.reset
    (Reset {| LCR := 0; LSR := 0; MSR := 0; IIR := 0; ints := 0; IER := 0;
              DLL := 0; DLH := 0; FCR := 0; MCR := 0; input := 0;
              fifo := RingBuffer.reset;
              calls := [DebugMessage "UART up"] |}).

Definition ThrowCTI (this : t) : t :=
  let this := set_ints (JS.bit_or (ints this) (JS.shl 1 UART_IIR_CTI)) this in
  if negb (JS.truthy (JS.bit_and (IER this) UART_IER_RDI)) then this
  else if negb (IIR this =? UART_IIR_RLSI) && negb (IIR this =? UART_IIR_RDI)
  then do_call (intdev_RaiseInterrupt 0x2) (set_IIR UART_IIR_CTI this)
  else this.

Definition ThrowTHRI (this : t) : t :=
  let this := set_ints (JS.bit_or (ints this) (JS.shl 1 UART_IIR_THRI)) this in
  if negb (JS.truthy (JS.bit_and (IER this) UART_IER_THRI)) then this
  else if JS.truthy (JS.bit_and (IIR this) UART_IIR_NO_INT)
          || (IIR this =? UART_IIR_MSI) || (IIR this =? UART_IIR_THRI)
  then do_call (intdev_RaiseInterrupt 0x2) (set_IIR UART_IIR_THRI this)
  else this.

Definition NextInterrupt (this : t) : t :=
  if JS.truthy (JS.bit_and (ints this) (JS.shl 1 UART_IIR_CTI))
     && JS.truthy (JS.bit_and (IER this) UART_IER_RDI)
  then ThrowCTI this
  else if JS.truthy (JS.bit_and (ints this) (JS.shl 1 UART_IIR_THRI))
          && JS.truthy (JS.bit_and (IER this) UART_IER_THRI)
  then ThrowTHRI this
  else do_call (intdev_ClearInterrupt 0x2) (set_IIR UART_IIR_NO_INT this).

Definition ClearInterrupt (line : Z) (this : t) : t :=
  let this := set_ints (JS.bit_and (ints this) (JS.bit_not (JS.shl 1 line))) this in
  let this := set_IIR UART_IIR_NO_INT this in
  if negb (line =? IIR this) then this
  else NextInterrupt this.

Definition ReceiveChar (x : Z) (this : t) : t :=
  let this := set_fifo (fst (RingBuffer.push x (fifo this))) this in
  let this := set_LSR (JS.bit_or (LSR this) UART_LSR_DATA_READY) this in
  ThrowCTI this.

(** How a register access ends: with a returned value, or in [abort()]. *)
Inductive outcome : Set :=
| Return (v : JS.value)
| Abort.

Definition ReadReg8_rbr (this : t) : t * outcome :=
  let ret := JS.Num 0x21 in
  let this := set_input 0 this in
  let this := ClearInterrupt UART_IIR_RDI this in
  let this := ClearInterrupt UART_IIR_CTI this in
  let fifo_len := RingBuffer.length (fifo this) in
  let '(this, ret) :=
    if fifo_len >=? 1
    then let '(q, r) := RingBuffer.shift (fifo this) in (set_fifo q this, r)
    else (this, ret) in
  if fifo_len >? 1
  then (* still more bytes to read - immediately timeout *)
    let this := set_LSR (JS.bit_or (LSR this) UART_LSR_DATA_READY) this in
    (ThrowCTI this, Return ret)
  else (* no more bytes after this one *)
    (set_LSR (JS.bit_and (LSR this) (JS.bit_not UART_LSR_DATA_READY)) this, Return ret).

Definition ReadReg8_iir (this : t) : t * outcome :=
  let ret := JS.bit_or (JS.bit_and (IIR this) 0x0f) 0xC0 in
  let this := if IIR this =? UART_IIR_THRI
              then ClearInterrupt UART_IIR_THRI this else this in
  (this, Return (JS.Num ret)).

(** The second [switch] of [ReadReg8]. *)
Definition ReadReg8_switch (addr : Z) (this : t) : t * outcome :=
  match addr with
  | 0 => ReadReg8_rbr this
  | 1 (* UART_IER *) => (this, Return (JS.Num (JS.bit_and (IER this) 0x0F)))
  | 6 (* UART_MSR *) => (this, Return (JS.Num (MSR this)))
  | 2 (* UART_IIR *) => ReadReg8_iir this
  | 3 (* UART_LCR *) => (this, Return (JS.Num (LCR this)))
  | 5 (* UART_LSR *) => (this, Return (JS.Num (LSR this)))
  | _ => (do_call (DebugMessage "Error in ReadRegister: not supported") this, Abort)
  end.

Definition ReadReg8 (addr : Z) (this : t) : t * outcome :=
  if JS.truthy (JS.bit_and (LCR this) UART_LCR_DLAB)
  then match addr with
       | 0 (* UART_DLL *) => (this, Return (JS.Num (DLL this)))
       | 1 (* UART_DLH *) => (this, Return (JS.Num (DLH this)))
       | _ => ReadReg8_switch addr this
       end
  else ReadReg8_switch addr this.

(** The second [switch] of [WriteReg8]; [x] is already masked. *)
Definition WriteReg8_switch (addr x : Z) (this : t) : t * outcome :=
  match addr with
  | 0 =>
      let this := set_LSR (JS.bit_and (LSR this) (JS.bit_not UART_LSR_FIFO_EMPTY)) this in
      let this := do_call (odev_PutChar x) this in
      (* Data is sent with a latency of zero! *)
      let this := set_LSR (JS.bit_or (LSR this) UART_LSR_FIFO_EMPTY) this in
      (ThrowTHRI this, Return JS.Undefined)
  | 1 (* UART_IER *) =>
      let this := set_IER (JS.bit_and x 0x0F) this in
      (NextInterrupt this, Return JS.Undefined)
  | 2 (* UART_FCR *) =>
      let this := set_FCR x this in
      let this := do_call (DebugMessage_hex8 "UART_FCR:" x) this in
      let this := if JS.truthy (JS.bit_and (FCR this) 2)
                  then do_call (DebugMessage "uart fifo reset") this
                  else this in
      (this, Return JS.Undefined)
  | 3 (* UART_LCR *) =>
      let this := do_call (DebugMessage_hex8 "UART_LCR:" x) this in
      (set_LCR x this, Return JS.Undefined)
  | 4 (* UART_MCR *) =>
      let this := do_call (DebugMessage_hex8 "UART_MCR:" x) this in
      (set_MCR x this, Return JS.Undefined)
  | _ => (do_call (DebugMessage "Error in WriteRegister: not supported") this, Abort)
  end.

Definition WriteReg8 (addr x : Z) (this : t) : t * outcome :=
  let x := JS.bit_and x 0xFF in
  if JS.truthy (JS.bit_and (LCR this) UART_LCR_DLAB)
  then match addr with
       | 0 (* UART_DLL *) => (set_DLL x this, Return JS.Undefined)
       | 1 (* UART_DLH *) => (set_DLH x this, Return JS.Undefined)
       | _ => WriteReg8_switch addr x this
       end
  else WriteReg8_switch addr x this.

End UARTDev.

(** ** The reference double-ended queue

    The deque the ring buffer is compared with, as in the randomised
    cross-check of the specification: a plain sequence of values with
    the four end operations and indexing of a JavaScript [Array]. *)

Module Deque.

Definition t : Type := list Z.

Definition empty : t := [].

Definition get (index : Z) (d : t) : JS.value := JS.aget d index.

Definition push_back (value : Z) (d : t) : t * JS.value :=
  (d ++ [value], JS.Num (Z.of_nat (List.length d) + 1)).

Definition push_front (value : Z) (d : t) : t * JS.value :=
  (value :: d, JS.Num (Z.of_nat (List.length d) + 1)).

Definition pop_back (d : t) : t * JS.value :=
  match last d with
  | None => (d, JS.Undefined)
  | Some x => (take (List.length d - 1)%nat d, JS.Num x)
  end.

Definition pop_front (d : t) : t * JS.value :=
  match d with
  | [] => (d, JS.Undefined)
  | x :: d' => (d', JS.Num x)
  end.

End Deque.

(** ** Sequences of queue operations *)

Inductive op : Set :=
| Push (value : Z)
| Unshift (value : Z)
| Pop
| Shift
| Get (index : Z).

Module Run.

(** One operation on the ring buffer. *)
Definition step (o : op) (rb : RingBuffer.t) : RingBuffer.t * JS.value :=
  match o with
  | Push v => RingBuffer.push v rb
  | Unshift v => RingBuffer.unshift v rb
  | Pop => RingBuffer.pop rb
  | Shift => RingBuffer.shift rb
  | Get i => (rb, RingBuffer.get i rb)
  end.

(** The same operation on the reference deque. *)
Definition ref_step (o : op) (d : Deque.t) : Deque.t * JS.value :=
  match o with
  | Push v => Deque.push_back v d
  | Unshift v => Deque.push_front v d
  | Pop => Deque.pop_back d
  | Shift => Deque.pop_front d
  | Get i => (d, Deque.get i d)
  end.

(** Running a sequence: the final state and the results in order. *)
Fixpoint run {State : Type} (f : op -> State -> State * JS.value)
    (ops : list op) (s : State) : State * list JS.value :=
  match ops with
  | [] => (s, [])
  | o :: ops' =>
      let '(s1, r) := f o s in
      let '(s2, rs) := run f ops' s1 in
      (s2, r :: rs)
  end.

(** The largest number of elements a store can be grown to hold:
    [length << 1] is a 32-bit shift. *)
Definition max_length : Z := 2 ^ 30.

Definition adds (o : op) : bool :=
  match o with
  | Push _ | Unshift _ => true
  | _ => false
  end.

(** An operation is well typed on a deque [d] when an added value is a
    32-bit integer (what an [Int32Array] slot holds) and a read index is
    a valid position. *)
Definition typed (o : op) (d : Deque.t) : bool :=
  match o with
  | Push v | Unshift v => (- 2 ^ 31 <=? v) && (v <? 2 ^ 31)
  | Pop | Shift => true
  | Get i => (0 <=? i) && (i <? Z.of_nat (List.length d))
  end.

(** No element is added to a queue that already holds [max_length]. *)
Definition within_limit (o : op) (n : Z) : bool :=
  negb (adds o) || (n <? max_length).

Definition admissible (o : op) (d : Deque.t) : bool :=
  typed o d && within_limit o (Z.of_nat (List.length d)).

Fixpoint all_typed (ops : list op) (d : Deque.t) : bool :=
  match ops with
  | [] => true
  | o :: ops' => typed o d && all_typed ops' (fst (ref_step o d))
  end.

Fixpoint all_admissible (ops : list op) (d : Deque.t) : bool :=
  match ops with
  | [] => true
  | o :: ops' => admissible o d && all_admissible ops' (fst (ref_step o d))
  end.

(** The same limit, read on the ring buffer itself. *)
Fixpoint fits (ops : list op) (rb : RingBuffer.t) : bool :=
  match ops with
  | [] => true
  | o :: ops' =>
      within_limit o (RingBuffer.length rb) && fits ops' (fst (step o rb))
  end.

(** What an operation that returned [r] contributes to the number of
    stored elements. *)
Definition delta (o : op) (r : JS.value) : Z :=
  match o, r with
  | (Push _ | Unshift _), _ => 1
  | (Pop | Shift), JS.Num _ => -1
  | _, _ => 0
  end.

Fixpoint net (ops : list op) (rs : list JS.value) : Z :=
  match ops, rs with
  | o :: ops', r :: rs' => delta o r + net ops' rs'
  | _, _ => 0
  end.

End Run.

(** ** Well-formed ring buffers *)

Module RB := RingBuffer.

(** The capacities a store takes: [16] doubled, up to the 32-bit limit. *)
Definition valid_capacity (c : Z) : Prop := exists k, 4 <= k <= 30 /\ c = 2 ^ k.

(** What every operation keeps true of a ring buffer.  It does not bound
    [length] by the capacity. *)
Record wf (rb : RB.t) : Prop := {
  wf_capacity : valid_capacity (RB.capacity rb);
  wf_begin : 0 <= RB.begin rb < RB.capacity rb;
  wf_end : RB.end_ rb = (RB.begin rb + RB.length rb) mod RB.capacity rb;
  wf_length : 0 <= RB.length rb;
  wf_min_capacity : RB.min_capacity rb = 128;
  wf_empty_value : RB.empty_value rb = JS.Num 0;
  wf_int32 : Forall JS.is_int32 (RB.array rb);
  wf_vacated : forall i, 0 <= i < RB.capacity rb ->
      RB.length rb <= (i - RB.begin rb) mod RB.capacity rb ->
      JS.slot (RB.array rb) i = Some 0
}.

(** The slot of the logical element [k]. *)
Definition element (rb : RB.t) (k : Z) : option Z :=
  JS.slot (RB.array rb) ((RB.begin rb + k) mod RB.capacity rb).

(** [rb] holds exactly the elements of the deque [d], in order. *)
Definition represents (rb : RB.t) (d : Deque.t) : Prop :=
  wf rb /\
  RB.length rb = Z.of_nat (List.length d) /\
  RB.length rb <= RB.capacity rb /\
  forall k, 0 <= k < RB.length rb -> element rb k = JS.slot d k.

(** The slots of the first and of the last element of a non-empty queue. *)
Definition first_slot (rb : RB.t) : Z := RB.begin rb.
Definition last_slot (rb : RB.t) : Z :=
  (RB.begin rb + (RB.length rb - 1)) mod RB.capacity rb.

(** A slot outside the window of stored elements. *)
Definition vacant (rb : RB.t) (i : Z) : Prop :=
  0 <= i < RB.capacity rb /\ RB.length rb <= (i - RB.begin rb) mod RB.capacity rb.

(** ** Observations on a UART *)

Module U := UARTDev.

(** A register tested against a mask, as the conditions of the source do. *)
Definition flag (reg mask : Z) : bool := JS.truthy (JS.bit_and reg mask).

(** The divisor latch access bit of [LCR]. *)
Definition dlab (s : U.t) : bool := flag (U.LCR s) U.UART_LCR_DLAB.

(** The cause [cause] is recorded in [ints]. *)
Definition pending (cause : Z) (s : U.t) : bool :=
  flag (U.ints s) (JS.shl 1 cause).

(** The bytes handed to [odev.PutChar], in call order. *)
Fixpoint put_chars (l : list U.call) : list Z :=
  match l with
  | [] => []
  | U.odev_PutChar x :: l' => x :: put_chars l'
  | _ :: l' => put_chars l'
  end.

(** The number of calls of [intdev.RaiseInterrupt]. *)
Fixpoint raises (l : list U.call) : nat :=
  match l with
  | [] => O
  | U.intdev_RaiseInterrupt _ :: l' => S (raises l')
  | _ :: l' => raises l'
  end.

(** The operations on a UART. *)
Inductive uart_op : Set :=
| OpReceiveChar (x : Z)
| OpReadReg8 (addr : Z)
| OpWriteReg8 (addr x : Z)
| OpReset
| OpThrowCTI
| OpThrowTHRI
| OpNextInterrupt
| OpClearInterrupt (line : Z).

Definition uart_step (o : uart_op) (s : U.t) : U.t :=
  match o with
  | OpReceiveChar x => U.ReceiveChar x s
  | OpReadReg8 addr => fst (U.ReadReg8 addr s)
  | OpWriteReg8 addr x => fst (U.WriteReg8 addr x s)
  | OpReset => U.Reset s
  | OpThrowCTI => U.ThrowCTI s
  | OpThrowTHRI => U.ThrowTHRI s
  | OpNextInterrupt => U.NextInterrupt s
  | OpClearInterrupt line => U.ClearInterrupt line s
  end.

Definition uart_run (ops : list uart_op) (s : U.t) : U.t :=
  fold_left (fun s o => uart_step o s) ops s.

(** The values [IIR] takes. *)
Definition reported (v : Z) : Prop :=
  v = U.UART_IIR_NO_INT \/ v = U.UART_IIR_THRI \/ v = U.UART_IIR_CTI.

(** The state in which [IIR] reports a transmit interrupt: a new UART,
    the transmit interrupt enabled, one byte written. *)
Definition thri_reported : U.t :=
  uart_run [OpWriteReg8 U.UART_IER U.UART_IER_THRI; OpWriteReg8 0 0x41] U.new.

(** ** Concrete runs *)

(** A short run over both ends of the queue. *)
Definition short_run : list op :=
  [Push 1; Unshift 2; Get 1; Pop; Shift; Shift; Push (-3); Get 0].

(** Filling a store beyond 256 elements and draining it to an eighth of
    its capacity, where the shrink check fires. *)
Definition fill_and_drain : list op :=
  replicate 257 (Push 7) ++ replicate 193 Pop.

(** [2 ^ 30] pushes of [0], then one push of [v]. *)
Definition past_limit (v : Z) : list op :=
  replicate (Z.to_nat (2 ^ 30)) (Push 0) ++ [Push v].

(** A UART with both interrupts enabled and two bytes received. *)
Definition two_bytes_received : U.t :=
  uart_run [OpWriteReg8 U.UART_IER 3; OpReceiveChar 0x41; OpReceiveChar 0x42] U.new.

(** ** Rendering a ring buffer *)

Module RingBufferJoin.

(** The values of the string-building code: those of a slot, or a string. *)
Inductive value : Set :=
| Undefined
| Num (z : Z)
| Str (s : string).

Definition of_slot (v : JS.value) : value :=
  match v with
  | JS.Undefined => Undefined
  | JS.Num z => Num z
  end.

(** [ToString] of an integer: its decimal digits, with a sign when
    negative. *)
Definition NumberToString (z : Z) : string := NilZero.string_of_int (Z.to_int z).

Definition ToString (v : value) : string :=
  match v with
  | Undefined => "undefined"
  | Num z => NumberToString z
  | Str s => s
  end.

(** [a + s] with [s] a string: both sides are converted and concatenated. *)
Definition plus_string (a : value) (s : string) : value :=
  Str (String.append (ToString a) s).

(** [for (var i = 1; i < len; i++) result += sep + this.get(i);] on the
    loop state [(i, result)]. *)
Fixpoint join_for (fuel : nat) (len : Z) (sep : string) (this : RingBuffer.t)
    (st : Z * value) : value :=
  match fuel with
  | O => snd st
  | S fuel' =>
      let '(i, result) := st in
      if i <? len
      then join_for fuel' len sep this
             (i + 1,
              plus_string result
                (String.append sep (ToString (of_slot (RingBuffer.get i this)))))
      else result
  end.

(** [join(sep)]; [None] is the call without argument. *)
Definition join (sep : option string) (this : RingBuffer.t) : value :=
  let sep := match sep with None => ","%string | Some s => s end in
  let len := RingBuffer.length this in
  let result := if len >? 0 then of_slot (RingBuffer.get 0 this) else Str "" in
  join_for (Z.to_nat (len - 1)) len sep this (1, result).

Definition toString (this : RingBuffer.t) : value := join (Some ","%string) this.

End RingBufferJoin.

Module RJ := RingBufferJoin.

(** Three elements, one of them added at the front. *)
Definition front_and_back : list op := [Push 4; Push (-5); Unshift 6].

(** ** Occupancy of the store *)

(** The operations that remove an element. *)
Definition removes (o : op) : bool :=
  match o with
  | Pop | Shift => true
  | _ => false
  end.

(** A store of 512 slots or more is at least one eighth full. *)
Definition dense (rb : RB.t) : Prop :=
  512 <= RB.capacity rb -> RB.capacity rb <= 8 * RB.length rb.

(** ** Observations on sequences of UART operations *)

(** The number of calls of [intdev.ClearInterrupt]. *)
Fixpoint clears (l : list U.call) : nat :=
  match l with
  | [] => O
  | U.intdev_ClearInterrupt _ :: l' => S (clears l')
  | _ :: l' => clears l'
  end.

(** The addresses [ReadReg8] and [WriteReg8] have a case for. *)
Definition readable (addr : Z) : bool := existsb (Z.eqb addr) [0; 1; 2; 3; 5; 6].
Definition writable (addr : Z) : bool := existsb (Z.eqb addr) [0; 1; 2; 3; 4].

(** The operations that reach the receive FIFO. *)
Definition touches_fifo (o : uart_op) (s : U.t) : bool :=
  match o with
  | OpReceiveChar _ => true
  | OpReadReg8 addr => (addr =? 0) && negb (dlab s)
  | _ => false
  end.

(** The bytes an operation hands to [odev.PutChar]. *)
Definition transmits (o : uart_op) (s : U.t) : list Z :=
  match o with
  | OpWriteReg8 addr x => if (addr =? 0) && negb (dlab s) then [x mod 256] else []
  | _ => []
  end.

(** The operations that run the arbitration of [NextInterrupt]. *)
Definition arbitrates (o : uart_op) (s : U.t) : bool :=
  match o with
  | OpWriteReg8 addr _ => (addr =? U.UART_IER) && negb (dlab s)
  | OpNextInterrupt => true
  | OpClearInterrupt line => line =? U.UART_IIR_NO_INT
  | _ => false
  end.

Definition reset_free (ops : list uart_op) : bool :=
  forallb (fun o => match o with OpReset => false | _ => true end) ops.

(** [ReceiveChar] on each byte of a list, first to last. *)
Definition receive_all (l : list Z) (s : U.t) : U.t :=
  fold_left (fun s x => U.ReceiveChar x s) l s.

(** [n] reads of address 0: the final state and what they returned. *)
Fixpoint read_bytes (n : nat) (s : U.t) : U.t * list U.outcome :=
  match n with
  | O => (s, [])
  | S n' =>
      let '(s1, r) := U.ReadReg8 0 s in
      let '(s2, rs) := read_bytes n' s1 in
      (s2, r :: rs)
  end.

(** 32-bit integers, as a test. *)
Definition all_int32 (l : list Z) : bool :=
  forallb (fun x => (- 2 ^ 31 <=? x) && (x <? 2 ^ 31)) l.

(** Everything of a UART but [IIR], [ints] and the call log. *)
Definition same_registers (s s' : U.t) : Prop :=
  U.LCR s' = U.LCR s /\ U.LSR s' = U.LSR s /\ U.MSR s' = U.MSR s /\
  U.IER s' = U.IER s /\ U.DLL s' = U.DLL s /\ U.DLH s' = U.DLH s /\
  U.FCR s' = U.FCR s /\ U.MCR s' = U.MCR s /\ U.input s' = U.input s /\
  U.fifo s' = U.fifo s.

(** What the signal paths may add to the call log. *)
Definition signal_calls (arbitration : bool) (l : list U.call) : Prop :=
  l = [] \/ l = [U.intdev_RaiseInterrupt 2] \/
  (arbitration = true /\ l = [U.intdev_ClearInterrupt 2]).

(** The pending sets and the line status values a UART takes. *)
Definition pending_sets (v : Z) : Prop := v = 0 \/ v = 4 \/ v = 4096 \/ v = 4100.
Definition status_values (v : Z) : Prop := v = 0x60 \/ v = 0x61.

(** A UART that holds the bytes 0x41 and 0x42 and has then been reset. *)
Definition reset_with_bytes : U.t := U.Reset two_bytes_received.

(** Address 0 read until the FIFO of [two_bytes_received] is empty. *)
Definition drained : U.t := fst (read_bytes 2 two_bytes_received).

(** Data-ready tells whether the FIFO holds a byte. *)
Definition ready_matches (s : U.t) : Prop :=
  (U.LSR s = 0x61 /\ 0 < RB.length (U.fifo s)) \/
  (U.LSR s = 0x60 /\ RB.length (U.fifo s) = 0).

(** ** The receive queue of a UART *)

(** What one operation makes of the bytes received and not yet read,
    oldest first. *)
Definition queue_step (o : uart_op) (s : U.t) (d : list Z) : list Z :=
  match o with
  | OpReceiveChar x => d ++ [x]
  | OpReadReg8 addr => if (addr =? 0) && negb (dlab s) then List.tl d else d
  | _ => d
  end.

(** The bytes unread after a sequence of operations that starts in the
    state [s] with the bytes [d] unread. *)
Fixpoint unread (ops : list uart_op) (s : U.t) (d : list Z) : list Z :=
  match ops with
  | [] => d
  | o :: ops' => unread ops' (uart_step o s) (queue_step o s d)
  end.

(** A received value is a 32-bit integer, and none is received while
    [2 ^ 30] bytes are unread. *)
Definition receivable (o : uart_op) (d : list Z) : bool :=
  match o with
  | OpReceiveChar x => Run.admissible (Push x) d
  | _ => true
  end.

Fixpoint receives_fit (ops : list uart_op) (s : U.t) (d : list Z) : bool :=
  match ops with
  | [] => true
  | o :: ops' => receivable o d && receives_fit ops' (uart_step o s) (queue_step o s d)
  end.

(** [2 ^ 30] bytes [0] received by a UART, and then one byte [1] more. *)
Definition receive_to_limit : list uart_op :=
  replicate (Z.to_nat (2 ^ 30)) (OpReceiveChar 0).
Definition receive_past_limit : list uart_op :=
  receive_to_limit ++ [OpReceiveChar 1].

(** ** Facts about the JavaScript fragment *)

Section JSFacts.

Import JS.

Lemma to_int32_id z : is_int32 z -> to_int32 z = z.
Proof.
  unfold is_int32, to_int32. intros H.
  rewrite Z.mod_small by lia. lia.
Qed.

Lemma to_int32_is_int32 z : is_int32 (to_int32 z).
Proof.
  unfold is_int32, to_int32.
  pose proof (Z.mod_pos_bound (z + 2 ^ 31) (2 ^ 32) ltac:(lia)). lia.
Qed.

Lemma testbit_to_int32 z i :
  0 <= i < 32 -> Z.testbit (to_int32 z) i = Z.testbit z i.
Proof.
  intros Hi. unfold to_int32.
  rewrite <- (Z.mod_pow2_bits_low (_ - _) 32 i) by lia.
  rewrite <- (Z.mod_pow2_bits_low z 32 i) by lia.
  f_equal.
  rewrite <- Zminus_mod_idemp_l, Zmod_mod, Zminus_mod_idemp_l.
  f_equal. lia.
Qed.

(** Integers below [2 ^ 53] in magnitude are held exactly, and so are
    their sums. *)
Lemma to_number_exact z : Z.abs z < 2 ^ 53 -> to_number z = Finite z.
Proof.
  intros Hz. unfold to_number, nearest, ulp.
  assert (Hl : Z.log2 (Z.abs z) - 52 <= 0).
  { destruct (Z.eq_dec (Z.abs z) 0) as [->|Hne]; [change (Z.log2 0) with 0; lia|].
    assert (Z.log2 (Z.abs z) < 53) by (apply Z.log2_lt_pow2; lia). lia. }
  rewrite Z.max_l by lia. change (2 ^ 0) with 1.
  rewrite Z.div_1_r, Z.mod_1_r. change (2 * 0 <? 1) with true. cbv iota.
  rewrite Z.mul_1_r.
  destruct (Z.ltb_spec (Z.abs z) (2 ^ 1024)) as [_|Hge]; [reflexivity|].
  assert (2 ^ 53 < 2 ^ 1024) by (apply Z.pow_lt_mono_r; lia). lia.
Qed.

Lemma add_exact a b :
  Z.abs a < 2 ^ 53 -> Z.abs b < 2 ^ 53 -> Z.abs (a + b) < 2 ^ 53 ->
  add (to_number a) (to_number b) = Finite (a + b).
Proof.
  intros Ha Hb Hab. rewrite (to_number_exact a), (to_number_exact b) by done.
  cbn [add]. by apply to_number_exact.
Qed.

Lemma length_Int32Array size :
  Z.of_nat (List.length (Int32Array size)) = Z.max 0 size.
Proof. unfold Int32Array. rewrite length_replicate. lia. Qed.

Lemma slot_Int32Array size i :
  0 <= i < size -> slot (Int32Array size) i = Some 0.
Proof.
  intros Hi. unfold slot, Int32Array.
  destruct (Z.ltb_spec i 0); [lia|].
  apply lookup_replicate_2. lia.
Qed.

Lemma length_aset a i v : List.length (aset a i v) = List.length a.
Proof. unfold aset. destruct (i <? 0); [done|]. apply length_insert. Qed.

Lemma slot_range a i z : slot a i = Some z -> 0 <= i < Z.of_nat (List.length a).
Proof.
  unfold slot. destruct (Z.ltb_spec i 0); [done|].
  intros Hs%lookup_lt_Some. lia.
Qed.

Lemma slot_is_Some a i : 0 <= i < Z.of_nat (List.length a) -> exists z, slot a i = Some z.
Proof.
  intros Hi. unfold slot. destruct (Z.ltb_spec i 0); [lia|].
  destruct (lookup_lt_is_Some_2 a (Z.to_nat i)) as [z Hz]; [lia|]. eauto.
Qed.

Lemma slot_aset_eq a i v :
  0 <= i < Z.of_nat (List.length a) -> slot (aset a i v) i = Some (ToInt32 v).
Proof.
  intros Hi. unfold slot, aset. destruct (Z.ltb_spec i 0); [lia|].
  apply list_lookup_insert_eq. lia.
Qed.

Lemma slot_aset_ne a i k v : k <> i -> slot (aset a i v) k = slot a k.
Proof.
  intros Hne. unfold slot, aset.
  destruct (Z.ltb_spec k 0); [done|].
  destruct (Z.ltb_spec i 0); [done|].
  apply list_lookup_insert_ne. lia.
Qed.

End JSFacts.

(** ** Arithmetic modulo the capacity *)

Section ModFacts.

Lemma mod_cases x c : 0 < c -> - c <= x < 2 * c ->
  x mod c = if x <? 0 then x + c else if x <? c then x else x - c.
Proof.
  intros Hc Hx. destruct (Z.ltb_spec x 0); [|destruct (Z.ltb_spec x c)].
  - symmetry. apply (Z.mod_unique_pos _ _ (-1)); lia.
  - apply Z.mod_small; lia.
  - symmetry. apply (Z.mod_unique_pos _ _ 1); lia.
Qed.

Lemma mod_shift a b c k : a = b + k * c -> a mod c = b mod c.
Proof. intros ->. apply Z_mod_plus_full. Qed.

Lemma rem_mod a b : 0 <= a -> 0 < b -> JS.rem a b = a mod b.
Proof. intros. unfold JS.rem. apply Z.rem_mod_nonneg; lia. Qed.

Lemma valid_capacity_bounds c : valid_capacity c -> 16 <= c <= 2 ^ 30.
Proof.
  intros (k & Hk & ->). split.
  - change 16 with (2 ^ 4). apply Z.pow_le_mono_r; lia.
  - apply Z.pow_le_mono_r; lia.
Qed.

End ModFacts.

Section CopyLoop.
Import JS.

Lemma Forall_slot P (a : list Z) i z : Forall P a -> slot a i = Some z -> P z.
Proof.
  intros HF. unfold slot. destruct (i <? 0); [done|].
  intros Hl. eapply Forall_lookup_1; eauto.
Qed.

Lemma copy_while_spec fuel : forall bound old arr i j,
  0 <= i -> bound - i <= Z.of_nat fuel -> 0 <= j ->
  j + (bound - i) <= Z.of_nat (List.length old) ->
  Forall is_int32 old ->
  exists arr',
    RB.copy_while fuel bound old (arr, i, j) = (arr', Z.max i bound, j + (Z.max i bound - i)) /\
    List.length arr' = List.length arr /\
    forall k, slot arr' k =
      if (i <=? k) && (k <? bound) && (k <? Z.of_nat (List.length arr))
      then slot old (j + (k - i)) else slot arr k.
Proof.
  induction fuel as [|fuel IH]; intros bound old arr i j Hi Hf Hj Hold Hint; simpl.
  - exists arr. replace (Z.max i bound) with i by lia.
    split; [f_equal; lia|]. split; [done|].
    intros k. destruct (Z.leb_spec i k), (Z.ltb_spec k bound); simpl; try done; lia.
  - destruct (Z.ltb_spec i bound) as [Hlt|Hge].
    + destruct (IH bound old (aset arr i (aget old j)) (i + 1) (j + 1))
        as (arr' & Heq & Hlen & Hslot); try lia; [done|].
      exists arr'. rewrite Heq. split; [f_equal; [f_equal|]; lia|].
      rewrite Hlen, length_aset. split; [done|].
      intros k. rewrite Hslot, length_aset.
      destruct (Z.eq_dec k i) as [->|Hne].
      * destruct (Z.leb_spec (i + 1) i); [lia|]. simpl.
        destruct (Z.leb_spec i i); [|lia].
        destruct (Z.ltb_spec i bound); [|lia]. simpl.
        destruct (Z.ltb_spec i (Z.of_nat (List.length arr))) as [Hin|Hout].
        -- rewrite slot_aset_eq by lia.
           destruct (slot_is_Some old j) as [z Hz]; [lia|].
           unfold aget. replace (j + (i - i)) with j by lia. rewrite Hz. simpl.
           f_equal. apply to_int32_id. eapply Forall_slot; eauto.
        -- unfold slot, aset. destruct (Z.ltb_spec i 0); [lia|].
           rewrite list_insert_ge by lia. done.
      * rewrite slot_aset_ne by done.
        replace (j + 1 + (k - (i + 1))) with (j + (k - i)) by lia.
        destruct (Z.leb_spec (i + 1) k), (Z.leb_spec i k); try lia; done.
    + exists arr. replace (Z.max i bound) with i by lia.
      split; [f_equal; lia|]. split; [done|].
      intros k. destruct (Z.leb_spec i k), (Z.ltb_spec k bound); simpl; try done; lia.
Qed.
End CopyLoop.

(** ** Reallocation *)

Section Realloc.
Import JS.

Lemma Forall_of_slots P (a : list Z) :
  (forall i z, slot a i = Some z -> P z) -> Forall P a.
Proof.
  intros H. apply Forall_lookup_2. intros n z Hn.
  apply (H (Z.of_nat n)). unfold slot.
  destruct (Z.ltb_spec (Z.of_nat n) 0); [lia|]. by rewrite Nat2Z.id.
Qed.

(** What [_realloc] builds when it is given room. *)
Lemma _realloc_spec size rb :
  0 <= RB.begin rb < RB.capacity rb ->
  0 <= RB.length rb <= RB.capacity rb ->
  RB.length rb <= size ->
  Forall is_int32 (RB.array rb) ->
  exists a,
    RB._realloc size rb =
      RB.mk 0 (RB.length rb) (RB.length rb) (RB._shrink_count rb)
            (RB.min_capacity rb) a (RB.empty_value rb) /\
    Z.of_nat (List.length a) = size /\
    forall k, slot a k =
      if (0 <=? k) && (k <? RB.length rb)
      then element rb k else slot (Int32Array size) k.
Proof.
  intros Hb Hl Hs Hint. unfold RB._realloc, RB.copy_loop.
  destruct (Z.gtb_spec (RB.length rb) size) as [|_]; [lia|].
  set (old := RB.array rb). set (len := RB.length rb) in *.
  assert (Hcap : RB.capacity rb = Z.of_nat (List.length old)) by done.
  set (wrap := Z.min len (Z.of_nat (List.length old) - RB.begin rb)).
  cbn [fst snd].
  destruct (copy_while_spec (Z.to_nat (wrap - 0)) wrap old (RB._new_array size) 0 (RB.begin rb))
    as (arr1 & E1 & L1 & S1); try lia; [done|].
  rewrite E1. replace (Z.max 0 wrap) with wrap in * by lia. cbn [fst snd].
  destruct (copy_while_spec (Z.to_nat (len - wrap)) len old arr1 wrap 0)
    as (arr2 & E2 & L2 & S2); try lia; [done|].
  rewrite E2. exists arr2. split; [done|].
  assert (Hlen0 : Z.of_nat (List.length (RB._new_array size)) = size).
  { unfold RB._new_array. rewrite length_Int32Array. lia. }
  split; [by rewrite L2, L1|].
  intros k. rewrite S2, S1, L1, Hlen0. unfold element. fold old. rewrite Hcap.
  destruct (Z.leb_spec 0 k), (Z.ltb_spec k len), (Z.leb_spec wrap k),
    (Z.ltb_spec k wrap), (Z.ltb_spec k size); cbn [andb]; try lia; try done.
  - rewrite (mod_cases (RB.begin rb + k)) by lia.
    destruct (Z.ltb_spec (RB.begin rb + k) 0); [lia|].
    destruct (Z.ltb_spec (RB.begin rb + k) (Z.of_nat (List.length old))); [lia|].
    f_equal. lia.
  - rewrite (mod_cases (RB.begin rb + k)) by lia.
    destruct (Z.ltb_spec (RB.begin rb + k) 0); [lia|].
    destruct (Z.ltb_spec (RB.begin rb + k) (Z.of_nat (List.length old))); [|lia].
    f_equal. lia.
Qed.

Lemma wf_bump_shrink_count rb n :
  wf rb ->
  wf (RB.mk (RB.begin rb) (RB.end_ rb) (RB.length rb) n
            (RB.min_capacity rb) (RB.array rb) (RB.empty_value rb)).
Proof. intros []. by constructor. Qed.

(** Reallocation to a larger valid capacity keeps the queue and its
    elements, and moves the first of them to slot [0]. *)
Lemma _realloc_ok size rb :
  wf rb -> RB.length rb <= RB.capacity rb -> RB.length rb < size ->
  valid_capacity size ->
  let rb' := RB._realloc size rb in
  wf rb' /\ RB.capacity rb' = size /\ RB.length rb' = RB.length rb /\
  RB.begin rb' = 0 /\
  forall k, 0 <= k < RB.length rb -> element rb' k = element rb k.
Proof.
  intros Hwf Hle Hlt Hsz rb'. subst rb'.
  pose proof (valid_capacity_bounds _ Hsz) as Hsb.
  destruct Hwf as [Hc Hb He Hl Hm Hev Hint Hv].
  destruct (_realloc_spec size rb) as (a & -> & Hlen & Hslot); try lia; [done|].
  unfold element, RB.capacity in *. cbn [RB.array RB.begin RB.length RB.end_ RB.min_capacity RB.empty_value].
  rewrite Hlen. split; [|split; [done|split; [done|split; [done|]]]].
  - constructor; cbn [RB.array RB.begin RB.length RB.end_ RB.min_capacity RB.empty_value];
      unfold RB.capacity; cbn [RB.array]; rewrite ?Hlen; try done; try lia.
    + rewrite Z.add_0_l, Z.mod_small; lia.
    + apply Forall_of_slots. intros i z. rewrite Hslot.
      destruct ((0 <=? i) && (i <? RB.length rb)).
      * intros Hz. eapply Forall_slot; eauto.
      * intros Hz. pose proof (slot_range _ _ _ Hz) as Hr.
        rewrite length_Int32Array in Hr.
        rewrite slot_Int32Array in Hz by lia. injection Hz as <-. unfold is_int32. lia.
    + intros i Hir Hd. rewrite ?Hlen in *. rewrite Z.sub_0_r, Z.mod_small in Hd by lia.
      rewrite Hslot. destruct (Z.leb_spec 0 i), (Z.ltb_spec i (RB.length rb)); cbn [andb]; try lia.
      apply slot_Int32Array. lia.
  - intros k Hk. rewrite ?Hlen. rewrite Z.add_0_l, (Z.mod_small k) by lia. rewrite Hslot.
    destruct (Z.leb_spec 0 k), (Z.ltb_spec k (RB.length rb)); cbn [andb]; try lia. done.
Qed.

End Realloc.

Section Checks.
Import JS.

Lemma shl_1 a : - 2 ^ 30 <= a < 2 ^ 30 -> shl a 1 = 2 * a.
Proof.
  intros H. unfold shl. rewrite (to_int32_id a) by (unfold is_int32; lia).
  change (1 mod 32) with 1. rewrite Z.shiftl_mul_pow2 by lia.
  rewrite to_int32_id by (unfold is_int32; lia). lia.
Qed.

Lemma shl_1_overflow : shl (2 ^ 30) 1 = - 2 ^ 31.
Proof. reflexivity. Qed.

Lemma sar_div a n : is_int32 a -> 0 <= n < 32 -> sar a n = a / 2 ^ n.
Proof.
  intros Ha Hn. unfold sar. rewrite to_int32_id by done.
  rewrite Z.mod_small by lia. apply Z.shiftr_div_pow2. lia.
Qed.

Lemma valid_capacity_double c :
  valid_capacity c -> c < 2 ^ 30 -> valid_capacity (2 * c).
Proof.
  intros (k & Hk & ->) Hlt. exists (k + 1). split.
  - assert (k < 30); [|lia]. apply (Z.pow_lt_mono_r_iff 2); lia.
  - rewrite Z.pow_add_r by lia. lia.
Qed.

Lemma valid_capacity_quarter c :
  valid_capacity c -> 128 <= c / 4 ->
  valid_capacity (c / 4) /\ 2 * (c / 4 / 2) = c / 4.
Proof.
  intros (k & Hk & ->) Hge.
  assert (Hk9 : 9 <= k).
  { destruct (Z.lt_ge_cases k 9) as [Hlt|]; [|done].
    assert (2 ^ k <= 2 ^ 8) by (apply Z.pow_le_mono_r; lia).
    assert (2 ^ k / 4 <= 2 ^ 8 / 4) by (apply Z.div_le_mono; lia).
    change (2 ^ 8 / 4) with 64 in *. lia. }
  assert (E : 2 ^ k / 4 = 2 ^ (k - 2)).
  { change 4 with (2 ^ 2). rewrite <- Z.pow_sub_r by lia. done. }
  rewrite E. split.
  - exists (k - 2). split; [lia|done].
  - replace (k - 2) with (1 + (k - 3)) by lia.
    rewrite Z.pow_add_r by lia. change (2 ^ 1) with 2.
    rewrite (Z.mul_comm 2 (2 ^ (k - 3))), Z.div_mul by lia. lia.
Qed.

Lemma _check_grow_spec rb :
  wf rb ->
  let rb' := RB._check_grow rb in
  wf rb' /\ RB.length rb' = RB.length rb /\
  (forall k, 0 <= k < RB.length rb -> element rb' k = element rb k) /\
  (RB.length rb <= RB.capacity rb -> RB.length rb < Run.max_length ->
     RB.length rb' < RB.capacity rb').
Proof.
  intros Hwf rb'. subst rb'. unfold RB._check_grow.
  pose proof (valid_capacity_bounds _ (wf_capacity _ Hwf)) as Hcb.
  destruct (Z.eqb_spec (RB.length rb) (RB.capacity rb)) as [Heq|Hne].
  - destruct (Z.eq_dec (RB.capacity rb) (2 ^ 30)) as [Hfull|Hroom].
    + (* the doubled size wraps to a negative number: nothing is done *)
      rewrite Heq, Hfull, shl_1_overflow. unfold RB._realloc.
      rewrite Heq, Hfull. cbn [Z.gtb Z.compare]. change (2 ^ 30 >? - 2 ^ 31) with true. cbn iota.
      rewrite Heq. unfold Run.max_length. split_and!; try done; lia.
    + rewrite shl_1 by lia.
      destruct (_realloc_ok (2 * RB.length rb) rb) as (Hw & Hc & Hl & _ & He); try done; try lia.
      { rewrite Heq. apply valid_capacity_double; [apply Hwf|lia]. }
      split_and!; try done. intros _ _. rewrite Hc, Hl. lia.
  - split_and!; try done. lia.
Qed.

Lemma _check_shrink_spec rb :
  wf rb ->
  let rb' := RB._check_shrink rb in
  wf rb' /\ RB.length rb' = RB.length rb /\
  (forall k, 0 <= k < RB.length rb -> element rb' k = element rb k) /\
  (RB.length rb <= RB.capacity rb -> RB.length rb' <= RB.capacity rb') /\
  (RB.shrinks rb = true ->
     RB.capacity rb' = RB.shrink_candidate rb /\
     RB.min_capacity rb' <= RB.capacity rb' /\
     RB.length rb' <= RB.capacity rb' / 2).
Proof.
  intros Hwf rb'. subst rb'. unfold RB._check_shrink.
  pose proof (valid_capacity_bounds _ (wf_capacity _ Hwf)) as Hcb.
  pose proof (wf_length _ Hwf) as Hl0.
  destruct (RB.shrinks rb) eqn:Hs; [|split_and!; done].
  unfold RB.shrinks, RB.shrink_candidate in *.
  apply andb_true_iff in Hs as [Hs1 Hs2].
  rewrite (sar_div (RB.capacity rb) 2) in * by (unfold is_int32; lia).
  change (2 ^ 2) with 4 in *.
  rewrite (wf_min_capacity _ Hwf) in Hs2.
  apply Z.geb_le in Hs2.
  destruct (valid_capacity_quarter _ (wf_capacity _ Hwf) Hs2) as [Hq Hhalf].
  pose proof (valid_capacity_bounds _ Hq) as Hqb.
  rewrite sar_div in Hs1 by (unfold is_int32; lia).
  change (2 ^ 1) with 2 in Hs1. apply Z.leb_le in Hs1.
  assert (Hdiv : RB.capacity rb / 4 <= RB.capacity rb).
  { apply Z.div_le_upper_bound; lia. }
  set (rb1 := RB.mk _ _ _ _ _ _ _).
  assert (Hwf1 : wf rb1) by (apply wf_bump_shrink_count; done).
  destruct (_realloc_ok (RB.capacity rb / 4) rb1) as (Hw & Hc & Hl & _ & He);
    try done; cbn [rb1 RB.length]; try lia.
  { unfold RB.capacity. cbn [rb1 RB.array]. fold (RB.capacity rb). lia. }
  cbn [rb1 RB.length] in *.
  split; [done|]. split; [done|]. split; [intros k Hk; by rewrite He|].
  split; [intros _; rewrite Hc, Hl; lia|]. intros _.
  rewrite Hc, Hl. split; [done|].
  rewrite (wf_min_capacity _ Hw). split; lia.
Qed.

End Checks.

(** ** The four end operations *)

Ltac mod_split c :=
  repeat first
    [ match goal with
      | |- context [?x mod c] => rewrite (mod_cases x c) by lia
      | H : context [?x mod c] |- _ => rewrite (mod_cases x c) in H by lia
      end
    | match goal with
      | |- context [?a <? ?b] => destruct (Z.ltb_spec a b)
      | H : context [?a <? ?b] |- _ => destruct (Z.ltb_spec a b)
      end ].

Ltac rb_fields :=
  cbn [RB.begin RB.end_ RB.length RB._shrink_count RB.min_capacity RB.array
       RB.empty_value fst snd] in *.

Section Operations.
Import JS.

Lemma end_after_push e b n c :
  e = (b + n) mod c -> (e + 1) mod c = (b + (n + 1)) mod c.
Proof. intros ->. rewrite Zplus_mod_idemp_l. f_equal. lia. Qed.

Lemma end_after_pop e b n c :
  e = (b + n) mod c -> (e + c - 1) mod c = (b + (n - 1)) mod c.
Proof.
  intros ->. replace ((b + n) mod c + c - 1) with ((b + n) mod c + (c - 1)) by lia.
  rewrite Zplus_mod_idemp_l. apply (mod_shift _ _ _ 1). lia.
Qed.

Lemma end_after_unshift e b n c :
  e = (b + n) mod c -> e = ((b + c - 1) mod c + (n + 1)) mod c.
Proof.
  intros ->. rewrite Zplus_mod_idemp_l. apply (mod_shift _ _ _ (-1)). lia.
Qed.

Lemma end_after_shift e b n c :
  e = (b + n) mod c -> e = ((b + 1) mod c + (n - 1)) mod c.
Proof. intros ->. rewrite Zplus_mod_idemp_l. f_equal. lia. Qed.

Lemma offset_of_end b n c : 0 < c -> 0 <= n -> ((b + n) mod c - b) mod c <= n.
Proof.
  intros Hc Hn. rewrite Zminus_mod_idemp_l.
  replace (b + n - b) with n by lia. apply Z.mod_le; lia.
Qed.

Lemma slot_of_offset i b c m :
  0 < c -> 0 <= i < c -> (i - b) mod c = m -> i = (b + m) mod c.
Proof.
  intros Hc Hi <-. rewrite Zplus_mod_idemp_r.
  replace (b + (i - b)) with i by lia. rewrite Z.mod_small; lia.
Qed.

Lemma capacity_aset b e n sc mc a i v ev :
  RB.capacity (RB.mk b e n sc mc (aset a i v) ev) = Z.of_nat (List.length a).
Proof. unfold RB.capacity. cbn. by rewrite length_aset. Qed.

Lemma Forall_aset a i v : Forall is_int32 a -> Forall is_int32 (aset a i v).
Proof.
  intros H. unfold aset. destruct (i <? 0); [done|].
  apply Forall_insert; [done|]. destruct v; cbn; [unfold is_int32; lia|apply to_int32_is_int32].
Qed.

Lemma push_spec v rb :
  wf rb ->
  let rb' := fst (RB.push v rb) in
  wf rb' /\ snd (RB.push v rb) = Num (RB.length rb + 1) /\
  RB.length rb' = RB.length rb + 1 /\
  (RB.length rb <= RB.capacity rb -> RB.length rb < Run.max_length ->
     RB.length rb' <= RB.capacity rb' /\
     (forall k, 0 <= k < RB.length rb -> element rb' k = element rb k) /\
     element rb' (RB.length rb) = Some (to_int32 v)).
Proof.
  intros Hwf rb'. subst rb'. unfold RB.push.
  destruct (_check_grow_spec rb Hwf) as (Hw0 & Hl0 & He0 & Hroom).
  set (rb0 := RB._check_grow rb) in *. cbn [fst snd]. rewrite length_aset.
  fold (RB.capacity rb0).
  pose proof (valid_capacity_bounds _ (wf_capacity _ Hw0)) as Hcb.
  destruct Hw0 as [Hc Hb He Hl Hm Hev Hint Hv].
  assert (He0r : 0 <= RB.end_ rb0 < RB.capacity rb0).
  { rewrite He. apply Z.mod_pos_bound. lia. }
  rewrite rem_mod by lia. rewrite Hl0 in *.
  split; [|split; [done|split; [done|]]].
  - constructor; rewrite ?capacity_aset; fold (RB.capacity rb0); rb_fields; try done; try lia.
    + by apply end_after_push.
    + by apply Forall_aset.
    + intros i Hi Hd.
      assert (i <> RB.end_ rb0).
      { intros ->. pose proof (offset_of_end (RB.begin rb0) (RB.length rb) (RB.capacity rb0)).
        rewrite <- He in *. lia. }
      rewrite slot_aset_ne by done. apply Hv; lia.
  - intros Hle Hlt. specialize (Hroom Hle Hlt).
    rewrite ?capacity_aset. fold (RB.capacity rb0). rb_fields.
    split; [lia|]. split.
    + intros k Hk. rewrite <- He0 by done. unfold element.
      rewrite ?capacity_aset. fold (RB.capacity rb0). rb_fields.
      rewrite slot_aset_ne; [done|]. rewrite He. mod_split (RB.capacity rb0); lia.
    + unfold element. rewrite ?capacity_aset. fold (RB.capacity rb0). rb_fields.
      rewrite <- He. apply slot_aset_eq. fold (RB.capacity rb0). lia.
Qed.

Lemma unshift_spec v rb :
  wf rb ->
  let rb' := fst (RB.unshift v rb) in
  wf rb' /\ snd (RB.unshift v rb) = Num (RB.length rb + 1) /\
  RB.length rb' = RB.length rb + 1 /\
  (RB.length rb <= RB.capacity rb -> RB.length rb < Run.max_length ->
     RB.length rb' <= RB.capacity rb' /\
     (forall k, 0 <= k < RB.length rb -> element rb' (k + 1) = element rb k) /\
     element rb' 0 = Some (to_int32 v)).
Proof.
  intros Hwf rb'. subst rb'. unfold RB.unshift.
  destruct (_check_grow_spec rb Hwf) as (Hw0 & Hl0 & He0 & Hroom).
  set (rb0 := RB._check_grow rb) in *. cbn [fst snd].
  pose proof (valid_capacity_bounds _ (wf_capacity _ Hw0)) as Hcb.
  destruct Hw0 as [Hc Hb He Hl Hm Hev Hint Hv].
  rewrite rem_mod by lia. rewrite Hl0 in *.
  set (b' := (RB.begin rb0 + RB.capacity rb0 - 1) mod RB.capacity rb0).
  assert (Hb' : 0 <= b' < RB.capacity rb0) by (apply Z.mod_pos_bound; lia).
  split; [|split; [done|split; [done|]]].
  - constructor; rewrite ?capacity_aset; fold (RB.capacity rb0); rb_fields; try done; try lia.
    + by apply end_after_unshift.
    + by apply Forall_aset.
    + intros i Hi Hd. subst b'.
      assert (i <> (RB.begin rb0 + RB.capacity rb0 - 1) mod RB.capacity rb0
              /\ RB.length rb <= (i - RB.begin rb0) mod RB.capacity rb0) as [Hne Hold].
      { clear He Hv. mod_split (RB.capacity rb0); lia. }
      rewrite slot_aset_ne by done. by apply Hv.
  - intros Hle Hlt. specialize (Hroom Hle Hlt).
    rewrite ?capacity_aset. fold (RB.capacity rb0). rb_fields.
    split; [lia|]. split.
    + intros k Hk. rewrite <- He0 by done. unfold element.
      rewrite ?capacity_aset. fold (RB.capacity rb0). rb_fields.
      assert ((b' + (k + 1)) mod RB.capacity rb0 = (RB.begin rb0 + k) mod RB.capacity rb0
              /\ (RB.begin rb0 + k) mod RB.capacity rb0 <> b') as [-> Hne].
      { subst b'. clear He Hv. mod_split (RB.capacity rb0); lia. }
      by rewrite slot_aset_ne.
    + unfold element. rewrite ?capacity_aset. fold (RB.capacity rb0). rb_fields.
      rewrite Z.add_0_r, Z.mod_small by lia.
      apply slot_aset_eq. fold (RB.capacity rb0). lia.
Qed.

End Operations.

Section Removal.
Import JS.

Lemma aget_slot a i z : slot a i = Some z -> aget a i = Num z.
Proof. unfold aget. by intros ->. Qed.

Lemma pop_spec rb :
  wf rb -> 0 < RB.length rb ->
  let rb0 := RB._check_shrink rb in
  let rb' := fst (RB.pop rb) in
  let r := snd (RB.pop rb) in
  wf rb' /\ RB.length rb' = RB.length rb - 1 /\
  RB.capacity rb' = RB.capacity rb0 /\
  0 <= RB.end_ rb' < RB.capacity rb' /\
  r = aget (RB.array rb0) (RB.end_ rb') /\
  slot (RB.array rb') (RB.end_ rb') = Some 0 /\
  (RB.length rb <= RB.capacity rb ->
     RB.length rb' <= RB.capacity rb' /\
     (forall k, 0 <= k < RB.length rb - 1 -> element rb' k = element rb k) /\
     exists z, r = Num z /\ element rb (RB.length rb - 1) = Some z).
Proof.
  intros Hwf Hpos rb0 rb' r. subst rb' r. unfold RB.pop.
  destruct (Z.eqb_spec (RB.length rb) 0) as [|_]; [lia|].
  destruct (_check_shrink_spec rb Hwf) as (Hw0 & Hl0 & He0 & Hle0 & _).
  fold rb0 in Hw0, Hl0, He0, Hle0 |- *. cbn [fst snd].
  pose proof (valid_capacity_bounds _ (wf_capacity _ Hw0)) as Hcb.
  destruct Hw0 as [Hc Hb He Hl Hm Hev Hint Hv].
  assert (He0r : 0 <= RB.end_ rb0 < RB.capacity rb0).
  { rewrite He. apply Z.mod_pos_bound. lia. }
  rewrite rem_mod by lia. rewrite Hl0 in *.
  set (e' := (RB.end_ rb0 + RB.capacity rb0 - 1) mod RB.capacity rb0).
  assert (He' : e' = (RB.begin rb0 + (RB.length rb - 1)) mod RB.capacity rb0)
    by (by apply end_after_pop).
  assert (Hr' : 0 <= e' < RB.capacity rb0) by (apply Z.mod_pos_bound; lia).
  rewrite ?capacity_aset. fold (RB.capacity rb0). rb_fields.
  assert (Hz : slot (aset (RB.array rb0) e' (RB.empty_value rb0)) e' = Some 0).
  { rewrite slot_aset_eq by (fold (RB.capacity rb0); lia). by rewrite Hev. }
  split_and!; try done; try lia.
  - constructor; rewrite ?capacity_aset; fold (RB.capacity rb0); rb_fields; try done; try lia.
    + by apply Forall_aset.
    + intros i Hi Hd. destruct (Z.eq_dec i e') as [->|Hne]; [done|].
      rewrite slot_aset_ne by done. apply Hv; [done|].
      destruct (Z.eq_dec ((i - RB.begin rb0) mod RB.capacity rb0) (RB.length rb - 1)) as [Hm1|]; [|lia].
      apply slot_of_offset in Hm1; [|lia|done]. congruence.
  - intros Hle. specialize (Hle0 Hle). split; [lia|]. split.
    + intros k Hk. rewrite <- He0 by lia. unfold element.
      rewrite ?capacity_aset. fold (RB.capacity rb0). rb_fields.
      rewrite slot_aset_ne; [done|]. rewrite He'. clear He Hv. mod_split (RB.capacity rb0); lia.
    + rewrite <- He0 by lia. unfold element. rewrite <- He'.
      destruct (slot_is_Some (RB.array rb0) e') as [z Hs]; [fold (RB.capacity rb0); lia|].
      exists z. split; [by apply aget_slot|done].
Qed.

Lemma shift_spec rb :
  wf rb -> 0 < RB.length rb ->
  let rb0 := RB._check_shrink rb in
  let rb' := fst (RB.shift rb) in
  let r := snd (RB.shift rb) in
  wf rb' /\ RB.length rb' = RB.length rb - 1 /\
  RB.capacity rb' = RB.capacity rb0 /\
  RB.begin rb' = (RB.begin rb0 + 1) mod RB.capacity rb0 /\
  r = aget (RB.array rb0) (RB.begin rb0) /\
  slot (RB.array rb') (RB.begin rb0) = Some 0 /\
  (RB.length rb <= RB.capacity rb ->
     RB.length rb' <= RB.capacity rb' /\
     (forall k, 0 <= k < RB.length rb - 1 -> element rb' k = element rb (k + 1)) /\
     exists z, r = Num z /\ element rb 0 = Some z).
Proof.
  intros Hwf Hpos rb0 rb' r. subst rb' r. unfold RB.shift.
  destruct (Z.eqb_spec (RB.length rb) 0) as [|_]; [lia|].
  destruct (_check_shrink_spec rb Hwf) as (Hw0 & Hl0 & He0 & Hle0 & _).
  fold rb0 in Hw0, Hl0, He0, Hle0 |- *. cbn [fst snd].
  pose proof (valid_capacity_bounds _ (wf_capacity _ Hw0)) as Hcb.
  destruct Hw0 as [Hc Hb He Hl Hm Hev Hint Hv].
  rewrite length_aset. fold (RB.capacity rb0).
  rewrite rem_mod by lia. rewrite Hl0 in *.
  rewrite ?capacity_aset. fold (RB.capacity rb0). rb_fields.
  assert (Hz : slot (aset (RB.array rb0) (RB.begin rb0) (RB.empty_value rb0)) (RB.begin rb0) = Some 0).
  { rewrite slot_aset_eq by (fold (RB.capacity rb0); lia). by rewrite Hev. }
  split_and!; try done; try lia.
  - constructor; rewrite ?capacity_aset; fold (RB.capacity rb0); rb_fields; try done; try lia.
    + apply Z.mod_pos_bound. lia.
    + by apply end_after_shift.
    + by apply Forall_aset.
    + intros i Hi Hd. destruct (Z.eq_dec i (RB.begin rb0)) as [->|Hne]; [done|].
      rewrite slot_aset_ne by done. apply Hv; [done|].
      clear He Hv. mod_split (RB.capacity rb0); lia.
  - intros Hle. specialize (Hle0 Hle). split; [lia|]. split.
    + intros k Hk. rewrite <- He0 by lia. unfold element.
      rewrite ?capacity_aset. fold (RB.capacity rb0). rb_fields.
      assert (((RB.begin rb0 + 1) mod RB.capacity rb0 + k) mod RB.capacity rb0
                = (RB.begin rb0 + (k + 1)) mod RB.capacity rb0
              /\ (RB.begin rb0 + (k + 1)) mod RB.capacity rb0 <> RB.begin rb0) as [-> Hne].
      { clear He Hv. mod_split (RB.capacity rb0); lia. }
      by rewrite slot_aset_ne.
    + rewrite <- He0 by lia. unfold element.
      rewrite Z.add_0_r, Z.mod_small by lia.
      destruct (slot_is_Some (RB.array rb0) (RB.begin rb0)) as [z Hs]; [fold (RB.capacity rb0); lia|].
      exists z. split; [by apply aget_slot|done].
Qed.

End Removal.

(** ** Refinement of the reference deque *)

Section Refinement.
Import JS.

Lemma slot_app_l (d e : list Z) k :
  0 <= k < Z.of_nat (List.length d) -> slot (d ++ e) k = slot d k.
Proof.
  intros Hk. unfold slot. destruct (Z.ltb_spec k 0); [lia|].
  apply lookup_app_l. lia.
Qed.

Lemma slot_app_last (d : list Z) v : slot (d ++ [v]) (Z.of_nat (List.length d)) = Some v.
Proof.
  unfold slot. destruct (Z.ltb_spec (Z.of_nat (List.length d)) 0); [lia|].
  apply list_lookup_middle. lia.
Qed.

Lemma slot_cons_succ (d : list Z) v k : 0 <= k -> slot (v :: d) (k + 1) = slot d k.
Proof.
  intros Hk. unfold slot.
  destruct (Z.ltb_spec (k + 1) 0), (Z.ltb_spec k 0); try lia.
  replace (Z.to_nat (k + 1)) with (S (Z.to_nat k)) by lia. done.
Qed.

Lemma slot_take (d : list Z) n k :
  0 <= k < Z.of_nat n -> slot (take n d) k = slot d k.
Proof.
  intros Hk. unfold slot. destruct (Z.ltb_spec k 0); [lia|].
  apply lookup_take_lt. lia.
Qed.

Lemma wf_reset : wf RB.reset.
Proof.
  assert (Hc : RB.capacity RB.reset = 16) by reflexivity.
  constructor; rewrite ?Hc; cbn [RB.reset RB.begin RB.end_ RB.length RB.min_capacity RB.empty_value RB.array];
    try done; try lia.
  - exists 4. split; [lia|done].
  - apply Forall_of_slots. intros i z Hz.
    pose proof (slot_range _ _ _ Hz) as Hr. unfold RB._new_array in *.
    rewrite length_Int32Array in Hr. rewrite slot_Int32Array in Hz by lia.
    injection Hz as <-. unfold is_int32. lia.
  - intros i Hi _. apply slot_Int32Array. lia.
Qed.

Lemma represents_reset : represents RB.reset Deque.empty.
Proof. split; [apply wf_reset|]. cbn. split_and!; try done. lia. Qed.

(** Every operation keeps a ring buffer well formed. *)
Lemma step_wf o rb : wf rb -> wf (fst (Run.step o rb)).
Proof.
  intros Hwf. destruct o as [v|v| | |i]; cbn [Run.step fst].
  - apply push_spec, Hwf.
  - apply unshift_spec, Hwf.
  - destruct (Z.eq_dec (RB.length rb) 0) as [E|E].
    + unfold RB.pop. rewrite E. done.
    + apply pop_spec; [done|]. pose proof (wf_length _ Hwf). lia.
  - destruct (Z.eq_dec (RB.length rb) 0) as [E|E].
    + unfold RB.shift. rewrite E. done.
    + apply shift_spec; [done|]. pose proof (wf_length _ Hwf). lia.
  - done.
Qed.

(** Where the sum of [begin] and the index is exact, [get] reads the slot
    at that sum modulo the capacity. *)
Lemma get_exact rb i :
  0 <= RB.begin rb -> 0 <= i -> RB.begin rb + i < 2 ^ 53 -> 0 < RB.capacity rb ->
  RB.get i rb = aget (RB.array rb) ((RB.begin rb + i) mod RB.capacity rb).
Proof.
  intros Hb Hi Hs Hc. unfold RB.get. rewrite add_exact by lia. by rewrite rem_mod by lia.
Qed.

Lemma get_element rb i z :
  wf rb -> RB.length rb <= RB.capacity rb -> 0 <= i < RB.length rb ->
  element rb i = Some z -> RB.get i rb = Num z.
Proof.
  intros Hwf Hle Hi He.
  pose proof (valid_capacity_bounds _ (wf_capacity _ Hwf)).
  pose proof (wf_begin _ Hwf).
  rewrite get_exact by lia. by apply aget_slot.
Qed.

(** One admissible operation gives the same result on a ring buffer and
    on the deque it represents, and the next states correspond. *)
Lemma step_refines o rb d :
  represents rb d -> Run.admissible o d = true ->
  snd (Run.step o rb) = snd (Run.ref_step o d) /\
  represents (fst (Run.step o rb)) (fst (Run.ref_step o d)).
Proof.
  intros (Hwf & Hlen & Hle & Hel) Hadm.
  apply andb_true_iff in Hadm as [Hadm Hlim]. unfold Run.within_limit in Hlim.
  destruct o as [v|v| | |i];
    cbn [Run.step Run.ref_step Run.typed Run.adds negb orb] in *.
  - (* push *)
    apply andb_true_iff in Hadm as [Hlo Hhi].
    apply Z.leb_le in Hlo. apply Z.ltb_lt in Hhi, Hlim. rewrite <- Hlen in Hlim.
    destruct (push_spec v rb Hwf) as (Hw' & Hr & Hl' & Hb).
    destruct (Hb Hle Hlim) as (Hle' & Hold & Hnew).
    rewrite to_int32_id in Hnew by done.
    unfold Deque.push_back. cbn [fst snd]. split; [by rewrite Hr, Hlen|].
    split; [done|]. rewrite Hl', length_app. cbn [List.length].
    split; [lia|]. split; [lia|].
    intros k Hk. destruct (Z.eq_dec k (RB.length rb)) as [->|Hne].
    + rewrite Hnew, Hlen. by rewrite slot_app_last.
    + rewrite Hold, Hel, slot_app_l by lia. done.
  - (* unshift *)
    apply andb_true_iff in Hadm as [Hlo Hhi].
    apply Z.leb_le in Hlo. apply Z.ltb_lt in Hhi, Hlim. rewrite <- Hlen in Hlim.
    destruct (unshift_spec v rb Hwf) as (Hw' & Hr & Hl' & Hb).
    destruct (Hb Hle Hlim) as (Hle' & Hold & Hnew).
    rewrite to_int32_id in Hnew by done.
    unfold Deque.push_front. cbn [fst snd]. split; [by rewrite Hr, Hlen|].
    split; [done|]. rewrite Hl'. cbn [List.length].
    split; [lia|]. split; [lia|].
    intros k Hk. destruct (Z.eq_dec k 0) as [->|Hne]; [done|].
    replace k with (k - 1 + 1) by lia.
    rewrite Hold, Hel, slot_cons_succ by lia. done.
  - (* pop *)
    unfold Deque.pop_back. rewrite last_lookup.
    destruct (Z.eq_dec (RB.length rb) 0) as [E|E].
    + unfold RB.pop. rewrite E. cbn [Z.eqb fst snd].
      destruct d; [|cbn in Hlen; lia]. cbn. split; [done|].
      split_and!; try done.
    + pose proof (wf_length _ Hwf) as Hl0.
      destruct (pop_spec rb Hwf) as (Hw' & Hl' & _ & _ & _ & _ & Hb); [lia|].
      destruct (Hb Hle) as (Hle' & Hold & z & Hr & Hz).
      rewrite Hel in Hz by lia. unfold slot in Hz.
      destruct (Z.ltb_spec (RB.length rb - 1) 0); [lia|].
      replace (Z.to_nat (RB.length rb - 1)) with (pred (List.length d)) in Hz by lia.
      rewrite Hz. cbn [fst snd]. split; [done|].
      split; [done|]. rewrite Hl', length_take. split; [lia|]. split; [lia|].
      intros k Hk. rewrite Hold, Hel, slot_take by lia. done.
  - (* shift *)
    unfold Deque.pop_front.
    destruct (Z.eq_dec (RB.length rb) 0) as [E|E].
    + unfold RB.shift. rewrite E. cbn [Z.eqb fst snd].
      destruct d; [|cbn in Hlen; lia]. cbn. split; [done|].
      split_and!; try done.
    + pose proof (wf_length _ Hwf) as Hl0.
      destruct (shift_spec rb Hwf) as (Hw' & Hl' & _ & _ & _ & _ & Hb); [lia|].
      destruct (Hb Hle) as (Hle' & Hold & z & Hr & Hz).
      rewrite Hel in Hz by lia.
      destruct d as [|x d]; [cbn in Hlen; lia|]. cbn in Hz. injection Hz as ->.
      cbn [fst snd]. split; [done|].
      split; [done|]. rewrite Hl'. cbn [List.length] in *. split; [lia|]. split; [lia|].
      intros k Hk. rewrite Hold, Hel, slot_cons_succ by lia. done.
  - (* get *)
    apply andb_true_iff in Hadm as [Hlo Hhi].
    apply Z.leb_le in Hlo. apply Z.ltb_lt in Hhi.
    cbn [fst snd]. split; [|by split_and!].
    destruct (slot_is_Some d i) as [z Hz]; [lia|].
    unfold Deque.get. rewrite (aget_slot _ _ _ Hz).
    apply get_element; [done|done|lia|]. rewrite Hel by lia. done.
Qed.

Lemma step_net o rb d :
  represents rb d ->
  RB.length (fst (Run.step o rb)) = RB.length rb + Run.delta o (snd (Run.step o rb)).
Proof.
  intros (Hwf & Hlen & Hle & Hel). pose proof (wf_length _ Hwf) as Hl0.
  destruct o as [v|v| | |i]; cbn [Run.step Run.delta].
  - destruct (push_spec v rb Hwf) as (_ & _ & -> & _). done.
  - destruct (unshift_spec v rb Hwf) as (_ & _ & -> & _). done.
  - destruct (Z.eq_dec (RB.length rb) 0) as [E|E].
    + unfold RB.pop. rewrite E. cbn. lia.
    + destruct (pop_spec rb Hwf) as (_ & -> & _ & _ & _ & _ & Hb); [lia|].
      destruct (Hb Hle) as (_ & _ & z & -> & _). lia.
  - destruct (Z.eq_dec (RB.length rb) 0) as [E|E].
    + unfold RB.shift. rewrite E. cbn. lia.
    + destruct (shift_spec rb Hwf) as (_ & -> & _ & _ & _ & _ & Hb); [lia|].
      destruct (Hb Hle) as (_ & _ & z & -> & _). lia.
  - cbn. lia.
Qed.

Lemma run_refines ops : forall rb d,
  represents rb d -> Run.all_admissible ops d = true ->
  snd (Run.run Run.step ops rb) = snd (Run.run Run.ref_step ops d) /\
  represents (fst (Run.run Run.step ops rb)) (fst (Run.run Run.ref_step ops d)) /\
  RB.length (fst (Run.run Run.step ops rb))
    = RB.length rb + Run.net ops (snd (Run.run Run.step ops rb)).
Proof.
  induction ops as [|o ops IH]; intros rb d Hrep Hadm; cbn [Run.run Run.all_admissible] in *.
  - cbn. split_and!; try done. lia.
  - apply andb_true_iff in Hadm as [Ho Hops].
    destruct (step_refines o rb d Hrep Ho) as [Hr Hrep'].
    pose proof (step_net o rb d Hrep) as Hn.
    destruct (Run.step o rb) as [rb1 r], (Run.ref_step o d) as [d1 r'].
    cbn [fst snd] in *. subst r'.
    destruct (IH rb1 d1 Hrep' Hops) as (Hrs & Hrep'' & Hnet).
    destruct (Run.run Run.step ops rb1) as [rb2 rs], (Run.run Run.ref_step ops d1) as [d2 rs'].
    cbn [fst snd Run.net] in *. subst rs'. split_and!; try done. lia.
Qed.

End Refinement.

(** ** The 32-bit limit *)

Section Limits.
Import JS.

Lemma run_snoc {State : Type} (f : op -> State -> State * value) ops o : forall s,
  Run.run f (ops ++ [o]) s =
    (fst (f o (fst (Run.run f ops s))),
     snd (Run.run f ops s) ++ [snd (f o (fst (Run.run f ops s)))]).
Proof.
  induction ops as [|o' ops IH]; intros s; cbn [Run.run app fst snd].
  - by destruct (f o s).
  - destruct (f o' s) as [s1 r]. rewrite IH.
    by destruct (Run.run f ops s1).
Qed.

Lemma run_wf ops : forall rb, wf rb -> wf (fst (Run.run Run.step ops rb)).
Proof.
  induction ops as [|o ops IH]; intros rb Hwf; cbn [Run.run]; [done|].
  pose proof (step_wf o rb Hwf) as H1. destruct (Run.step o rb) as [rb1 r].
  specialize (IH rb1 H1). destruct (Run.run Run.step ops rb1). done.
Qed.

Lemma step_fits o rb :
  wf rb -> RB.length rb <= RB.capacity rb ->
  Run.within_limit o (RB.length rb) = true ->
  RB.length (fst (Run.step o rb)) <= RB.capacity (fst (Run.step o rb)).
Proof.
  intros Hwf Hle Hlim. pose proof (wf_length _ Hwf) as Hl0.
  unfold Run.within_limit in Hlim.
  destruct o as [v|v| | |i]; cbn [Run.step Run.adds negb orb fst] in *.
  - apply Z.ltb_lt in Hlim. destruct (push_spec v rb Hwf) as (_ & _ & _ & Hb).
    by destruct (Hb Hle Hlim).
  - apply Z.ltb_lt in Hlim. destruct (unshift_spec v rb Hwf) as (_ & _ & _ & Hb).
    by destruct (Hb Hle Hlim).
  - destruct (Z.eq_dec (RB.length rb) 0) as [E|E].
    + unfold RB.pop. rewrite E. cbn. lia.
    + destruct (pop_spec rb Hwf) as (_ & _ & _ & _ & _ & _ & Hb); [lia|].
      by destruct (Hb Hle).
  - destruct (Z.eq_dec (RB.length rb) 0) as [E|E].
    + unfold RB.shift. rewrite E. cbn. lia.
    + destruct (shift_spec rb Hwf) as (_ & _ & _ & _ & _ & _ & Hb); [lia|].
      by destruct (Hb Hle).
  - done.
Qed.

Lemma run_fits ops : forall rb,
  wf rb -> RB.length rb <= RB.capacity rb -> Run.fits ops rb = true ->
  RB.length (fst (Run.run Run.step ops rb)) <= RB.capacity (fst (Run.run Run.step ops rb)).
Proof.
  induction ops as [|o ops IH]; intros rb Hwf Hle Hfit; cbn [Run.run Run.fits] in *; [done|].
  apply andb_true_iff in Hfit as [Ho Hops].
  pose proof (step_wf o rb Hwf) as H1. pose proof (step_fits o rb Hwf Hle Ho) as H2.
  destruct (Run.step o rb) as [rb1 r]. cbn [fst] in *.
  specialize (IH rb1 H1 H2 Hops). destruct (Run.run Run.step ops rb1). done.
Qed.

(** Pushing [0] on the deque, [n] times. *)
Lemma zeros_admissible n : forall d,
  Z.of_nat (List.length d) + Z.of_nat n <= Run.max_length ->
  Run.all_admissible (replicate n (Push 0)) d = true /\
  fst (Run.run Run.ref_step (replicate n (Push 0)) d) = d ++ replicate n 0.
Proof.
  induction n as [|n IH]; intros d Hd; cbn [replicate Run.all_admissible Run.run].
  - by rewrite app_nil_r.
  - unfold Run.admissible, Run.within_limit.
    cbn [Run.typed Run.adds negb orb Run.ref_step Deque.push_back fst].
    destruct (IH (d ++ [0])) as [Ha Hr].
    { rewrite length_app. cbn [List.length]. lia. }
    rewrite Ha. destruct (Run.run Run.ref_step (replicate n (Push 0)) (d ++ [0])) as [d' rs].
    cbn [fst] in *. subst d'. rewrite <- app_assoc. split; [|done].
    rewrite andb_true_r. apply andb_true_iff. split; [done|]. apply Z.ltb_lt. lia.
Qed.

(** A store of [2 ^ 30] slots that is full is not grown. *)
Lemma _check_grow_full rb :
  RB.length rb = 2 ^ 30 -> RB.capacity rb = 2 ^ 30 -> RB._check_grow rb = rb.
Proof.
  intros Hl Hc. unfold RB._check_grow, RB._realloc. rewrite Hl, Hc. reflexivity.
Qed.

(** The state after [n = 2 ^ 30] elements have been pushed. *)
Lemma full_store n (rb := fst (Run.run Run.step (replicate n (Push 0)) RB.reset)) :
  Z.of_nat n = 2 ^ 30 ->
  represents rb (replicate n 0) /\ RB.capacity rb = 2 ^ 30 /\ RB.length rb = 2 ^ 30 /\
  RB.end_ rb = RB.begin rb.
Proof.
  intros Hn. subst rb.
  destruct (zeros_admissible n Deque.empty) as [Ha Hd].
  { unfold Run.max_length. cbn [Deque.empty List.length]. lia. }
  destruct (run_refines _ _ _ represents_reset Ha) as (_ & Hrep & _).
  rewrite Hd in Hrep. cbn [Deque.empty app] in Hrep.
  destruct Hrep as (Hwf & Hlen & Hle & Hel).
  rewrite length_replicate in Hlen.
  pose proof (valid_capacity_bounds _ (wf_capacity _ Hwf)).
  assert (Hc : RB.capacity (fst (Run.run Run.step (replicate n (Push 0)) RB.reset)) = 2 ^ 30) by lia.
  split_and!; try done; try lia.
  - split_and!; try done. by rewrite length_replicate.
  - rewrite (wf_end _ Hwf), Hlen, Hn, Hc.
    rewrite <- (Z.mul_1_l (2 ^ 30)) at 1. rewrite Z_mod_plus_full.
    pose proof (wf_begin _ Hwf). apply Z.mod_small. lia.
Qed.

Lemma overflow_state n v
    (rb := fst (Run.run Run.step (replicate n (Push 0) ++ [Push v]) RB.reset)) :
  Z.of_nat n = 2 ^ 30 ->
  RB.capacity rb = 2 ^ 30 /\ RB.length rb = 2 ^ 30 + 1 /\
  RB.get 0 rb = Num (to_int32 v).
Proof.
  intros Hn. subst rb. rewrite run_snoc. cbn [fst Run.step].
  destruct (full_store n Hn) as ((Hwf & _) & Hc & Hl & He).
  set (rb := fst (Run.run Run.step (replicate n (Push 0)) RB.reset)) in *.
  unfold RB.push. rewrite (_check_grow_full rb Hl Hc). cbn [fst].
  pose proof (wf_begin _ Hwf) as Hb.
  rewrite capacity_aset. fold (RB.capacity rb).
  rewrite get_exact; rewrite ?capacity_aset; fold (RB.capacity rb); rb_fields; try lia.
  split; [done|]. split; [lia|].
  rewrite Z.add_0_r, Z.mod_small by lia.
  apply aget_slot. rewrite He. apply slot_aset_eq. fold (RB.capacity rb). lia.
Qed.

End Limits.


(** ** The ring buffer against its specification *)

Section RingBufferClaims.
Import JS.

Lemma run_typed_admissible ops : forall d,
  Run.all_admissible ops d = true -> Run.all_typed ops d = true.
Proof.
  induction ops as [|o ops IH]; intros d; cbn [Run.all_admissible Run.all_typed]; [done|].
  unfold Run.admissible. intros H.
  apply andb_true_iff in H as [Ho Hops]. apply andb_true_iff in Ho as [Ht _].
  rewrite Ht. by apply IH.
Qed.

(** Claim C3, as amended.  Take any finite sequence of push, unshift, pop,
    shift and get on a new ring buffer in which every added value is a
    32-bit integer, every get reads a valid position, and no element is
    added while the queue holds [2 ^ 30] elements.  Then every operation
    returns what it returns on the reference deque; in the final state
    [get i] is the element of the deque at position [i] for every
    [0 <= i < length]; and [length] is the size of the deque, equals the
    additions minus the removals that returned a value, and is not
    negative. *)
Theorem ring_buffer_refines_deque ops :
  Run.all_admissible ops Deque.empty = true ->
  let rb := fst (Run.run Run.step ops RB.reset) in
  let rs := snd (Run.run Run.step ops RB.reset) in
  let d := fst (Run.run Run.ref_step ops Deque.empty) in
  rs = snd (Run.run Run.ref_step ops Deque.empty) /\
  (forall i, 0 <= i < RB.length rb -> RB.get i rb = Deque.get i d) /\
  RB.length rb = Z.of_nat (List.length d) /\
  RB.length rb = Run.net ops rs /\
  0 <= RB.length rb.
Proof.
  intros Hadm rb rs d.
  destruct (run_refines ops _ _ represents_reset Hadm) as (Hrs & Hrep & Hnet).
  fold rb rs d in Hrs, Hrep, Hnet. destruct Hrep as (Hwf & Hlen & Hle & Hel).
  split_and!; try done.
  - intros i Hi. destruct (slot_is_Some d i) as [z Hz]; [lia|].
    unfold Deque.get. rewrite (aget_slot _ _ _ Hz).
    apply get_element; [done|done|lia|]. by rewrite Hel.
  - lia.
Qed.

Lemma ring_buffer_refines_deque_witness :
  Run.all_admissible short_run Deque.empty = true /\
  snd (Run.run Run.step short_run RB.reset)
    = snd (Run.run Run.ref_step short_run Deque.empty) /\
  RB.length (fst (Run.run Run.step short_run RB.reset)) = 1.
Proof.
  pose proof (ring_buffer_refines_deque short_run eq_refl) as (Hrs & _ & Hlen & _).
  split; [reflexivity|]. split; [exact Hrs|]. rewrite Hlen. reflexivity.
Defined.

(** Claim C3 as stated fails: after [2 ^ 30] pushes the store is full and
    is not grown, so the next push overwrites the oldest element and
    [get 0] returns the value just pushed, where the deque returns the
    first one. *)
Lemma refinement_fails_past_limit :
  Run.all_typed (past_limit 1 ++ [Get 0]) Deque.empty = true /\
  last (snd (Run.run Run.step (past_limit 1 ++ [Get 0]) RB.reset)) = Some (Num 1) /\
  last (snd (Run.run Run.ref_step (past_limit 1 ++ [Get 0]) Deque.empty)) = Some (Num 0).
Proof.
  unfold past_limit. set (n := Z.to_nat (2 ^ 30)).
  assert (Hn : Z.of_nat n = 2 ^ 30) by (apply Z2Nat.id; lia).
  clearbody n.
  destruct (zeros_admissible n Deque.empty) as [Ha Hd].
  { unfold Run.max_length. cbn [Deque.empty List.length]. lia. }
  assert (Hd1 : fst (Run.run Run.ref_step (replicate n (Push 0) ++ [Push 1]) Deque.empty)
                = replicate n 0 ++ [1]).
  { rewrite run_snoc. cbn [fst Run.ref_step Deque.push_back]. by rewrite Hd. }
  split_and!.
  - (* the sequence is well typed *)
    assert (Hgen : forall ops1 ops2 d, Run.all_typed ops1 d = true ->
              Run.all_typed ops2 (fst (Run.run Run.ref_step ops1 d)) = true ->
              Run.all_typed (ops1 ++ ops2) d = true).
    { induction ops1 as [|o ops1 IH]; intros ops2 d H1 H2; cbn [app Run.all_typed Run.run] in *; [done|].
      apply andb_true_iff in H1 as [-> H1]. cbn [andb].
      destruct (Run.ref_step o d) as [d1 r]. cbn [fst] in *.
      apply IH; [done|]. by destruct (Run.run Run.ref_step ops1 d1). }
    apply Hgen; [apply Hgen|].
    + by apply run_typed_admissible.
    + done.
    + rewrite Hd1. cbn [Run.all_typed Run.typed]. rewrite length_app, length_replicate.
      cbn [List.length]. rewrite andb_true_r. apply andb_true_iff. split; [done|].
      apply Z.ltb_lt. lia.
  - rewrite run_snoc. cbn [snd Run.step]. rewrite last_snoc. f_equal.
    destruct (overflow_state n 1 Hn) as (_ & _ & Hg). exact Hg.
  - rewrite run_snoc. cbn [snd Run.ref_step]. rewrite last_snoc. f_equal.
    rewrite Hd1. unfold Deque.get. apply aget_slot.
    rewrite slot_app_l by (rewrite length_replicate; lia).
    unfold slot. cbn [Z.ltb Z.compare]. apply lookup_replicate_2. lia.
Qed.

(** Claim C4, as amended.  In every state reached from a new ring buffer
    the capacity is a power of two, from [2 ^ 4] to [2 ^ 30]; it is at
    least the length as long as no element was added while the queue held
    [2 ^ 30] elements; and whenever the shrink check reallocates, the new
    capacity is the quarter of the old one, is at least [min_capacity],
    and the length is at most half of it. *)
Theorem capacity_invariant ops :
  let rb := fst (Run.run Run.step ops RB.reset) in
  (exists k, 4 <= k <= 30 /\ RB.capacity rb = 2 ^ k) /\
  (Run.fits ops RB.reset = true -> RB.length rb <= RB.capacity rb) /\
  (RB.shrinks rb = true ->
     let rb' := RB._check_shrink rb in
     RB.capacity rb' = RB.shrink_candidate rb /\
     (exists k, 4 <= k <= 30 /\ RB.capacity rb' = 2 ^ k) /\
     RB.min_capacity rb' <= RB.capacity rb' /\
     RB.length rb' <= RB.capacity rb' / 2).
Proof.
  intros rb. pose proof (run_wf ops _ wf_reset) as Hwf. fold rb in Hwf.
  split; [apply Hwf|]. split.
  - intros Hfit. apply run_fits; [apply wf_reset| |done].
    change (RB.capacity RB.reset) with 16. cbn [RB.length RB.reset]. lia.
  - intros Hs rb'. destruct (_check_shrink_spec rb Hwf) as (Hw' & _ & _ & _ & Hsh).
    destruct (Hsh Hs) as (Hc & Hm & Hl). fold rb' in Hw', Hc, Hm, Hl.
    split_and!; try done. apply Hw'.
Qed.

Lemma capacity_invariant_witness :
  Run.fits fill_and_drain RB.reset = true /\
  RB.shrinks (fst (Run.run Run.step fill_and_drain RB.reset)) = true /\
  RB.length (fst (Run.run Run.step fill_and_drain RB.reset))
    <= RB.capacity (fst (Run.run Run.step fill_and_drain RB.reset)) /\
  RB.min_capacity (RB._check_shrink (fst (Run.run Run.step fill_and_drain RB.reset)))
    <= RB.capacity (RB._check_shrink (fst (Run.run Run.step fill_and_drain RB.reset))) /\
  RB.length (RB._check_shrink (fst (Run.run Run.step fill_and_drain RB.reset)))
    <= RB.capacity (RB._check_shrink (fst (Run.run Run.step fill_and_drain RB.reset))) / 2.
Proof.
  set (rb := fst (Run.run Run.step fill_and_drain RB.reset)).
  assert (Hfit : Run.fits fill_and_drain RB.reset = true) by (vm_compute; reflexivity).
  assert (Hs : RB.shrinks rb = true) by (vm_compute; reflexivity).
  pose proof (capacity_invariant fill_and_drain) as (_ & Hle & Hsh).
  destruct (Hsh Hs) as (_ & _ & Hm & Hl).
  split; [exact Hfit|]. split; [exact Hs|]. split; [exact (Hle Hfit)|].
  split; [exact Hm|exact Hl].
Defined.

(** Claim C4 as stated fails: one push more than [2 ^ 30] leaves a store
    of [2 ^ 30] slots with a length of [2 ^ 30 + 1]. *)
Lemma capacity_below_length_past_limit :
  RB.capacity (fst (Run.run Run.step (past_limit 0) RB.reset)) = 2 ^ 30 /\
  RB.length (fst (Run.run Run.step (past_limit 0) RB.reset)) = 2 ^ 30 + 1 /\
  ~ RB.length (fst (Run.run Run.step (past_limit 0) RB.reset))
      <= RB.capacity (fst (Run.run Run.step (past_limit 0) RB.reset)).
Proof.
  unfold past_limit. set (n := Z.to_nat (2 ^ 30)).
  assert (Hn : Z.of_nat n = 2 ^ 30) by (apply Z2Nat.id; lia).
  clearbody n.
  destruct (overflow_state n 0 Hn) as (Hc & Hl & _).
  split; [done|]. split; [done|]. lia.
Qed.

(** Claim C5.  In every non-empty state reached from a new ring buffer,
    [pop] and [shift] return a value, the slot that held the removed
    element (the last, respectively first, slot of the store the removal
    works on) holds [empty_value] afterwards, and so does every slot
    outside the window of the remaining elements. *)
Theorem removal_vacates_slot ops :
  let rb := fst (Run.run Run.step ops RB.reset) in
  0 < RB.length rb ->
  let rb0 := RB._check_shrink rb in
  (exists z, snd (RB.pop rb) = Num z /\
     aget (RB.array rb0) (last_slot rb0) = Num z /\
     aget (RB.array (fst (RB.pop rb))) (last_slot rb0) = RB.empty_value (fst (RB.pop rb))) /\
  (exists z, snd (RB.shift rb) = Num z /\
     aget (RB.array rb0) (first_slot rb0) = Num z /\
     aget (RB.array (fst (RB.shift rb))) (first_slot rb0) = RB.empty_value (fst (RB.shift rb))) /\
  (forall rb', rb' = fst (RB.pop rb) \/ rb' = fst (RB.shift rb) ->
     forall i, vacant rb' i -> aget (RB.array rb') i = RB.empty_value rb').
Proof.
  intros rb Hpos rb0. pose proof (run_wf ops _ wf_reset) as Hwf. fold rb in Hwf.
  destruct (pop_spec rb Hwf Hpos) as (Hwp & Hlp & Hcp & Hep & Hrp & Hzp & _).
  destruct (shift_spec rb Hwf Hpos) as (Hws & Hls & Hcs & Hbs & Hrs & Hzs & _).
  fold rb0 in Hcp, Hrp, Hcs, Hbs, Hrs, Hzs.
  destruct (_check_shrink_spec rb Hwf) as (Hw0 & Hl0 & _). fold rb0 in Hw0, Hl0.
  assert (Hlast : RB.end_ (fst (RB.pop rb)) = last_slot rb0).
  { rewrite (wf_end _ Hwp), Hlp, Hcp. unfold last_slot. rewrite Hl0. unfold RB.pop.
    destruct (Z.eqb_spec (RB.length rb) 0); [lia|]. done. }
  rewrite Hlast in *. split_and!.
  - destruct (slot_is_Some (RB.array rb0) (last_slot rb0)) as [z Hz].
    { fold (RB.capacity rb0). rewrite <- Hcp. done. }
    exists z. rewrite Hrp. split_and!; try by apply aget_slot.
    rewrite (wf_empty_value _ Hwp). by apply aget_slot.
  - pose proof (wf_begin _ Hw0) as Hb0. unfold first_slot.
    destruct (slot_is_Some (RB.array rb0) (RB.begin rb0)) as [z Hz]; [done|].
    exists z. rewrite Hrs. split_and!; try by apply aget_slot.
    rewrite (wf_empty_value _ Hws). by apply aget_slot.
  - intros rb' [-> | ->] i [Hi Hv].
    + rewrite (wf_empty_value _ Hwp). apply aget_slot. by apply (wf_vacated _ Hwp).
    + rewrite (wf_empty_value _ Hws). apply aget_slot. by apply (wf_vacated _ Hws).
Qed.

Lemma removal_vacates_slot_witness :
  0 < RB.length (fst (Run.run Run.step short_run RB.reset)) /\
  snd (RB.pop (fst (Run.run Run.step short_run RB.reset))) = Num (-3) /\
  aget (RB.array (fst (RB.pop (fst (Run.run Run.step short_run RB.reset)))))
       (last_slot (RB._check_shrink (fst (Run.run Run.step short_run RB.reset)))) = Num 0 /\
  snd (RB.shift (fst (Run.run Run.step short_run RB.reset))) = Num (-3) /\
  aget (RB.array (fst (RB.shift (fst (Run.run Run.step short_run RB.reset)))))
       (first_slot (RB._check_shrink (fst (Run.run Run.step short_run RB.reset)))) = Num 0.
Proof.
  set (rb := fst (Run.run Run.step short_run RB.reset)).
  assert (Hpos : 0 < RB.length rb) by (vm_compute; reflexivity).
  pose proof (removal_vacates_slot short_run Hpos) as ((z & Hz & _ & Hp) & (y & Hy & _ & Hs) & _).
  split; [exact Hpos|]. split; [reflexivity|]. split; [exact Hp|].
  split; [reflexivity|exact Hs].
Defined.

(** Claim C8.  On a ring buffer whose length is [0], [pop] and [shift]
    return [undefined] and leave the whole state as it is. *)
Theorem remove_from_empty rb :
  RB.length rb = 0 ->
  RB.pop rb = (rb, Undefined) /\ RB.shift rb = (rb, Undefined).
Proof. intros H. unfold RB.pop, RB.shift. rewrite H. done. Qed.

Lemma remove_from_empty_witness :
  RB.length RB.reset = 0 /\
  RB.pop RB.reset = (RB.reset, Undefined) /\ RB.shift RB.reset = (RB.reset, Undefined).
Proof. split; [reflexivity|]. apply (remove_from_empty RB.reset). reflexivity. Defined.

End RingBufferClaims.

(** ** Bits of the registers *)

Section Bits.
Import JS.

Lemma bit_or_spec a b i :
  0 <= i < 32 -> Z.testbit (bit_or a b) i = Z.testbit a i || Z.testbit b i.
Proof. intros Hi. unfold bit_or. by rewrite Z.lor_spec, !testbit_to_int32. Qed.

Lemma bit_and_spec a b i :
  0 <= i < 32 -> Z.testbit (bit_and a b) i = Z.testbit a i && Z.testbit b i.
Proof. intros Hi. unfold bit_and. by rewrite Z.land_spec, !testbit_to_int32. Qed.

Lemma bit_not_spec a i :
  0 <= i < 32 -> Z.testbit (bit_not a) i = negb (Z.testbit a i).
Proof. intros Hi. unfold bit_not. rewrite Z.lnot_spec by lia. by rewrite testbit_to_int32. Qed.

(** [1 << line] has the single bit [line mod 32] among the low 32. *)
Lemma shl_one_spec line i :
  0 <= i < 32 -> Z.testbit (shl 1 line) i = (i =? line mod 32).
Proof.
  intros Hi. unfold shl. rewrite testbit_to_int32 by done.
  change (to_int32 1) with 1. rewrite Z.shiftl_1_l.
  pose proof (Z.mod_pos_bound line 32 ltac:(lia)).
  rewrite Z.pow2_bits_eqb by lia. apply Z.eqb_sym.
Qed.

(** Testing a register against a one-bit mask is testing that bit. *)
Lemma truthy_mask a k :
  0 <= k < 31 -> truthy (bit_and a (2 ^ k)) = Z.testbit a k.
Proof.
  intros Hk. unfold truthy.
  assert (Hbits : forall i, 0 <= i < 32 -> Z.testbit (bit_and a (2 ^ k)) i = Z.testbit a k && (i =? k)).
  { intros i Hi. rewrite bit_and_spec, Z.pow2_bits_eqb by lia.
    rewrite (Z.eqb_sym k i). destruct (Z.eqb_spec i k) as [->|]; [done|]. by rewrite !andb_false_r. }
  destruct (Z.testbit a k) eqn:Hb.
  - destruct (Z.eqb_spec (bit_and a (2 ^ k)) 0) as [E|]; [|done].
    specialize (Hbits k ltac:(lia)). rewrite E, Z.eqb_refl, Z.bits_0 in Hbits. done.
  - destruct (Z.eqb_spec (bit_and a (2 ^ k)) 0) as [|N]; [done|]. exfalso. apply N.
    unfold bit_and. apply Z.bits_inj'. intros i Hi. rewrite Z.bits_0, Z.land_spec.
    rewrite (to_int32_id (2 ^ k)).
    + rewrite Z.pow2_bits_eqb by lia. destruct (Z.eqb_spec k i) as [<-|]; [|by rewrite andb_false_r].
      rewrite testbit_to_int32 by lia. by rewrite Hb.
    + unfold is_int32. split; [lia|]. apply Z.pow_lt_mono_r; lia.
Qed.

Lemma bit_and_0xFF x : bit_and x 0xFF = x mod 256.
Proof.
  unfold bit_and. change (to_int32 255) with (Z.ones 8).
  rewrite Z.land_ones by lia. change 256 with (2 ^ 8).
  apply Z.bits_inj'. intros i Hi. destruct (Z.lt_ge_cases i 8).
  - rewrite !Z.mod_pow2_bits_low by lia. apply testbit_to_int32. lia.
  - rewrite !Z.mod_pow2_bits_high by lia. done.
Qed.

End Bits.

Ltac uart_fields :=
  cbn [U.LCR U.LSR U.MSR U.IIR U.ints U.IER U.DLL U.DLH U.FCR U.MCR U.input
       U.fifo U.calls U.set_LCR U.set_LSR U.set_IIR U.set_ints U.set_IER
       U.set_DLL U.set_DLH U.set_FCR U.set_MCR U.set_input U.set_fifo
       U.do_call fst snd] in *.

Section Flags.
Import JS.

Lemma flag_bit reg k : 0 <= k < 31 -> flag reg (2 ^ k) = Z.testbit reg k.
Proof. apply truthy_mask. Qed.

Lemma pending_bit cause s :
  0 <= cause < 31 -> pending cause s = Z.testbit (U.ints s) cause.
Proof.
  intros Hc. unfold pending, flag.
  assert (E : shl 1 cause = 2 ^ cause).
  { unfold shl. change (to_int32 1) with 1. rewrite Z.mod_small, Z.shiftl_1_l by lia.
    apply to_int32_id. unfold is_int32. split; [lia|]. apply Z.pow_lt_mono_r; lia. }
  rewrite E. by apply truthy_mask.
Qed.

(** Setting, clearing and keeping a flag. *)
Lemma flag_set reg k : 0 <= k < 31 -> flag (bit_or reg (2 ^ k)) (2 ^ k) = true.
Proof.
  intros Hk. rewrite flag_bit, bit_or_spec, Z.pow2_bits_eqb, Z.eqb_refl by lia.
  apply orb_true_r.
Qed.

Lemma flag_clear reg k : 0 <= k < 31 -> flag (bit_and reg (bit_not (2 ^ k))) (2 ^ k) = false.
Proof.
  intros Hk. rewrite flag_bit, bit_and_spec, bit_not_spec, Z.pow2_bits_eqb, Z.eqb_refl by lia.
  apply andb_false_r.
Qed.

Lemma flag_set_other reg k j :
  0 <= k < 31 -> 0 <= j < 31 -> j <> k ->
  flag (bit_or reg (2 ^ k)) (2 ^ j) = flag reg (2 ^ j).
Proof.
  intros Hk Hj Hne. rewrite !flag_bit, bit_or_spec, Z.pow2_bits_eqb by lia.
  destruct (Z.eqb_spec k j); [lia|]. apply orb_false_r.
Qed.

End Flags.

Section Interrupts.
Import JS.

(** [ClearInterrupt] compares [line] with [IIR] after it has stored
    [UART_IIR_NO_INT] there. *)
Lemma ClearInterrupt_unfold line s :
  let s1 := U.set_IIR U.UART_IIR_NO_INT
              (U.set_ints (bit_and (U.ints s) (bit_not (shl 1 line))) s) in
  U.ClearInterrupt line s =
    if line =? U.UART_IIR_NO_INT then U.NextInterrupt s1 else s1.
Proof.
  intros s1. unfold U.ClearInterrupt. fold s1.
  change (U.IIR s1) with U.UART_IIR_NO_INT.
  by destruct (line =? U.UART_IIR_NO_INT).
Qed.

(** [NextInterrupt] always ends in exactly one call on [intdev], when it is
    entered with [IIR] at [UART_IIR_NO_INT]. *)
Lemma NextInterrupt_calls s :
  U.IIR s = U.UART_IIR_NO_INT ->
  exists c, U.calls (U.NextInterrupt s) = U.calls s ++ [c] /\
    (c = U.intdev_RaiseInterrupt 2 \/ c = U.intdev_ClearInterrupt 2).
Proof.
  intros HI. unfold U.NextInterrupt, U.ThrowCTI, U.ThrowTHRI.
  destruct (truthy (bit_and (U.ints s) (shl 1 U.UART_IIR_CTI))
            && truthy (bit_and (U.IER s) U.UART_IER_RDI)) eqn:E1.
  - apply andb_true_iff in E1 as [_ E1]. uart_fields. rewrite E1, HI. cbn. eauto.
  - destruct (truthy (bit_and (U.ints s) (shl 1 U.UART_IIR_THRI))
              && truthy (bit_and (U.IER s) U.UART_IER_THRI)) eqn:E2.
    + apply andb_true_iff in E2 as [_ E2]. uart_fields. rewrite E2, HI. cbn. eauto.
    + cbn. eauto.
Qed.

(** Acknowledging a cause other than [UART_IIR_NO_INT]. *)
Lemma ClearInterrupt_cause line s :
  0 <= line < 31 -> line <> U.UART_IIR_NO_INT ->
  let s' := U.ClearInterrupt line s in
  s' = U.set_IIR U.UART_IIR_NO_INT
         (U.set_ints (bit_and (U.ints s) (bit_not (shl 1 line))) s) /\
  pending line s' = false /\
  (forall c, 0 <= c < 31 -> c <> line -> pending c s' = pending c s).
Proof.
  intros Hl Hne s'. subst s'. rewrite ClearInterrupt_unfold.
  destruct (Z.eqb_spec line U.UART_IIR_NO_INT); [done|].
  split; [done|]. split.
  - rewrite pending_bit by done. uart_fields.
    rewrite bit_and_spec, bit_not_spec, shl_one_spec, Z.mod_small, Z.eqb_refl by lia.
    apply andb_false_r.
  - intros c Hc Hcl. rewrite !pending_bit by done. uart_fields.
    rewrite bit_and_spec, bit_not_spec, shl_one_spec, Z.mod_small by lia.
    destruct (Z.eqb_spec c line); [lia|]. apply andb_true_r.
Qed.

End Interrupts.

(** ** The signal paths *)

Section Signals.
Import JS.

Lemma ThrowCTI_spec s :
  let s' := U.ThrowCTI s in
  pending U.UART_IIR_CTI s' = true /\
  (forall c, 0 <= c < 31 -> c <> U.UART_IIR_CTI -> pending c s' = pending c s) /\
  U.LSR s' = U.LSR s /\ U.IER s' = U.IER s /\ U.fifo s' = U.fifo s /\
  (flag (U.IER s) U.UART_IER_RDI = false ->
     U.IIR s' = U.IIR s /\ U.calls s' = U.calls s) /\
  (flag (U.IER s) U.UART_IER_RDI = true ->
     U.IIR s <> U.UART_IIR_RLSI -> U.IIR s <> U.UART_IIR_RDI ->
     U.IIR s' = U.UART_IIR_CTI /\
     U.calls s' = U.calls s ++ [U.intdev_RaiseInterrupt 2]).
Proof.
  intros s'. subst s'. unfold U.ThrowCTI, flag. uart_fields.
  assert (Hp : forall t, U.ints t = bit_or (U.ints s) (shl 1 U.UART_IIR_CTI) ->
             pending U.UART_IIR_CTI t = true /\
             (forall c, 0 <= c < 31 -> c <> U.UART_IIR_CTI -> pending c t = pending c s)).
  { intros t Ht. unfold U.UART_IIR_CTI in *. split.
    - rewrite pending_bit, Ht, bit_or_spec, shl_one_spec by lia.
      apply orb_true_r.
    - intros c Hc Hne. rewrite !pending_bit, Ht, bit_or_spec, shl_one_spec by lia.
      change (12 mod 32) with 12. destruct (Z.eqb_spec c 12); [lia|]. apply orb_false_r. }
  destruct (truthy (bit_and (U.IER s) U.UART_IER_RDI)) eqn:E; cbn [negb].
  - destruct (Z.eqb_spec (U.IIR s) U.UART_IIR_RLSI), (Z.eqb_spec (U.IIR s) U.UART_IIR_RDI);
      cbn [negb andb]; uart_fields; (destruct (Hp _ eq_refl) as [Hp1 Hp2] || idtac);
      split_and!; try done.
    all: try (apply Hp; done). all: try (intros c; apply Hp; done).
  - split_and!; try done. all: try (apply Hp; done). all: try (intros c; apply Hp; done).
Qed.

Lemma ThrowTHRI_spec s :
  let s' := U.ThrowTHRI s in
  pending U.UART_IIR_THRI s' = true /\
  U.LSR s' = U.LSR s /\ U.IER s' = U.IER s /\ U.fifo s' = U.fifo s /\
  (flag (U.IER s) U.UART_IER_THRI
   && (flag (U.IIR s) U.UART_IIR_NO_INT
       || (U.IIR s =? U.UART_IIR_MSI) || (U.IIR s =? U.UART_IIR_THRI)) = true ->
     U.IIR s' = U.UART_IIR_THRI /\
     U.calls s' = U.calls s ++ [U.intdev_RaiseInterrupt 2]) /\
  (flag (U.IER s) U.UART_IER_THRI
   && (flag (U.IIR s) U.UART_IIR_NO_INT
       || (U.IIR s =? U.UART_IIR_MSI) || (U.IIR s =? U.UART_IIR_THRI)) = false ->
     U.IIR s' = U.IIR s /\ U.calls s' = U.calls s).
Proof.
  intros s'. subst s'. unfold U.ThrowTHRI, flag. uart_fields.
  assert (Hp : forall t, U.ints t = bit_or (U.ints s) (shl 1 U.UART_IIR_THRI) ->
             pending U.UART_IIR_THRI t = true).
  { intros t Ht. unfold U.UART_IIR_THRI in *.
    rewrite pending_bit, Ht, bit_or_spec, shl_one_spec by lia. apply orb_true_r. }
  destruct (truthy (bit_and (U.IER s) U.UART_IER_THRI)); cbn [negb andb].
  - destruct (truthy (bit_and (U.IIR s) U.UART_IIR_NO_INT) || (U.IIR s =? U.UART_IIR_MSI)
              || (U.IIR s =? U.UART_IIR_THRI)); uart_fields; split_and!; try done.
    all: by apply Hp.
  - split_and!; try done. by apply Hp.
Qed.

End Signals.

Section Lengths.

(** The length field through the operations, in any state. *)
Lemma length__realloc size q : RB.length (RB._realloc size q) = RB.length q.
Proof.
  unfold RB._realloc. destruct (_ >? _); [done|].
  destruct (RB.copy_loop _ _ _) as [[a1 i1] j1].
  by destruct (RB.copy_loop _ _ _) as [[a2 i2] j2].
Qed.

Lemma length__check_grow q : RB.length (RB._check_grow q) = RB.length q.
Proof. unfold RB._check_grow. destruct (_ =? _); [apply length__realloc|done]. Qed.

Lemma length__check_shrink q : RB.length (RB._check_shrink q) = RB.length q.
Proof.
  unfold RB._check_shrink. destruct (RB.shrinks q); [|done]. by rewrite length__realloc.
Qed.

Lemma length_push x q : RB.length (fst (RB.push x q)) = RB.length q + 1.
Proof. unfold RB.push. cbn [fst RB.length]. by rewrite length__check_grow. Qed.

Lemma length_shift q :
  RB.length q <> 0 -> RB.length (fst (RB.shift q)) = RB.length q - 1.
Proof.
  intros H. unfold RB.shift. destruct (Z.eqb_spec (RB.length q) 0); [done|].
  cbn [fst RB.length]. by rewrite length__check_shrink.
Qed.

End Lengths.

Section Registers.
Import JS.

Lemma put_chars_app l1 l2 : put_chars (l1 ++ l2) = put_chars l1 ++ put_chars l2.
Proof.
  induction l1 as [|c l1 IH]; [done|]. destruct c; cbn [app put_chars]; by rewrite ?IH.
Qed.

(** The two acknowledgements at the head of a read of the receive buffer. *)
Lemma acknowledge_receive s :
  let ack := U.ClearInterrupt U.UART_IIR_CTI
               (U.ClearInterrupt U.UART_IIR_RDI (U.set_input 0 s)) in
  pending U.UART_IIR_RDI ack = false /\ pending U.UART_IIR_CTI ack = false /\
  U.IIR ack = U.UART_IIR_NO_INT /\ U.calls ack = U.calls s /\
  U.fifo ack = U.fifo s /\ U.LSR ack = U.LSR s /\ U.IER ack = U.IER s.
Proof.
  intros ack. subst ack.
  destruct (ClearInterrupt_cause U.UART_IIR_RDI (U.set_input 0 s)) as (E1 & P1 & _);
    [unfold U.UART_IIR_RDI; lia|done|].
  set (s1 := U.ClearInterrupt U.UART_IIR_RDI (U.set_input 0 s)) in *.
  destruct (ClearInterrupt_cause U.UART_IIR_CTI s1) as (E2 & P2 & O2);
    [unfold U.UART_IIR_CTI; lia|done|].
  set (s2 := U.ClearInterrupt U.UART_IIR_CTI s1) in *.
  split; [rewrite O2; [done|unfold U.UART_IIR_RDI; lia|done]|].
  split; [done|]. rewrite E2, E1. by uart_fields.
Qed.

End Registers.

(** ** The values of [IIR] *)

Section Reported.
Import JS.

Lemma ThrowCTI_reported s : reported (U.IIR s) -> reported (U.IIR (U.ThrowCTI s)).
Proof.
  intros H. unfold U.ThrowCTI.
  destruct (negb _); [done|]. destruct (_ && _); [|done]. right. by right.
Qed.

Lemma ThrowTHRI_reported s : reported (U.IIR s) -> reported (U.IIR (U.ThrowTHRI s)).
Proof.
  intros H. unfold U.ThrowTHRI.
  destruct (negb _); [done|]. destruct (_ || _); [|done]. right. by left.
Qed.

Lemma NextInterrupt_reported s : reported (U.IIR s) -> reported (U.IIR (U.NextInterrupt s)).
Proof.
  intros H. unfold U.NextInterrupt.
  destruct (_ && _); [by apply ThrowCTI_reported|].
  destruct (_ && _); [by apply ThrowTHRI_reported|]. by left.
Qed.

Lemma ClearInterrupt_reported line s : reported (U.IIR (U.ClearInterrupt line s)).
Proof.
  rewrite ClearInterrupt_unfold. cbn zeta.
  destruct (_ =? _); [apply NextInterrupt_reported|]; by left.
Qed.

Lemma ReadReg8_reported addr s :
  reported (U.IIR s) -> reported (U.IIR (fst (U.ReadReg8 addr s))).
Proof.
  intros H.
  assert (Hrbr : reported (U.IIR (fst (U.ReadReg8_rbr s)))).
  { unfold U.ReadReg8_rbr.
    pose proof (ClearInterrupt_reported U.UART_IIR_CTI
                  (U.ClearInterrupt U.UART_IIR_RDI (U.set_input 0 s))) as Hack.
    set (ack := U.ClearInterrupt U.UART_IIR_CTI _) in *.
    destruct (_ >=? 1).
    - destruct (RB.shift (U.fifo ack)) as [q r].
      destruct (_ >? 1); cbn [fst]; [|done]. by apply ThrowCTI_reported.
    - destruct (_ >? 1); cbn [fst]; [|done]. by apply ThrowCTI_reported. }
  assert (Hiir : reported (U.IIR (fst (U.ReadReg8_iir s)))).
  { unfold U.ReadReg8_iir. cbn [fst]. destruct (_ =? _); [apply ClearInterrupt_reported|done]. }
  assert (Hsw : reported (U.IIR (fst (U.ReadReg8_switch addr s)))).
  { unfold U.ReadReg8_switch.
    destruct addr as [|p|p]; [done| |done].
    do 3 (try destruct p as [p|p|]); done. }
  unfold U.ReadReg8. destruct (truthy _); [|done].
  destruct addr as [|p|p]; [done| |done].
  do 3 (try destruct p as [p|p|]); done.
Qed.

Lemma WriteReg8_reported addr x s :
  reported (U.IIR s) -> reported (U.IIR (fst (U.WriteReg8 addr x s))).
Proof.
  intros H.
  assert (Hsw : forall y, reported (U.IIR (fst (U.WriteReg8_switch addr y s)))).
  { intros y. unfold U.WriteReg8_switch.
    destruct addr as [|p|p]; [by apply ThrowTHRI_reported| |done].
    do 3 (try destruct p as [p|p|]); try done.
    - cbn [fst]. by destruct (truthy _).
    - by apply NextInterrupt_reported. }
  unfold U.WriteReg8. destruct (truthy _); [|done].
  destruct addr as [|p|p]; [done| |done].
  do 3 (try destruct p as [p|p|]); done.
Qed.

Lemma uart_step_reported o s : reported (U.IIR s) -> reported (U.IIR (uart_step o s)).
Proof.
  intros H. destruct o; cbn [uart_step].
  - unfold U.ReceiveChar. by apply ThrowCTI_reported.
  - by apply ReadReg8_reported.
  - by apply WriteReg8_reported.
  - by left.
  - by apply ThrowCTI_reported.
  - by apply ThrowTHRI_reported.
  - by apply NextInterrupt_reported.
  - apply ClearInterrupt_reported.
Qed.

(** Claim C10.  In every state reached from a new UART by any sequence of
    [ReceiveChar], [ReadReg8], [WriteReg8], [Reset], [ThrowCTI],
    [ThrowTHRI], [NextInterrupt] and [ClearInterrupt], [IIR] holds
    [UART_IIR_NO_INT], [UART_IIR_THRI] or [UART_IIR_CTI]; it never holds the
    receiver-line-status, receive-data or modem-status code. *)
Theorem IIR_reports_three_values ops :
  let s := uart_run ops U.new in
  (U.IIR s = U.UART_IIR_NO_INT \/ U.IIR s = U.UART_IIR_THRI \/ U.IIR s = U.UART_IIR_CTI) /\
  U.IIR s <> U.UART_IIR_RLSI /\ U.IIR s <> U.UART_IIR_RDI /\ U.IIR s <> U.UART_IIR_MSI.
Proof.
  intros s.
  assert (H : reported (U.IIR s)).
  { subst s. unfold uart_run. generalize U.new (or_introl eq_refl : reported (U.IIR U.new)).
    induction ops as [|o ops IH]; intros s0 H0; cbn [fold_left]; [done|].
    apply IH. by apply uart_step_reported. }
  split; [done|]. destruct H as [-> | [-> | ->]]; split_and!; done.
Qed.

End Reported.

(** ** The UART against its specification *)

Section UARTClaims.
Import JS.

(** Claim C1, at the input where the code departs from it.  In the state
    [thri_reported], [IIR] holds [UART_IIR_THRI].  Acknowledging that very
    cause clears it from [ints] and sets [IIR] to [UART_IIR_NO_INT], but
    makes no call on [intdev]: [NextInterrupt] is not invoked, although
    the cause equals the value [IIR] held, and invoking it would have
    called [intdev.ClearInterrupt].  Acknowledging [UART_IIR_NO_INT], which
    is not the value [IIR] held, does invoke [NextInterrupt]: the line is
    compared with [IIR] after [UART_IIR_NO_INT] has been stored there. *)
Theorem ClearInterrupt_skips_resolution :
  U.IIR thri_reported = U.UART_IIR_THRI /\
  (let s' := U.ClearInterrupt U.UART_IIR_THRI thri_reported in
   pending U.UART_IIR_THRI s' = false /\
   U.IIR s' = U.UART_IIR_NO_INT /\
   U.calls s' = U.calls thri_reported /\
   U.calls (U.NextInterrupt s') = U.calls thri_reported ++ [U.intdev_ClearInterrupt 2]) /\
  U.calls (U.ClearInterrupt U.UART_IIR_NO_INT thri_reported)
    = U.calls thri_reported ++ [U.intdev_RaiseInterrupt 2].
Proof. vm_compute. split_and!; reflexivity. Qed.

(** Claim C6.  When [IIR] reports the transmit interrupt, reading address 2
    returns the low four bits of [IIR] with the two top bits set, that is
    [0xC2], and acknowledges the transmit cause: it is no longer pending,
    the other causes are as they were, [IIR] holds [UART_IIR_NO_INT] and
    no call is made.  A following [NextInterrupt] then keeps [IIR] at
    [UART_IIR_NO_INT] and calls [intdev.ClearInterrupt], unless the
    character timeout is pending and enabled. *)
Theorem ReadReg8_IIR_acknowledges_THRI s :
  U.IIR s = U.UART_IIR_THRI ->
  let s' := fst (U.ReadReg8 U.UART_IIR s) in
  snd (U.ReadReg8 U.UART_IIR s)
    = U.Return (Num (bit_or (bit_and (U.IIR s) 0x0f) 0xC0)) /\
  bit_or (bit_and (U.IIR s) 0x0f) 0xC0 = 0xC2 /\
  pending U.UART_IIR_THRI s' = false /\
  (forall c, 0 <= c < 31 -> c <> U.UART_IIR_THRI -> pending c s' = pending c s) /\
  U.IER s' = U.IER s /\
  U.IIR s' = U.UART_IIR_NO_INT /\ U.calls s' = U.calls s /\
  (pending U.UART_IIR_CTI s' && flag (U.IER s') U.UART_IER_RDI = false ->
     U.IIR (U.NextInterrupt s') = U.UART_IIR_NO_INT /\
     U.calls (U.NextInterrupt s') = U.calls s' ++ [U.intdev_ClearInterrupt 2]).
Proof.
  intros HI s'.
  assert (Hread : U.ReadReg8 U.UART_IIR s = U.ReadReg8_iir s).
  { unfold U.ReadReg8. by destruct (truthy _). }
  subst s'. rewrite Hread. clear Hread. unfold U.ReadReg8_iir.
  rewrite HI. cbn [Z.eqb Pos.eqb U.UART_IIR_THRI fst snd].
  destruct (ClearInterrupt_cause U.UART_IIR_THRI s) as (E & Pc & Po);
    [unfold U.UART_IIR_THRI; lia|done|].
  fold U.UART_IIR_THRI.
  set (s' := U.ClearInterrupt U.UART_IIR_THRI s) in *.
  assert (HI' : U.IIR s' = U.UART_IIR_NO_INT) by (by rewrite E).
  assert (Hc' : U.calls s' = U.calls s) by (by rewrite E).
  assert (He' : U.IER s' = U.IER s) by (by rewrite E).
  split_and!; try done.
  intros Hno. unfold U.NextInterrupt.
  unfold pending, flag in Hno, Pc. rewrite Hno, Pc. cbn [andb]. by uart_fields.
Qed.


Lemma ReadReg8_IIR_acknowledges_THRI_witness :
  U.IIR thri_reported = U.UART_IIR_THRI /\
  snd (U.ReadReg8 U.UART_IIR thri_reported) = U.Return (Num 0xC2) /\
  U.IIR (U.NextInterrupt (fst (U.ReadReg8 U.UART_IIR thri_reported))) = U.UART_IIR_NO_INT.
Proof.
  pose proof (ReadReg8_IIR_acknowledges_THRI thri_reported eq_refl)
    as (Hout & _ & _ & _ & _ & _ & _ & Hnext).
  destruct (Hnext eq_refl) as [Hiir _].
  split; [reflexivity|]. split; [exact Hout|exact Hiir].
Defined.

(** Claim C7.  With the divisor latch access bit clear, writing [B] to
    address 0 calls [odev.PutChar] exactly once, with [B] masked to eight
    bits; on return the FIFO-empty bit of [LSR] is set and the transmit
    cause has been signalled: it is pending, and when the transmit
    interrupt is enabled and [IIR] allows it, [IIR] reports it and
    [intdev.RaiseInterrupt] has been called after the byte was put. *)
Theorem WriteReg8_transmit s B :
  dlab s = false ->
  let s' := fst (U.WriteReg8 0 B s) in
  let raised :=
    flag (U.IER s) U.UART_IER_THRI
    && (flag (U.IIR s) U.UART_IIR_NO_INT
        || (U.IIR s =? U.UART_IIR_MSI) || (U.IIR s =? U.UART_IIR_THRI)) in
  snd (U.WriteReg8 0 B s) = U.Return Undefined /\
  put_chars (U.calls s') = put_chars (U.calls s) ++ [B mod 256] /\
  flag (U.LSR s') U.UART_LSR_FIFO_EMPTY = true /\
  pending U.UART_IIR_THRI s' = true /\
  (raised = true ->
     U.IIR s' = U.UART_IIR_THRI /\
     U.calls s' = U.calls s ++ [U.odev_PutChar (B mod 256); U.intdev_RaiseInterrupt 2]) /\
  (raised = false ->
     U.IIR s' = U.IIR s /\
     U.calls s' = U.calls s ++ [U.odev_PutChar (B mod 256)]).
Proof.
  intros Hd s' raised.
  assert (Hwrite : U.WriteReg8 0 B s = U.WriteReg8_switch 0 (B mod 256) s).
  { unfold U.WriteReg8. unfold dlab, flag in Hd. by rewrite Hd, bit_and_0xFF. }
  subst s'. rewrite Hwrite. clear Hwrite. cbn [U.WriteReg8_switch fst snd].
  set (m := U.set_LSR _ (U.do_call _ _)).
  destruct (ThrowTHRI_spec m) as (Pt & Hl & _ & _ & Hon & Hoff).
  assert (Hm : U.IER m = U.IER s /\ U.IIR m = U.IIR s /\
               U.calls m = U.calls s ++ [U.odev_PutChar (B mod 256)] /\
               U.LSR m = bit_or (bit_and (U.LSR s) (bit_not U.UART_LSR_FIFO_EMPTY)) U.UART_LSR_FIFO_EMPTY)
    by (by subst m).
  destruct Hm as (Hier & Hiir & Hcalls & Hlsr).
  rewrite Hier, Hiir, Hcalls in *. fold raised in Hon, Hoff.
  split; [done|]. split.
  - destruct raised.
    + destruct (Hon eq_refl) as [_ ->]. by rewrite <- app_assoc, !put_chars_app.
    + destruct (Hoff eq_refl) as [_ ->]. by rewrite put_chars_app.
  - split; [|split; [done|]].
    + rewrite Hl, Hlsr. change U.UART_LSR_FIFO_EMPTY with (2 ^ 5). by apply flag_set.
    + split.
      * intros Hr. destruct (Hon Hr) as [-> ->]. by rewrite <- app_assoc.
      * intros Hr. by destruct (Hoff Hr) as [-> ->].
Qed.


Lemma WriteReg8_transmit_witness :
  dlab U.new = false /\
  put_chars (U.calls (fst (U.WriteReg8 0 0x41 U.new))) = [0x41] /\
  flag (U.LSR (fst (U.WriteReg8 0 0x41 U.new))) U.UART_LSR_FIFO_EMPTY = true /\
  pending U.UART_IIR_THRI (fst (U.WriteReg8 0 0x41 U.new)) = true.
Proof.
  pose proof (WriteReg8_transmit U.new 0x41 eq_refl) as (_ & Hput & Hlsr & Hpend & _).
  split; [reflexivity|]. split; [exact Hput|]. split; [exact Hlsr|exact Hpend].
Defined.

End UARTClaims.

(** ** Occupancy and reallocation of the store *)

Section Occupancy.
Import JS.

Lemma valid_capacity_multiple c :
  valid_capacity c -> c = 4 * (c / 4) /\ c = 8 * (c / 4 / 2).
Proof.
  intros (k & Hk & ->).
  assert (E : 2 ^ k = 8 * 2 ^ (k - 3)).
  { replace k with (3 + (k - 3)) at 1 by lia. rewrite Z.pow_add_r by lia. done. }
  assert (E4 : 2 ^ k / 4 = 2 * 2 ^ (k - 3)).
  { rewrite E. replace (8 * 2 ^ (k - 3)) with (2 * 2 ^ (k - 3) * 4) by lia.
    apply Z.div_mul. lia. }
  rewrite E4. rewrite (Z.mul_comm 2), Z.div_mul by lia. lia.
Qed.

Lemma capacity_ignores_fields rb b e n sc mc ev :
  RB.capacity (RB.mk b e n sc mc (RB.array rb) ev) = RB.capacity rb.
Proof. done. Qed.

(** The store after the growth check: as it was, or doubled when it was
    full. *)
Lemma _check_grow_capacity rb :
  wf rb ->
  RB.capacity (RB._check_grow rb) =
    if (RB.length rb =? RB.capacity rb) && (RB.capacity rb <? 2 ^ 30)
    then 2 * RB.capacity rb else RB.capacity rb.
Proof.
  intros Hwf. pose proof (valid_capacity_bounds _ (wf_capacity _ Hwf)) as Hcb.
  destruct (Z.eqb_spec (RB.length rb) (RB.capacity rb)) as [Heq|Hne];
    [destruct (Z.ltb_spec (RB.capacity rb) (2 ^ 30)) as [Hlt|Hge]|]; cbn [andb].
  - unfold RB._check_grow. rewrite (proj2 (Z.eqb_eq _ _) Heq), shl_1 by lia.
    destruct (_realloc_ok (2 * RB.length rb) rb) as (_ & Hc & _); try done; try lia.
    rewrite Heq. apply valid_capacity_double; [apply Hwf|done].
  - rewrite _check_grow_full; [done|lia|lia].
  - unfold RB._check_grow. by rewrite (proj2 (Z.eqb_neq _ _) Hne).
Qed.

(** The store after the shrink check: as it was, or quartered. *)
Lemma _check_shrink_capacity rb :
  wf rb ->
  RB.capacity (RB._check_shrink rb) =
    if RB.shrinks rb then RB.capacity rb / 4 else RB.capacity rb.
Proof.
  intros Hwf. pose proof (valid_capacity_bounds _ (wf_capacity _ Hwf)) as Hcb.
  destruct (_check_shrink_spec rb Hwf) as (_ & _ & _ & _ & Hs).
  destruct (RB.shrinks rb) eqn:E.
  - destruct (Hs eq_refl) as (-> & _). unfold RB.shrink_candidate.
    rewrite sar_div by (unfold is_int32; lia). done.
  - unfold RB._check_shrink. by rewrite E.
Qed.

Lemma shrinks_iff rb :
  wf rb ->
  RB.shrinks rb = true <->
  RB.length rb <= RB.capacity rb / 4 / 2 /\ 128 <= RB.capacity rb / 4.
Proof.
  intros Hwf. pose proof (valid_capacity_bounds _ (wf_capacity _ Hwf)) as Hcb.
  unfold RB.shrinks, RB.shrink_candidate.
  rewrite (sar_div (RB.capacity rb) 2) by (unfold is_int32; lia).
  change (2 ^ 2) with 4.
  assert (0 <= RB.capacity rb / 4 <= RB.capacity rb).
  { split; [apply Z.div_pos; lia|apply Z.div_le_upper_bound; lia]. }
  rewrite sar_div by (unfold is_int32; lia). change (2 ^ 1) with 2.
  rewrite (wf_min_capacity _ Hwf), andb_true_iff, Z.leb_le, Z.geb_le. done.
Qed.

Lemma step_capacity o rb :
  wf rb ->
  RB.capacity (fst (Run.step o rb)) =
    match o with
    | Push _ | Unshift _ =>
        if (RB.length rb =? RB.capacity rb) && (RB.capacity rb <? 2 ^ 30)
        then 2 * RB.capacity rb else RB.capacity rb
    | Pop | Shift =>
        if negb (RB.length rb =? 0) && RB.shrinks rb
        then RB.capacity rb / 4 else RB.capacity rb
    | Get _ => RB.capacity rb
    end.
Proof.
  intros Hwf. pose proof (wf_length _ Hwf) as Hl0.
  destruct o as [v|v| | |i]; cbn [Run.step fst].
  - unfold RB.push. cbn [fst]. rewrite capacity_aset. fold (RB.capacity (RB._check_grow rb)).
    by apply _check_grow_capacity.
  - unfold RB.unshift. cbn [fst]. rewrite capacity_aset. fold (RB.capacity (RB._check_grow rb)).
    by apply _check_grow_capacity.
  - destruct (Z.eqb_spec (RB.length rb) 0) as [E|E]; cbn [negb andb].
    + unfold RB.pop. by rewrite E.
    + destruct (pop_spec rb Hwf) as (_ & _ & -> & _); [lia|]. by apply _check_shrink_capacity.
  - destruct (Z.eqb_spec (RB.length rb) 0) as [E|E]; cbn [negb andb].
    + unfold RB.shift. by rewrite E.
    + destruct (shift_spec rb Hwf) as (_ & _ & -> & _); [lia|]. by apply _check_shrink_capacity.
  - done.
Qed.

Lemma step_length o rb :
  wf rb ->
  RB.length (fst (Run.step o rb)) =
    match o with
    | Push _ | Unshift _ => RB.length rb + 1
    | Pop | Shift => if RB.length rb =? 0 then 0 else RB.length rb - 1
    | Get _ => RB.length rb
    end.
Proof.
  intros Hwf. pose proof (wf_length _ Hwf) as Hl0.
  destruct o as [v|v| | |i]; cbn [Run.step fst].
  - by destruct (push_spec v rb Hwf) as (_ & _ & -> & _).
  - by destruct (unshift_spec v rb Hwf) as (_ & _ & -> & _).
  - destruct (Z.eqb_spec (RB.length rb) 0) as [E|E].
    + unfold RB.pop. by rewrite E.
    + by destruct (pop_spec rb Hwf) as (_ & -> & _); [lia|].
  - destruct (Z.eqb_spec (RB.length rb) 0) as [E|E].
    + unfold RB.shift. by rewrite E.
    + by destruct (shift_spec rb Hwf) as (_ & -> & _); [lia|].
  - done.
Qed.

Lemma step_dense o rb : wf rb -> dense rb -> dense (fst (Run.step o rb)).
Proof.
  intros Hwf Hd. unfold dense in *.
  pose proof (valid_capacity_bounds _ (wf_capacity _ Hwf)) as Hcb.
  pose proof (wf_length _ Hwf) as Hl0.
  destruct (valid_capacity_multiple _ (wf_capacity _ Hwf)) as [H4 H8].
  pose proof (shrinks_iff rb Hwf) as Hs.
  rewrite step_capacity, step_length by done.
  destruct o as [v|v| | |i]; try done.
  - destruct (Z.eqb_spec (RB.length rb) (RB.capacity rb)), (Z.ltb_spec (RB.capacity rb) (2 ^ 30));
      cbn [andb]; lia.
  - destruct (Z.eqb_spec (RB.length rb) (RB.capacity rb)), (Z.ltb_spec (RB.capacity rb) (2 ^ 30));
      cbn [andb]; lia.
  - destruct (Z.eqb_spec (RB.length rb) 0); cbn [negb andb]; [lia|].
    destruct (RB.shrinks rb); [destruct Hs as [Hs _]; specialize (Hs eq_refl); lia|].
    intros Hbig. destruct (Z.le_gt_cases (RB.length rb) (RB.capacity rb / 4 / 2)) as [Hsmall|]; [|lia].
    destruct (Z.le_gt_cases 128 (RB.capacity rb / 4)) as [Hc128|]; [|lia].
    destruct Hs as [_ Hs2]. by specialize (Hs2 (conj Hsmall Hc128)).
  - destruct (Z.eqb_spec (RB.length rb) 0); cbn [negb andb]; [lia|].
    destruct (RB.shrinks rb); [destruct Hs as [Hs _]; specialize (Hs eq_refl); lia|].
    intros Hbig. destruct (Z.le_gt_cases (RB.length rb) (RB.capacity rb / 4 / 2)) as [Hsmall|]; [|lia].
    destruct (Z.le_gt_cases 128 (RB.capacity rb / 4)) as [Hc128|]; [|lia].
    destruct Hs as [_ Hs2]. by specialize (Hs2 (conj Hsmall Hc128)).
Qed.

Lemma run_dense ops : forall rb, wf rb -> dense rb -> dense (fst (Run.run Run.step ops rb)).
Proof.
  induction ops as [|o ops IH]; intros rb Hwf Hd; cbn [Run.run]; [done|].
  pose proof (step_wf o rb Hwf) as H1. pose proof (step_dense o rb Hwf Hd) as H2.
  destruct (Run.step o rb) as [rb1 r]. cbn [fst] in *.
  specialize (IH rb1 H1 H2). by destruct (Run.run Run.step ops rb1).
Qed.

End Occupancy.

Section RingBufferExtras.
Import JS.

(** Property X1.  In every state reached from a new ring buffer, and for
    every index from [0] up to [2 ^ 52] (where the sum the code forms is
    still exact), [get] is periodic in the capacity, and an index whose
    position falls outside the stored elements reads [0]: no removed
    value is read back. *)
Theorem get_unchecked ops i :
  let rb := fst (Run.run Run.step ops RB.reset) in
  0 <= i < 2 ^ 52 ->
  RB.get (i + RB.capacity rb) rb = RB.get i rb /\
  (RB.length rb <= i mod RB.capacity rb -> RB.get i rb = Num 0).
Proof.
  intros rb Hi. pose proof (run_wf ops _ wf_reset) as Hwf. fold rb in Hwf.
  pose proof (valid_capacity_bounds _ (wf_capacity _ Hwf)) as Hcb.
  pose proof (wf_begin _ Hwf) as Hb.
  rewrite !get_exact by lia. split.
  - f_equal. apply (mod_shift _ _ _ 1). lia.
  - intros Hpast. apply aget_slot. apply (wf_vacated _ Hwf).
    + apply Z.mod_pos_bound. lia.
    + rewrite Zminus_mod_idemp_l. by replace (RB.begin rb + i - RB.begin rb) with i by lia.
Qed.

Lemma get_unchecked_witness :
  0 <= 5 < 2 ^ 52 /\
  RB.get (5 + 16) (fst (Run.run Run.step short_run RB.reset))
    = RB.get 5 (fst (Run.run Run.step short_run RB.reset)) /\
  RB.get 5 (fst (Run.run Run.step short_run RB.reset)) = Num 0.
Proof.
  pose proof (get_unchecked short_run 5 ltac:(lia)) as [Hw Hz].
  split; [lia|]. split; [exact Hw|]. apply Hz. vm_compute. discriminate.
Defined.

(** Property X2.  In every state reached from a new ring buffer, a store
    of 512 slots or more holds at least an eighth of its capacity. *)
Theorem store_at_least_an_eighth_full ops :
  let rb := fst (Run.run Run.step ops RB.reset) in
  512 <= RB.capacity rb -> RB.capacity rb <= 8 * RB.length rb.
Proof.
  intros rb. apply run_dense; [apply wf_reset|].
  unfold dense. change (RB.capacity RB.reset) with 16. lia.
Qed.

Lemma store_at_least_an_eighth_full_witness :
  512 <= RB.capacity (fst (Run.run Run.step fill_and_drain RB.reset)) /\
  RB.capacity (fst (Run.run Run.step fill_and_drain RB.reset))
    <= 8 * RB.length (fst (Run.run Run.step fill_and_drain RB.reset)).
Proof.
  assert (H : 512 <= RB.capacity (fst (Run.run Run.step fill_and_drain RB.reset)))
    by (vm_compute; discriminate).
  split; [exact H|]. exact (store_at_least_an_eighth_full fill_and_drain H).
Defined.

(** Property X3.  From a reachable state, one operation doubles the store
    exactly when it adds to a full store of less than [2 ^ 30] slots,
    quarters it exactly when it removes from a store of 512 slots or more
    that is one eighth full, and keeps its capacity otherwise. *)
Theorem reallocation_points ops o :
  let rb := fst (Run.run Run.step ops RB.reset) in
  RB.capacity (fst (Run.step o rb)) =
    if Run.adds o && (RB.length rb =? RB.capacity rb) && (RB.capacity rb <? 2 ^ 30)
    then 2 * RB.capacity rb
    else if removes o && (512 <=? RB.capacity rb) && (8 * RB.length rb =? RB.capacity rb)
    then RB.capacity rb / 4
    else RB.capacity rb.
Proof.
  intros rb. pose proof (run_wf ops _ wf_reset) as Hwf. fold rb in Hwf.
  pose proof (run_dense ops _ wf_reset) as Hd. fold rb in Hd.
  assert (Hdense : dense rb).
  { apply Hd. unfold dense. change (RB.capacity RB.reset) with 16. lia. }
  clear Hd. unfold dense in Hdense.
  pose proof (valid_capacity_bounds _ (wf_capacity _ Hwf)) as Hcb.
  pose proof (wf_length _ Hwf) as Hl0.
  destruct (valid_capacity_multiple _ (wf_capacity _ Hwf)) as [H4 H8].
  pose proof (shrinks_iff rb Hwf) as Hs.
  rewrite step_capacity by done.
  assert (Hrem : negb (RB.length rb =? 0) && RB.shrinks rb
                 = (512 <=? RB.capacity rb) && (8 * RB.length rb =? RB.capacity rb)).
  { apply eq_true_iff_eq.
    rewrite !andb_true_iff, negb_true_iff, Z.leb_le, Z.eqb_eq, Z.eqb_neq, Hs. lia. }
  destruct o as [v|v| | |i]; cbn [Run.adds removes andb]; try done.
  - by rewrite Hrem.
  - by rewrite Hrem.
Qed.

(** Property X4.  In a non-empty state reached within the limit, [shift]
    returns what [get 0] reads and [pop] what [get (length - 1)] reads. *)
Theorem peek_agrees_with_removal ops :
  Run.fits ops RB.reset = true ->
  let rb := fst (Run.run Run.step ops RB.reset) in
  0 < RB.length rb ->
  snd (RB.shift rb) = RB.get 0 rb /\
  snd (RB.pop rb) = RB.get (RB.length rb - 1) rb.
Proof.
  intros Hfit rb Hpos. pose proof (run_wf ops _ wf_reset) as Hwf. fold rb in Hwf.
  assert (Hle : RB.length rb <= RB.capacity rb).
  { apply run_fits; [apply wf_reset| |done].
    change (RB.capacity RB.reset) with 16. cbn [RB.length RB.reset]. lia. }
  destruct (pop_spec rb Hwf Hpos) as (_ & _ & _ & _ & _ & _ & Hp).
  destruct (shift_spec rb Hwf Hpos) as (_ & _ & _ & _ & _ & _ & Hs).
  destruct (Hp Hle) as (_ & _ & z & -> & Hz). destruct (Hs Hle) as (_ & _ & y & -> & Hy).
  split; symmetry; apply get_element; try done; lia.
Qed.

Lemma peek_agrees_with_removal_witness :
  Run.fits short_run RB.reset = true /\
  0 < RB.length (fst (Run.run Run.step short_run RB.reset)) /\
  snd (RB.shift (fst (Run.run Run.step short_run RB.reset)))
    = RB.get 0 (fst (Run.run Run.step short_run RB.reset)).
Proof.
  assert (H : 0 < RB.length (fst (Run.run Run.step short_run RB.reset)))
    by (vm_compute; reflexivity).
  split; [reflexivity|]. split; [exact H|].
  exact (proj1 (peek_agrees_with_removal short_run eq_refl H)).
Defined.

End RingBufferExtras.

(** ** Rendering *)

Section JoinFacts.

Lemma append_assoc (a b c : string) :
  String.append (String.append a b) c = String.append a (String.append b c).
Proof. induction a as [|ch a IH]; cbn; [done|]. by rewrite IH. Qed.

Lemma join_for_spec sep rb d : 
  represents rb d ->
  forall rest fuel i acc,
    1 <= i -> i + Z.of_nat (List.length rest) = RB.length rb ->
    (forall k, 0 <= k < Z.of_nat (List.length rest) -> JS.slot d (i + k) = JS.slot rest k) ->
    (List.length rest <= fuel)%nat ->
    RJ.join_for fuel (RB.length rb) sep rb (i, acc) =
      fold_left (fun a y => RJ.plus_string a (String.append sep (RJ.NumberToString y))) rest acc.
Proof.
  intros (Hwf & Hlen & Hle & Hel).
  induction rest as [|y rest IH]; intros fuel i acc Hi Hn Hd Hf.
  - cbn [List.length] in Hn. destruct fuel; cbn [RJ.join_for fold_left snd]; [done|].
    destruct (Z.ltb_spec i (RB.length rb)); [lia|done].
  - cbn [List.length] in Hn, Hf, Hd. destruct fuel as [|fuel]; [lia|].
    cbn [RJ.join_for fold_left]. destruct (Z.ltb_spec i (RB.length rb)); [|lia].
    assert (Hg : RB.get i rb = JS.Num y).
    { apply get_element; [done|done|lia|]. rewrite Hel by lia.
      specialize (Hd 0 ltac:(lia)). rewrite Z.add_0_r in Hd. rewrite Hd. reflexivity. }
    rewrite Hg. cbn [RJ.of_slot RJ.ToString]. apply IH; try lia.
    intros k Hk. replace (i + 1 + k) with (i + (k + 1)) by lia.
    rewrite Hd by lia. apply slot_cons_succ. lia.
Qed.

Lemma fold_concat sep : forall rest s y,
  fold_left (fun a z => RJ.plus_string a (String.append sep (RJ.NumberToString z))) rest
    (RJ.Str (String.append s (String.append sep (RJ.NumberToString y))))
  = RJ.Str (String.append s (String.append sep
      (String.concat sep (map RJ.NumberToString (y :: rest))))).
Proof.
  induction rest as [|z rest IH]; intros s y; [done|].
  cbn [fold_left].
  etransitivity;
    [exact (IH (String.append s (String.append sep (RJ.NumberToString y))) z)|].
  by rewrite !append_assoc.
Qed.

End JoinFacts.

Section JoinClaims.

(** Property X5.  After an admissible run, [join] of an empty ring buffer
    is the empty string, of a single element the element itself (a
    number, not a string), and otherwise the decimal forms of the elements
    of the deque, in order, with the separator between them ([","] when
    none is given). *)
Theorem join_renders ops sep :
  Run.all_admissible ops Deque.empty = true ->
  let rb := fst (Run.run Run.step ops RB.reset) in
  let d := fst (Run.run Run.ref_step ops Deque.empty) in
  let s := match sep with None => ","%string | Some s => s end in
  RJ.join sep rb =
    match d with
    | [] => RJ.Str ""
    | [x] => RJ.Num x
    | _ => RJ.Str (String.concat s (map RJ.NumberToString d))
    end.
Proof.
  intros Hadm rb d s.
  destruct (run_refines ops _ _ represents_reset Hadm) as (_ & Hrep & _).
  fold rb d in Hrep. pose proof Hrep as (Hwf & Hlen & Hle & Hel).
  unfold RJ.join. fold s.
  destruct d as [|x [|y r]]; cbn [List.length] in Hlen.
  - rewrite Hlen. reflexivity.
  - assert (Hg : RB.get 0 rb = JS.Num x).
    { apply get_element; [done|done|lia|]. rewrite Hel by lia. reflexivity. }
    rewrite Hg, Hlen. reflexivity.
  - assert (Hg : RB.get 0 rb = JS.Num x).
    { apply get_element; [done|done|lia|]. rewrite Hel by lia. reflexivity. }
    rewrite Hg. destruct (Z.gtb_spec (RB.length rb) 0); [|lia]. cbn [RJ.of_slot].
    rewrite (join_for_spec s rb _ Hrep (y :: r)); cbn [List.length]; try lia.
    + cbn [fold_left]. 
      etransitivity; [exact (fold_concat s r (RJ.NumberToString x) y)|]. reflexivity.
    + intros k Hk. replace (1 + k) with (k + 1) by lia. apply slot_cons_succ. lia.
Qed.

Lemma join_renders_witness :
  Run.all_admissible front_and_back Deque.empty = true /\
  RJ.toString (fst (Run.run Run.step front_and_back RB.reset)) = RJ.Str "6,4,-5" /\
  RJ.join None (fst (Run.run Run.step short_run RB.reset)) = RJ.Num (-3).
Proof.
  split; [reflexivity|]. split.
  - exact (join_renders front_and_back (Some ","%string) eq_refl).
  - exact (join_renders short_run None eq_refl).
Defined.

End JoinClaims.

(** ** What the operations of a UART leave alone *)

Ltac addr_cases addr :=
  destruct addr as [|addr|addr]; [| do 3 (try destruct addr as [addr|addr|]) |].

Section Frames.
Import JS.

Lemma same_registers_refl s : same_registers s s.
Proof. by repeat split. Qed.

Lemma same_registers_trans s1 s2 s3 :
  same_registers s1 s2 -> same_registers s2 s3 -> same_registers s1 s3.
Proof. unfold same_registers. intros H1 H2. split_and!; etransitivity; try apply H2; apply H1. Qed.

Lemma ThrowCTI_frame s :
  same_registers s (U.ThrowCTI s) /\
  exists l, U.calls (U.ThrowCTI s) = U.calls s ++ l /\ signal_calls false l.
Proof.
  unfold U.ThrowCTI. destruct (negb _); [|destruct (_ && _)]; uart_fields.
  all: split; [by repeat split|].
  - exists []. rewrite app_nil_r. split; [done|by left].
  - eexists. split; [done|]. right. by left.
  - exists []. rewrite app_nil_r. split; [done|by left].
Qed.

Lemma ThrowTHRI_frame s :
  same_registers s (U.ThrowTHRI s) /\
  exists l, U.calls (U.ThrowTHRI s) = U.calls s ++ l /\ signal_calls false l.
Proof.
  unfold U.ThrowTHRI. destruct (negb _); [|destruct (_ || _)]; uart_fields.
  all: split; [by repeat split|].
  - exists []. rewrite app_nil_r. split; [done|by left].
  - eexists. split; [done|]. right. by left.
  - exists []. rewrite app_nil_r. split; [done|by left].
Qed.

Lemma signal_calls_weaken l : signal_calls false l -> signal_calls true l.
Proof. intros [H|[H|[H _]]]; [by left|right; by left|done]. Qed.

Lemma NextInterrupt_frame s :
  same_registers s (U.NextInterrupt s) /\
  exists l, U.calls (U.NextInterrupt s) = U.calls s ++ l /\ signal_calls true l.
Proof.
  unfold U.NextInterrupt. destruct (_ && _); [|destruct (_ && _)].
  - destruct (ThrowCTI_frame s) as (H & l & Hl & Hs). split; [done|].
    exists l. split; [done|by apply signal_calls_weaken].
  - destruct (ThrowTHRI_frame s) as (H & l & Hl & Hs). split; [done|].
    exists l. split; [done|by apply signal_calls_weaken].
  - uart_fields. split; [by repeat split|]. eexists. split; [done|].
    right. right. done.
Qed.

Lemma ClearInterrupt_frame line s :
  same_registers s (U.ClearInterrupt line s) /\
  exists l, U.calls (U.ClearInterrupt line s) = U.calls s ++ l /\
    signal_calls (line =? U.UART_IIR_NO_INT) l.
Proof.
  rewrite ClearInterrupt_unfold. cbn zeta.
  destruct (line =? U.UART_IIR_NO_INT).
  - destruct (NextInterrupt_frame
                (U.set_IIR U.UART_IIR_NO_INT
                   (U.set_ints (bit_and (U.ints s) (bit_not (shl 1 line))) s)))
      as (H & l & Hl & Hs).
    split; [exact H|]. exists l. split; [exact Hl|exact Hs].
  - split; [by repeat split|]. exists []. rewrite app_nil_r. split; [done|by left].
Qed.

End Frames.

Section Accesses.
Import JS.

Lemma acknowledge_unfold line s :
  line <> U.UART_IIR_NO_INT ->
  U.ClearInterrupt line s =
    U.set_IIR U.UART_IIR_NO_INT
      (U.set_ints (bit_and (U.ints s) (bit_not (shl 1 line))) s).
Proof.
  intros H. rewrite ClearInterrupt_unfold. cbn zeta.
  by destruct (Z.eqb_spec line U.UART_IIR_NO_INT).
Qed.

(** A read of the receive buffer, field by field. *)
Lemma ReadReg8_rbr_spec s :
  let n := RB.length (U.fifo s) in
  let s' := fst (U.ReadReg8_rbr s) in
  let acked := bit_and (bit_and (U.ints s) (bit_not (shl 1 U.UART_IIR_RDI)))
                       (bit_not (shl 1 U.UART_IIR_CTI)) in
  U.LCR s' = U.LCR s /\ U.IER s' = U.IER s /\
  U.DLL s' = U.DLL s /\ U.DLH s' = U.DLH s /\
  U.fifo s' = (if n >=? 1 then fst (RB.shift (U.fifo s)) else U.fifo s) /\
  snd (U.ReadReg8_rbr s)
    = U.Return (if n >=? 1 then snd (RB.shift (U.fifo s)) else Num 0x21) /\
  U.LSR s' = (if n >? 1 then bit_or (U.LSR s) U.UART_LSR_DATA_READY
              else bit_and (U.LSR s) (bit_not U.UART_LSR_DATA_READY)) /\
  U.ints s' = (if n >? 1 then bit_or acked (shl 1 U.UART_IIR_CTI) else acked) /\
  ((n >? 1) = false -> U.IIR s' = U.UART_IIR_NO_INT) /\
  exists l, U.calls s' = U.calls s ++ l /\ signal_calls false l.
Proof.
  intros n s' acked. subst s'. unfold U.ReadReg8_rbr.
  rewrite !acknowledge_unfold by done. uart_fields. fold n.
  destruct (n >=? 1).
  - destruct (RB.shift (U.fifo s)) as [q r]. destruct (n >? 1); uart_fields.
    + set (m := U.set_LSR _ _).
      destruct (ThrowCTI_frame m) as ((H1 & H2 & _ & H4 & H5 & H6 & _ & _ & _ & H10) & l & Hl & Hs).
      rewrite H1, H2, H4, H5, H6, H10, Hl.
      assert (Hi : U.ints (U.ThrowCTI m) = bit_or (U.ints m) (shl 1 U.UART_IIR_CTI)).
      { unfold U.ThrowCTI. destruct (negb _); [done|]. by destruct (_ && _). }
      rewrite Hi. subst m. uart_fields. split_and!; try done. eauto.
    + split_and!; try done. exists []. rewrite app_nil_r. split; [done|by left].
  - destruct (n >? 1); uart_fields.
    + set (m := U.set_LSR _ _).
      destruct (ThrowCTI_frame m) as ((H1 & H2 & _ & H4 & H5 & H6 & _ & _ & _ & H10) & l & Hl & Hs).
      rewrite H1, H2, H4, H5, H6, H10, Hl.
      assert (Hi : U.ints (U.ThrowCTI m) = bit_or (U.ints m) (shl 1 U.UART_IIR_CTI)).
      { unfold U.ThrowCTI. destruct (negb _); [done|]. by destruct (_ && _). }
      rewrite Hi. subst m. uart_fields. split_and!; try done. eauto.
    + split_and!; try done. exists []. rewrite app_nil_r. split; [done|by left].
Qed.

Lemma ReadReg8_0 s : dlab s = false -> U.ReadReg8 0 s = U.ReadReg8_rbr s.
Proof. intros Hd. unfold U.ReadReg8. unfold dlab, flag in Hd. by rewrite Hd. Qed.

Lemma ReadReg8_iir_spec s :
  let s' := fst (U.ReadReg8_iir s) in
  same_registers s s' /\ U.calls s' = U.calls s /\
  exists v, snd (U.ReadReg8_iir s) = U.Return v.
Proof.
  unfold U.ReadReg8_iir. cbn [fst snd]. destruct (_ =? _).
  - rewrite acknowledge_unfold by done. split; [by repeat split|]. split; [done|eauto].
  - split; [apply same_registers_refl|]. split; [done|eauto].
Qed.

End Accesses.

Section Unsupported.
Import JS.

(** Property X6.  [ReadReg8] ends in [abort()] exactly at the addresses
    other than 0, 1, 2, 3, 5 and 6, and then has logged the error message
    and changed nothing else. *)
Theorem ReadReg8_unsupported addr s :
  (snd (U.ReadReg8 addr s) = U.Abort <-> readable addr = false) /\
  (readable addr = false ->
     fst (U.ReadReg8 addr s)
       = U.do_call (U.DebugMessage "Error in ReadRegister: not supported") s).
Proof.
  destruct (ReadReg8_rbr_spec s) as (_ & _ & _ & _ & _ & Hrbr & _).
  destruct (ReadReg8_iir_spec s) as (_ & _ & v & Hiir).
  unfold U.ReadReg8, U.ReadReg8_switch. destruct (truthy _).
  all: addr_cases addr; cbn [readable existsb Z.eqb Pos.eqb orb fst snd];
    rewrite ?Hrbr, ?Hiir; split; try done; split; done.
Qed.

(** Property X7.  [WriteReg8] ends in [abort()] exactly at the addresses
    other than 0 to 4, and then has logged the error message and changed
    nothing else. *)
Theorem WriteReg8_unsupported addr x s :
  (snd (U.WriteReg8 addr x s) = U.Abort <-> writable addr = false) /\
  (writable addr = false ->
     fst (U.WriteReg8 addr x s)
       = U.do_call (U.DebugMessage "Error in WriteRegister: not supported") s).
Proof.
  unfold U.WriteReg8, U.WriteReg8_switch. destruct (truthy _).
  all: addr_cases addr; cbn [writable existsb Z.eqb Pos.eqb orb fst snd];
    split; try done; split; done.
Qed.

End Unsupported.

Section Logs.
Import JS.

Lemma clears_app l1 l2 : clears (l1 ++ l2) = (clears l1 + clears l2)%nat.
Proof.
  induction l1 as [|c l1 IH]; [done|]. destruct c; cbn [app clears]; by rewrite ?IH.
Qed.

Lemma signal_calls_log b l :
  signal_calls b l -> put_chars l = [] /\ (b = false -> clears l = O).
Proof. intros [->|[->|[-> ->]]]; by split. Qed.

(** What one operation appends to the call log. *)
Lemma uart_step_log o s :
  exists l, U.calls (uart_step o s) = U.calls s ++ l /\
    put_chars l = transmits o s /\
    (arbitrates o s = false -> clears l = O).
Proof.
  destruct o as [x|addr|addr x| | | | |line]; cbn [uart_step transmits arbitrates].
  - unfold U.ReceiveChar. set (m := U.set_LSR _ _).
    destruct (ThrowCTI_frame m) as (_ & l & Hl & Hs). exists l.
    split; [by rewrite Hl|]. by apply (signal_calls_log false).
  - destruct (ReadReg8_rbr_spec s) as (_ & _ & _ & _ & _ & _ & _ & _ & _ & l & Hl & Hs).
    destruct (ReadReg8_iir_spec s) as (_ & Hiir & _).
    apply (signal_calls_log false) in Hs.
    unfold U.ReadReg8, U.ReadReg8_switch. destruct (truthy _).
    all: addr_cases addr; cbn [fst]; rewrite ?Hiir;
      first [ by (exists l)
            | by (exists []; rewrite app_nil_r)
            | by (eexists; split; [uart_fields; reflexivity|]) ].
  - unfold U.WriteReg8, U.WriteReg8_switch, dlab, flag. rewrite bit_and_0xFF.
    destruct (truthy (bit_and (U.LCR s) U.UART_LCR_DLAB)) eqn:Hd.
    all: addr_cases addr; cbn [fst Z.eqb Pos.eqb andb negb U.UART_IER];
      first
        [ by (exists []; rewrite app_nil_r)
        | by (eexists; split; [uart_fields; reflexivity|])
        | by (uart_fields; destruct (truthy (bit_and (x mod 256) 2)); uart_fields;
              eexists; (split; [rewrite <- ?app_assoc; reflexivity|]))
        | match goal with
          | |- context [U.ThrowTHRI ?m] =>
              let l := fresh "l" in
              let Hl := fresh "Hl" in
              let Hs := fresh "Hs" in
              destruct (ThrowTHRI_frame m) as (_ & l & Hl & Hs);
              apply (signal_calls_log false) in Hs as [Hp Hc];
              exists (U.odev_PutChar (x mod 256) :: l); rewrite Hl; uart_fields;
              rewrite <- app_assoc; cbn [app put_chars clears]; rewrite Hp;
              split_and!; try done; intros _; by apply Hc
          | |- context [U.NextInterrupt ?m] =>
              let l := fresh "l" in
              let Hl := fresh "Hl" in
              let Hs := fresh "Hs" in
              destruct (NextInterrupt_frame m) as (_ & l & Hl & Hs);
              apply (signal_calls_log true) in Hs as [Hp Hc];
              exists l; by rewrite Hl
          end ].
  - exists []. by rewrite app_nil_r.
  - destruct (ThrowCTI_frame s) as (_ & l & Hl & Hs). exists l.
    split; [done|]. by apply (signal_calls_log false).
  - destruct (ThrowTHRI_frame s) as (_ & l & Hl & Hs). exists l.
    split; [done|]. by apply (signal_calls_log false).
  - destruct (NextInterrupt_frame s) as (_ & l & Hl & Hs). exists l.
    split; [done|]. by apply (signal_calls_log true).
  - destruct (ClearInterrupt_frame line s) as (_ & l & Hl & Hs). exists l.
    split; [done|]. by apply signal_calls_log in Hs.
Qed.

(** Property X8.  An operation hands a byte to [odev.PutChar] only as a
    write to address 0 with the divisor latch closed, and then exactly the
    byte written, masked to eight bits. *)
Theorem PutChar_only_on_transmit o s :
  put_chars (U.calls (uart_step o s)) = put_chars (U.calls s) ++ transmits o s.
Proof.
  destruct (uart_step_log o s) as (l & -> & <- & _). apply put_chars_app.
Qed.

(** Property X9.  [intdev.ClearInterrupt] is called only by the
    operations that run [NextInterrupt]: a write of [IER], [NextInterrupt]
    itself, and [ClearInterrupt(UART_IIR_NO_INT)].  No read and no
    acknowledgement of a cause calls it. *)
Theorem ClearInterrupt_only_on_arbitration o s :
  arbitrates o s = false ->
  clears (U.calls (uart_step o s)) = clears (U.calls s).
Proof.
  intros H. destruct (uart_step_log o s) as (l & -> & _ & Hc).
  rewrite clears_app, (Hc H). lia.
Qed.

Lemma ClearInterrupt_only_on_arbitration_witness :
  arbitrates (OpReadReg8 0) drained = false /\
  RB.length (U.fifo drained) = 0 /\
  clears (U.calls (uart_step (OpReadReg8 0) drained)) = clears (U.calls drained).
Proof.
  split; [reflexivity|]. split; [reflexivity|].
  exact (ClearInterrupt_only_on_arbitration (OpReadReg8 0) drained eq_refl).
Defined.

(** Property X10.  Only [ReceiveChar] and a read of address 0 with the
    divisor latch closed change the receive FIFO; a write of [FCR], with
    whatever bits, does not. *)
Theorem fifo_frame o s :
  touches_fifo o s = false -> U.fifo (uart_step o s) = U.fifo s.
Proof.
  destruct o as [x|addr|addr x| | | | |line]; cbn [uart_step touches_fifo]; try done.
  - destruct (ReadReg8_iir_spec s) as ((_ & _ & _ & _ & _ & _ & _ & _ & _ & Hiir) & _).
    unfold U.ReadReg8, U.ReadReg8_switch, dlab, flag. destruct (truthy _).
    all: addr_cases addr; cbn [fst Z.eqb andb negb]; done.
  - intros _. unfold U.WriteReg8, U.WriteReg8_switch. destruct (truthy _).
    all: addr_cases addr; cbn [fst]; try done.
    all: try (by destruct (truthy _)).
    + set (m := U.set_LSR _ _). by destruct (ThrowTHRI_frame m) as ((_ & _ & _ & _ & _ & _ & _ & _ & _ & ->) & _).
    + set (m := U.set_IER _ _). by destruct (NextInterrupt_frame m) as ((_ & _ & _ & _ & _ & _ & _ & _ & _ & ->) & _).
  - intros _. by destruct (ThrowCTI_frame s) as ((_ & _ & _ & _ & _ & _ & _ & _ & _ & ->) & _).
  - intros _. by destruct (ThrowTHRI_frame s) as ((_ & _ & _ & _ & _ & _ & _ & _ & _ & ->) & _).
  - intros _. by destruct (NextInterrupt_frame s) as ((_ & _ & _ & _ & _ & _ & _ & _ & _ & ->) & _).
  - intros _. by destruct (ClearInterrupt_frame line s) as ((_ & _ & _ & _ & _ & _ & _ & _ & _ & ->) & _).
Qed.

Lemma fifo_frame_witness :
  touches_fifo (OpWriteReg8 U.UART_FCR 0x02) two_bytes_received = false /\
  U.FCR (uart_step (OpWriteReg8 U.UART_FCR 0x02) two_bytes_received) = 0x02 /\
  U.fifo (uart_step (OpWriteReg8 U.UART_FCR 0x02) two_bytes_received)
    = U.fifo two_bytes_received.
Proof.
  split; [reflexivity|]. split; [reflexivity|].
  exact (fifo_frame (OpWriteReg8 U.UART_FCR 0x02) two_bytes_received eq_refl).
Defined.

End Logs.

(** ** Values of the pending set and of the line status *)

Section Invariants.
Import JS.

Lemma land_pow2 k m :
  0 <= k -> Z.land (2 ^ k) m = if Z.testbit m k then 2 ^ k else 0.
Proof.
  intros Hk. apply Z.bits_inj'. intros i Hi.
  rewrite Z.land_spec, Z.pow2_bits_eqb by done.
  destruct (Z.eqb_spec k i) as [->|Hne].
  - destruct (Z.testbit m i); [|by rewrite Z.bits_0].
    by rewrite Z.pow2_bits_eqb, Z.eqb_refl.
  - destruct (Z.testbit m k); [|by rewrite Z.bits_0].
    rewrite Z.pow2_bits_eqb by done. by destruct (Z.eqb_spec k i).
Qed.

Lemma pending_sets_and v m : pending_sets v -> pending_sets (bit_and v m).
Proof.
  unfold bit_and. generalize (to_int32 m). clear m. intros m.
  intros [-> | [-> | [-> | ->]]].
  - by left.
  - change (to_int32 4) with (2 ^ 2). rewrite land_pow2 by lia.
    destruct (Z.testbit m 2); [right; by left|by left].
  - change (to_int32 4096) with (2 ^ 12). rewrite land_pow2 by lia.
    destruct (Z.testbit m 12); [right; right; by left|by left].
  - change (to_int32 4100) with (Z.lor (2 ^ 12) (2 ^ 2)).
    rewrite Z.land_lor_distr_l, !land_pow2 by lia.
    destruct (Z.testbit m 12), (Z.testbit m 2); vm_compute; lia.
Qed.

Lemma pending_sets_CTI v : pending_sets v -> pending_sets (bit_or v (shl 1 U.UART_IIR_CTI)).
Proof. intros [-> | [-> | [-> | ->]]]; vm_compute; lia. Qed.

Lemma pending_sets_THRI v : pending_sets v -> pending_sets (bit_or v (shl 1 U.UART_IIR_THRI)).
Proof. intros [-> | [-> | [-> | ->]]]; vm_compute; lia. Qed.

Lemma ints_ThrowCTI s : U.ints (U.ThrowCTI s) = bit_or (U.ints s) (shl 1 U.UART_IIR_CTI).
Proof. unfold U.ThrowCTI. destruct (negb _); [done|]. by destruct (_ && _). Qed.

Lemma ints_ThrowTHRI s : U.ints (U.ThrowTHRI s) = bit_or (U.ints s) (shl 1 U.UART_IIR_THRI).
Proof. unfold U.ThrowTHRI. destruct (negb _); [done|]. by destruct (_ || _). Qed.

Lemma ints_NextInterrupt s : pending_sets (U.ints s) -> pending_sets (U.ints (U.NextInterrupt s)).
Proof.
  intros H. unfold U.NextInterrupt. destruct (_ && _); [|destruct (_ && _)]; [| |done].
  - rewrite ints_ThrowCTI. by apply pending_sets_CTI.
  - rewrite ints_ThrowTHRI. by apply pending_sets_THRI.
Qed.

Lemma ints_ClearInterrupt line s :
  pending_sets (U.ints s) -> pending_sets (U.ints (U.ClearInterrupt line s)).
Proof.
  intros H. rewrite ClearInterrupt_unfold. cbn zeta.
  destruct (_ =? _); [apply ints_NextInterrupt|]; uart_fields; by apply pending_sets_and.
Qed.

Lemma uart_step_pending_sets o s :
  pending_sets (U.ints s) -> pending_sets (U.ints (uart_step o s)).
Proof.
  intros H. destruct o as [x|addr|addr x| | | | |line]; cbn [uart_step].
  - unfold U.ReceiveChar. rewrite ints_ThrowCTI. by apply pending_sets_CTI.
  - destruct (ReadReg8_rbr_spec s) as (_ & _ & _ & _ & _ & _ & _ & Hi & _).
    assert (Hrbr : pending_sets (U.ints (fst (U.ReadReg8_rbr s)))).
    { rewrite Hi. destruct (_ >? 1); [apply pending_sets_CTI|]; by do 2 apply pending_sets_and. }
    assert (Hiir : pending_sets (U.ints (fst (U.ReadReg8_iir s)))).
    { unfold U.ReadReg8_iir. cbn [fst]. destruct (_ =? _); [by apply ints_ClearInterrupt|done]. }
    unfold U.ReadReg8, U.ReadReg8_switch. destruct (truthy _).
    all: addr_cases addr; cbn [fst]; done.
  - unfold U.WriteReg8, U.WriteReg8_switch. destruct (truthy _).
    all: addr_cases addr; cbn [fst]; try done.
    all: first [ by (uart_fields; destruct (truthy _))
               | by (rewrite ints_ThrowTHRI; apply pending_sets_THRI)
               | by apply ints_NextInterrupt ].
  - by left.
  - rewrite ints_ThrowCTI. by apply pending_sets_CTI.
  - rewrite ints_ThrowTHRI. by apply pending_sets_THRI.
  - by apply ints_NextInterrupt.
  - by apply ints_ClearInterrupt.
Qed.

Lemma uart_run_invariant (P : U.t -> Prop) :
  (forall o s, P s -> P (uart_step o s)) ->
  forall ops s, P s -> P (uart_run ops s).
Proof.
  intros Hstep. unfold uart_run.
  induction ops as [|o ops IH]; intros s Hs; cbn [fold_left]; [done|].
  apply IH. by apply Hstep.
Qed.

(** Property X11.  In every state reached from a new UART, [ints] records
    no cause but the character timeout and the transmit interrupt. *)
Theorem only_CTI_and_THRI_pending ops :
  let s := uart_run ops U.new in
  (U.ints s = 0 \/ U.ints s = 4 \/ U.ints s = 4096 \/ U.ints s = 4100) /\
  pending U.UART_IIR_RDI s = false /\
  pending U.UART_IIR_RLSI s = false /\
  pending U.UART_IIR_MSI s = false.
Proof.
  intros s.
  assert (H : pending_sets (U.ints s)).
  { apply (uart_run_invariant (fun s => pending_sets (U.ints s))).
    - apply uart_step_pending_sets.
    - by left. }
  split; [exact H|]. unfold pending, flag.
  destruct H as [-> | [-> | [-> | ->]]]; by vm_compute.
Qed.

(** The line status register. *)
Lemma status_values_ops v :
  status_values v ->
  status_values (bit_or v U.UART_LSR_DATA_READY) /\
  status_values (bit_and v (bit_not U.UART_LSR_DATA_READY)) /\
  status_values (bit_or (bit_and v (bit_not U.UART_LSR_FIFO_EMPTY)) U.UART_LSR_FIFO_EMPTY).
Proof. intros [->| ->]; vm_compute; lia. Qed.

Lemma LSR_signal s :
  U.LSR (U.ThrowCTI s) = U.LSR s /\ U.LSR (U.ThrowTHRI s) = U.LSR s /\
  U.LSR (U.NextInterrupt s) = U.LSR s /\
  forall line, U.LSR (U.ClearInterrupt line s) = U.LSR s.
Proof.
  split_and!; [| | |intros line].
  - by destruct (ThrowCTI_frame s) as ((_ & -> & _) & _).
  - by destruct (ThrowTHRI_frame s) as ((_ & -> & _) & _).
  - by destruct (NextInterrupt_frame s) as ((_ & -> & _) & _).
  - by destruct (ClearInterrupt_frame line s) as ((_ & -> & _) & _).
Qed.

Lemma uart_step_status_values o s :
  status_values (U.LSR s) -> status_values (U.LSR (uart_step o s)).
Proof.
  intros H. destruct (status_values_ops _ H) as (Hset & Hclr & Htx).
  destruct o as [x|addr|addr x| | | | |line]; cbn [uart_step].
  - unfold U.ReceiveChar. by rewrite (proj1 (LSR_signal _)).
  - destruct (ReadReg8_rbr_spec s) as (_ & _ & _ & _ & _ & _ & Hl & _).
    assert (Hrbr : status_values (U.LSR (fst (U.ReadReg8_rbr s)))).
    { rewrite Hl. by destruct (_ >? 1). }
    assert (Hiir : status_values (U.LSR (fst (U.ReadReg8_iir s)))).
    { by destruct (ReadReg8_iir_spec s) as ((_ & -> & _) & _). }
    unfold U.ReadReg8, U.ReadReg8_switch. destruct (truthy _).
    all: addr_cases addr; cbn [fst]; done.
  - unfold U.WriteReg8, U.WriteReg8_switch. destruct (truthy _).
    all: addr_cases addr; cbn [fst]; try done.
    all: first [ by (uart_fields; destruct (truthy _))
               | by rewrite (proj1 (proj2 (LSR_signal _)))
               | by rewrite (proj1 (proj2 (proj2 (LSR_signal _)))) ].
  - left. by vm_compute. 
  - by rewrite (proj1 (LSR_signal _)).
  - by rewrite (proj1 (proj2 (LSR_signal _))).
  - by rewrite (proj1 (proj2 (proj2 (LSR_signal _)))).
  - by rewrite (proj2 (proj2 (proj2 (LSR_signal _)))).
Qed.

(** Property X12.  In every state reached from a new UART, [LSR] is [0x60]
    or [0x61]: the transmitter is always reported empty. *)
Theorem transmitter_always_empty ops :
  let s := uart_run ops U.new in
  (U.LSR s = 0x60 \/ U.LSR s = 0x61) /\
  flag (U.LSR s) U.UART_LSR_FIFO_EMPTY = true /\
  flag (U.LSR s) U.UART_LSR_TRANSMITTER_EMPTY = true.
Proof.
  intros s.
  assert (H : status_values (U.LSR s)).
  { apply (uart_run_invariant (fun s => status_values (U.LSR s))).
    - apply uart_step_status_values.
    - left. by vm_compute. }
  split; [exact H|]. destruct H as [-> | ->]; by vm_compute.
Qed.

End Invariants.

Section DataReady.
Import JS.

Lemma ready_matches_frame s s' :
  U.LSR s' = U.LSR s -> U.fifo s' = U.fifo s -> ready_matches s -> ready_matches s'.
Proof. unfold ready_matches. by intros -> ->. Qed.

Lemma uart_step_ready_matches o s :
  o <> OpReset -> ready_matches s -> ready_matches (uart_step o s).
Proof.
  intros Ho H.
  assert (Hsame : forall s', same_registers s s' -> ready_matches s').
  { intros s' (_ & Hl & _ & _ & _ & _ & _ & _ & _ & Hf). by apply (ready_matches_frame s). }
  destruct o as [x|addr|addr x| | | | |line]; cbn [uart_step]; try done.
  - unfold U.ReceiveChar. set (m := U.set_LSR _ _).
    destruct (ThrowCTI_frame m) as ((_ & Hl & _ & _ & _ & _ & _ & _ & _ & Hf) & _).
    unfold ready_matches. rewrite Hl, Hf. subst m. uart_fields. rewrite length_push.
    left. destruct H as [[-> ?]|[-> ?]]; split; try lia; by vm_compute.
  - destruct (ReadReg8_rbr_spec s) as (_ & _ & _ & _ & Hf & _ & Hl & _).
    assert (Hrbr : ready_matches (fst (U.ReadReg8_rbr s))).
    { unfold ready_matches. rewrite Hf, Hl.
      destruct H as [[-> Hn]|[-> Hn]].
      - destruct (Z.geb_spec (RB.length (U.fifo s)) 1); [|lia].
        rewrite length_shift by lia.
        destruct (Z.gtb_spec (RB.length (U.fifo s)) 1); [left|right]; split; try lia; by vm_compute.
      - rewrite Hn. right. split; [by vm_compute|done]. }
    assert (Hiir : ready_matches (fst (U.ReadReg8_iir s))).
    { by destruct (ReadReg8_iir_spec s) as (Hs & _); apply Hsame. }
    unfold U.ReadReg8, U.ReadReg8_switch. destruct (truthy _).
    all: addr_cases addr; cbn [fst]; done.
  - unfold U.WriteReg8, U.WriteReg8_switch. destruct (truthy _).
    all: addr_cases addr; cbn [fst]; try done.
    all: first
      [ by (uart_fields; destruct (truthy _))
      | match goal with
        | |- context [U.ThrowTHRI ?m] =>
            destruct (ThrowTHRI_frame m) as ((_ & Hl & _ & _ & _ & _ & _ & _ & _ & Hf) & _);
            unfold ready_matches; rewrite Hl, Hf; uart_fields;
            destruct H as [[-> ?]|[-> ?]]; [left|right]; split; try done; by vm_compute
        | |- context [U.NextInterrupt ?m] =>
            destruct (NextInterrupt_frame m) as ((_ & Hl & _ & _ & _ & _ & _ & _ & _ & Hf) & _);
            by apply (ready_matches_frame s); rewrite ?Hl, ?Hf
        end ].
  - by destruct (ThrowCTI_frame s) as (Hs & _); apply Hsame.
  - by destruct (ThrowTHRI_frame s) as (Hs & _); apply Hsame.
  - by destruct (NextInterrupt_frame s) as (Hs & _); apply Hsame.
  - by destruct (ClearInterrupt_frame line s) as (Hs & _); apply Hsame.
Qed.

(** Property X13.  In every state reached from a new UART without [Reset],
    the data-ready bit of [LSR] is set exactly when the FIFO holds a
    byte. *)
Theorem data_ready_iff_fifo_not_empty ops :
  reset_free ops = true ->
  let s := uart_run ops U.new in
  0 <= RB.length (U.fifo s) /\
  flag (U.LSR s) U.UART_LSR_DATA_READY = (0 <? RB.length (U.fifo s)).
Proof.
  intros Hfree s.
  assert (H : ready_matches s).
  { subst s. unfold uart_run.
    assert (H0 : ready_matches U.new) by (right; split; by vm_compute).
    revert H0. generalize U.new.
    induction ops as [|o ops IH]; intros s0 H0; cbn [fold_left]; [done|].
    cbn [reset_free forallb] in Hfree. apply andb_true_iff in Hfree as [Ho Hops].
    apply IH; [done|]. apply uart_step_ready_matches; [|done].
    intros ->. done. }
  destruct H as [[-> Hn]|[-> Hn]].
  - split; [lia|]. destruct (Z.ltb_spec 0 (RB.length (U.fifo s))); [by vm_compute|lia].
  - rewrite Hn. split; [done|by vm_compute].
Qed.

Lemma data_ready_iff_fifo_not_empty_witness :
  reset_free [OpWriteReg8 U.UART_IER 3; OpReceiveChar 0x41; OpReceiveChar 0x42] = true /\
  flag (U.LSR two_bytes_received) U.UART_LSR_DATA_READY = true /\
  RB.length (U.fifo two_bytes_received) = 2.
Proof.
  pose proof (data_ready_iff_fifo_not_empty
                [OpWriteReg8 U.UART_IER 3; OpReceiveChar 0x41; OpReceiveChar 0x42] eq_refl)
    as [_ H].
  split; [reflexivity|]. split; [exact H|reflexivity].
Defined.

End DataReady.

(** ** Bytes through the FIFO *)

Section Bytes.
Import JS.

Lemma dlab_LCR s s' : U.LCR s' = U.LCR s -> dlab s' = dlab s.
Proof. unfold dlab. by intros ->. Qed.

(** A read of address 0 from a FIFO that holds a byte. *)
Lemma read_head s x d :
  dlab s = false -> represents (U.fifo s) (x :: d) ->
  snd (U.ReadReg8 0 s) = U.Return (Num x) /\
  represents (U.fifo (fst (U.ReadReg8 0 s))) d /\
  dlab (fst (U.ReadReg8 0 s)) = false.
Proof.
  intros Hd Hrep. rewrite ReadReg8_0 by done.
  destruct (ReadReg8_rbr_spec s) as (Hlcr & _ & _ & _ & Hf & Hout & _).
  destruct (step_refines Shift _ _ Hrep eq_refl) as [Hr Hrep'].
  cbn [Run.step Run.ref_step Deque.pop_front fst snd] in Hr, Hrep'.
  destruct Hrep as (_ & Hlen & _). cbn [List.length] in Hlen.
  destruct (Z.geb_spec (RB.length (U.fifo s)) 1); [|lia].
  rewrite Hout, Hf. split; [by rewrite Hr|]. split; [done|].
  by rewrite (dlab_LCR s).
Qed.

(** A read of address 0 from an empty FIFO. *)
Lemma read_idle s :
  dlab s = false -> represents (U.fifo s) [] ->
  snd (U.ReadReg8 0 s) = U.Return (Num 0x21) /\
  U.fifo (fst (U.ReadReg8 0 s)) = U.fifo s.
Proof.
  intros Hd (_ & Hlen & _). rewrite ReadReg8_0 by done.
  destruct (ReadReg8_rbr_spec s) as (_ & _ & _ & _ & Hf & Hout & _).
  rewrite Hout, Hf, Hlen. done.
Qed.

Lemma read_bytes_spec d : forall s,
  dlab s = false -> represents (U.fifo s) d ->
  snd (read_bytes (List.length d) s) = map (fun x => U.Return (Num x)) d /\
  represents (U.fifo (fst (read_bytes (List.length d) s))) [] /\
  dlab (fst (read_bytes (List.length d) s)) = false.
Proof.
  induction d as [|x d IH]; intros s Hd Hrep; cbn [List.length read_bytes map]; [done|].
  destruct (read_head s x d Hd Hrep) as (Hout & Hrep' & Hd').
  destruct (U.ReadReg8 0 s) as [s1 r]. cbn [fst snd] in *. subst r.
  destruct (IH s1 Hd' Hrep') as (Hrs & Hfin & Hdl).
  destruct (read_bytes (List.length d) s1) as [s2 rs]. cbn [fst snd] in *.
  by rewrite Hrs.
Qed.

Lemma ReceiveChar_spec x s d :
  represents (U.fifo s) d -> Run.admissible (Push x) d = true ->
  represents (U.fifo (U.ReceiveChar x s)) (d ++ [x]) /\
  U.LCR (U.ReceiveChar x s) = U.LCR s.
Proof.
  intros Hrep Hadm. unfold U.ReceiveChar. set (m := U.set_LSR _ _).
  destruct (ThrowCTI_frame m) as ((Hl & _ & _ & _ & _ & _ & _ & _ & _ & Hf) & _).
  rewrite Hl, Hf. subst m. uart_fields. split; [|done].
  by destruct (step_refines (Push x) _ _ Hrep Hadm).
Qed.

Lemma receive_all_spec l : forall s d,
  represents (U.fifo s) d -> all_int32 l = true ->
  Z.of_nat (List.length d) + Z.of_nat (List.length l) <= Run.max_length ->
  represents (U.fifo (receive_all l s)) (d ++ l) /\
  U.LCR (receive_all l s) = U.LCR s.
Proof.
  unfold receive_all.
  induction l as [|x l IH]; intros s d Hrep Hint Hlen; cbn [fold_left].
  - by rewrite app_nil_r.
  - cbn [all_int32 forallb] in Hint. apply andb_true_iff in Hint as [Hx Hl].
    cbn [List.length] in Hlen.
    destruct (ReceiveChar_spec x s d Hrep) as [Hrep' Hlcr].
    { unfold Run.admissible, Run.within_limit. cbn [Run.typed Run.adds negb orb].
      rewrite Hx. apply Z.ltb_lt. lia. }
    destruct (IH (U.ReceiveChar x s) (d ++ [x]) Hrep' Hl) as [Hfin Hlcr'].
    { rewrite length_app. cbn [List.length]. lia. }
    rewrite <- app_assoc in Hfin. split; [done|]. by rewrite Hlcr'.
Qed.

(** Property X14.  With the divisor latch closed, after the bytes [l] are
    received by a UART whose FIFO holds [d], as many reads of address 0 as
    there are bytes return [d] then [l], in order, and the next read
    returns the idle value [0x21]. *)
Theorem bytes_are_read_in_arrival_order s d l :
  dlab s = false -> represents (U.fifo s) d -> all_int32 l = true ->
  Z.of_nat (List.length d) + Z.of_nat (List.length l) <= Run.max_length ->
  let n := (List.length d + List.length l)%nat in
  snd (read_bytes n (receive_all l s)) = map (fun x => U.Return (Num x)) (d ++ l) /\
  snd (U.ReadReg8 0 (fst (read_bytes n (receive_all l s)))) = U.Return (Num 0x21).
Proof.
  intros Hd Hrep Hint Hlen n.
  destruct (receive_all_spec l s d Hrep Hint Hlen) as [Hrep' Hlcr].
  assert (Hd' : dlab (receive_all l s) = false) by (by rewrite (dlab_LCR s)).
  destruct (read_bytes_spec (d ++ l) _ Hd' Hrep') as (Hrs & Hfin & Hdl).
  rewrite length_app in Hrs, Hfin, Hdl. fold n in Hrs, Hfin, Hdl.
  split; [done|]. by apply read_idle.
Qed.

Lemma bytes_are_read_in_arrival_order_witness :
  dlab U.new = false /\ represents (U.fifo U.new) [] /\
  snd (read_bytes 3 (receive_all [0x41; 0x42; 0x43] U.new))
    = [U.Return (Num 0x41); U.Return (Num 0x42); U.Return (Num 0x43)].
Proof.
  assert (Hlen : Z.of_nat (List.length (@nil Z)) + Z.of_nat (List.length [0x41; 0x42; 0x43])
                 <= Run.max_length) by (vm_compute; discriminate).
  split; [reflexivity|]. split; [exact represents_reset|].
  exact (proj1 (bytes_are_read_in_arrival_order U.new [] [0x41; 0x42; 0x43]
                  eq_refl represents_reset eq_refl Hlen)).
Defined.

(** Property X15.  [Reset] clears the data-ready bit but keeps the FIFO:
    the next read of address 0 still returns its oldest byte. *)
Theorem Reset_keeps_the_fifo s x d :
  represents (U.fifo s) (x :: d) ->
  flag (U.LSR (U.Reset s)) U.UART_LSR_DATA_READY = false /\
  snd (U.ReadReg8 0 (U.Reset s)) = U.Return (Num x) /\
  represents (U.fifo (fst (U.ReadReg8 0 (U.Reset s)))) d.
Proof.
  intros Hrep. split; [by vm_compute|].
  destruct (read_head (U.Reset s) x d) as (Hout & Hrep' & _); [by vm_compute|done|].
  done.
Qed.

Lemma Reset_keeps_the_fifo_witness :
  represents (U.fifo two_bytes_received) [0x41; 0x42] /\
  flag (U.LSR reset_with_bytes) U.UART_LSR_DATA_READY = false /\
  snd (U.ReadReg8 0 reset_with_bytes) = U.Return (Num 0x41).
Proof.
  assert (Hrep : represents (U.fifo two_bytes_received) [0x41; 0x42]).
  { exact (proj1 (receive_all_spec [0x41; 0x42] U.new [] represents_reset eq_refl
                    ltac:(vm_compute; discriminate))). }
  destruct (Reset_keeps_the_fifo two_bytes_received 0x41 [0x42] Hrep) as (Hdr & Hout & _).
  split; [exact Hrep|]. split; [exact Hdr|exact Hout].
Defined.

End Bytes.

(** ** Register round trips and arbitration *)

Section RoundTrips.
Import JS.

Lemma bit_and_0x0F x : bit_and x 0x0F = x mod 16.
Proof.
  unfold bit_and. change (to_int32 15) with (Z.ones 4).
  rewrite Z.land_ones by lia. change 16 with (2 ^ 4).
  apply Z.bits_inj'. intros i Hi. destruct (Z.lt_ge_cases i 4).
  - rewrite !Z.mod_pow2_bits_low by lia. apply testbit_to_int32. lia.
  - rewrite !Z.mod_pow2_bits_high by lia. done.
Qed.

Lemma testbit_byte x i : 0 <= i < 8 -> Z.testbit (x mod 256) i = Z.testbit x i.
Proof. intros Hi. change 256 with (2 ^ 8). apply Z.mod_pow2_bits_low. lia. Qed.

Lemma testbit_nibble x i : 0 <= i < 4 -> Z.testbit (x mod 16) i = Z.testbit x i.
Proof. intros Hi. change 16 with (2 ^ 4). apply Z.mod_pow2_bits_low. lia. Qed.

Lemma WriteReg8_LCR v s :
  fst (U.WriteReg8 U.UART_LCR v s)
    = U.set_LCR (v mod 256) (U.do_call (U.DebugMessage_hex8 "UART_LCR:" (v mod 256)) s).
Proof. unfold U.WriteReg8. rewrite bit_and_0xFF. by destruct (truthy _). Qed.

Lemma dlab_after_LCR v s : dlab (fst (U.WriteReg8 U.UART_LCR v s)) = Z.testbit v 7.
Proof.
  rewrite WriteReg8_LCR. unfold dlab. uart_fields. change U.UART_LCR_DLAB with (2 ^ 7).
  rewrite flag_bit by lia. apply testbit_byte. lia.
Qed.

(** Property X16.  A value written to [LCR] is read back masked to eight
    bits, and its bit 7 is the divisor latch access bit from then on. *)
Theorem LCR_round_trip v s :
  snd (U.ReadReg8 U.UART_LCR (fst (U.WriteReg8 U.UART_LCR v s)))
    = U.Return (Num (v mod 256)) /\
  dlab (fst (U.WriteReg8 U.UART_LCR v s)) = Z.testbit v 7.
Proof.
  split; [|apply dlab_after_LCR].
  rewrite WriteReg8_LCR. unfold U.ReadReg8. by destruct (truthy _).
Qed.

(** Property X17.  Once [LCR] is written with bit 7 set, writes of
    addresses 0 and 1 land in [DLL] and [DLH] and are read back from
    there; no byte is put, no further call is made, and the interrupt
    registers, the line status and the FIFO are as before. *)
Theorem divisor_latch_round_trip v x y s :
  Z.testbit v 7 = true ->
  let s1 := fst (U.WriteReg8 U.UART_LCR v s) in
  let s2 := fst (U.WriteReg8 U.UART_DLL x s1) in
  let s3 := fst (U.WriteReg8 U.UART_DLH y s2) in
  snd (U.ReadReg8 U.UART_DLL s3) = U.Return (Num (x mod 256)) /\
  snd (U.ReadReg8 U.UART_DLH s3) = U.Return (Num (y mod 256)) /\
  put_chars (U.calls s3) = put_chars (U.calls s) /\
  U.calls s3 = U.calls s1 /\
  U.IER s3 = U.IER s /\ U.IIR s3 = U.IIR s /\ U.LSR s3 = U.LSR s /\ U.fifo s3 = U.fifo s.
Proof.
  intros Hv s1 s2 s3.
  assert (Hd1 : dlab s1 = true) by (subst s1; by rewrite dlab_after_LCR).
  assert (E2 : s2 = U.set_DLL (x mod 256) s1).
  { subst s2. unfold U.WriteReg8. rewrite bit_and_0xFF. unfold dlab, flag in Hd1. by rewrite Hd1. }
  assert (Hd2 : dlab s2 = true) by (by rewrite E2).
  assert (E3 : s3 = U.set_DLH (y mod 256) s2).
  { subst s3. unfold U.WriteReg8. rewrite bit_and_0xFF. unfold dlab, flag in Hd2. by rewrite Hd2. }
  assert (Hd3 : dlab s3 = true) by (by rewrite E3).
  unfold U.ReadReg8. unfold dlab, flag in Hd3. rewrite Hd3. cbn [U.UART_DLL U.UART_DLH snd].
  rewrite E3, E2. uart_fields. subst s1. rewrite WriteReg8_LCR. uart_fields.
  split_and!; try done. by rewrite put_chars_app, app_nil_r.
Qed.

Lemma divisor_latch_round_trip_witness :
  Z.testbit 0x83 7 = true /\
  snd (U.ReadReg8 U.UART_DLL
         (fst (U.WriteReg8 U.UART_DLH 0x01
            (fst (U.WriteReg8 U.UART_DLL 0x2C
               (fst (U.WriteReg8 U.UART_LCR 0x83 U.new)))))))
    = U.Return (Num 0x2C).
Proof.
  split; [reflexivity|].
  exact (proj1 (divisor_latch_round_trip 0x83 0x2C 0x01 U.new eq_refl)).
Defined.

Lemma WriteReg8_IER x s :
  dlab s = false ->
  fst (U.WriteReg8 U.UART_IER x s) = U.NextInterrupt (U.set_IER (x mod 16) s).
Proof.
  intros Hd. unfold U.WriteReg8. rewrite bit_and_0xFF. unfold dlab, flag in Hd. rewrite Hd.
  cbn [U.WriteReg8_switch U.UART_IER fst]. rewrite bit_and_0x0F.
  rewrite Z.mod_mod_divide; [done|]. by exists 16.
Qed.

(** Property X18.  With the divisor latch closed, a value written to [IER]
    is read back masked to four bits. *)
Theorem IER_round_trip x s :
  dlab s = false ->
  snd (U.ReadReg8 U.UART_IER (fst (U.WriteReg8 U.UART_IER x s)))
    = U.Return (Num (x mod 16)).
Proof.
  intros Hd. rewrite WriteReg8_IER by done.
  set (m := U.set_IER _ _).
  destruct (NextInterrupt_frame m) as ((Hl & _ & _ & Hi & _) & _).
  assert (Hd' : dlab (U.NextInterrupt m) = false) by (by rewrite (dlab_LCR s)).
  unfold U.ReadReg8. unfold dlab, flag in Hd'. rewrite Hd'.
  cbn [U.ReadReg8_switch U.UART_IER snd]. rewrite Hi. subst m. uart_fields.
  rewrite bit_and_0x0F. by rewrite Z.mod_mod.
Qed.

Lemma IER_round_trip_witness :
  dlab U.new = false /\
  snd (U.ReadReg8 U.UART_IER (fst (U.WriteReg8 U.UART_IER 0xF7 U.new))) = U.Return (Num 7).
Proof. split; [reflexivity|]. exact (IER_round_trip 0xF7 U.new eq_refl). Defined.

End RoundTrips.

Section Arbitration.
Import JS.

Lemma flag_IER x k :
  0 <= k < 4 -> flag (x mod 16) (2 ^ k) = Z.testbit x k.
Proof. intros Hk. rewrite flag_bit by lia. apply testbit_nibble. lia. Qed.

(** Property X19.  With the divisor latch closed, writing [IER] with bit 0
    set while the character timeout is pending reports it at once: [IIR]
    holds [UART_IIR_CTI] and [intdev.RaiseInterrupt] is called. *)
Theorem IER_write_unmasks_pending_CTI x s :
  dlab s = false -> Z.testbit x 0 = true -> pending U.UART_IIR_CTI s = true ->
  U.IIR s <> U.UART_IIR_RLSI -> U.IIR s <> U.UART_IIR_RDI ->
  let s' := fst (U.WriteReg8 U.UART_IER x s) in
  U.IIR s' = U.UART_IIR_CTI /\
  U.calls s' = U.calls s ++ [U.intdev_RaiseInterrupt 2].
Proof.
  intros Hd Hx Hp H1 H2 s'. subst s'. rewrite WriteReg8_IER by done.
  set (m := U.set_IER _ _).
  assert (Hen : flag (U.IER m) U.UART_IER_RDI = true).
  { subst m. uart_fields. change U.UART_IER_RDI with (2 ^ 0). by rewrite flag_IER. }
  unfold U.NextInterrupt. unfold pending, flag in Hp, Hen.
  replace (U.ints m) with (U.ints s) by done. rewrite Hp, Hen. cbn [andb].
  destruct (ThrowCTI_spec m) as (_ & _ & _ & _ & _ & _ & Hon).
  by destruct (Hon Hen H1 H2).
Qed.

Lemma IER_write_unmasks_pending_CTI_witness :
  dlab (U.ReceiveChar 0x41 U.new) = false /\
  U.calls (U.ReceiveChar 0x41 U.new) = U.calls U.new /\
  U.IIR (fst (U.WriteReg8 U.UART_IER 1 (U.ReceiveChar 0x41 U.new))) = U.UART_IIR_CTI /\
  U.calls (fst (U.WriteReg8 U.UART_IER 1 (U.ReceiveChar 0x41 U.new)))
    = U.calls U.new ++ [U.intdev_RaiseInterrupt 2].
Proof.
  destruct (IER_write_unmasks_pending_CTI 1 (U.ReceiveChar 0x41 U.new)
              eq_refl eq_refl eq_refl ltac:(discriminate) ltac:(discriminate)) as [Hi Hc].
  split; [reflexivity|]. split; [reflexivity|]. split; [exact Hi|exact Hc].
Defined.

(** Property X20.  With the divisor latch closed, writing [IER] with bits
    0 and 1 clear sets [IIR] to [UART_IIR_NO_INT] and calls
    [intdev.ClearInterrupt]; the pending causes are kept. *)
Theorem IER_write_masking_both_clears x s :
  dlab s = false -> Z.testbit x 0 = false -> Z.testbit x 1 = false ->
  let s' := fst (U.WriteReg8 U.UART_IER x s) in
  U.IIR s' = U.UART_IIR_NO_INT /\
  U.calls s' = U.calls s ++ [U.intdev_ClearInterrupt 2] /\
  U.ints s' = U.ints s.
Proof.
  intros Hd H0 H1 s'. subst s'. rewrite WriteReg8_IER by done.
  set (m := U.set_IER _ _).
  assert (Hr : flag (U.IER m) U.UART_IER_RDI = false).
  { subst m. uart_fields. change U.UART_IER_RDI with (2 ^ 0). by rewrite flag_IER. }
  assert (Ht : flag (U.IER m) U.UART_IER_THRI = false).
  { subst m. uart_fields. change U.UART_IER_THRI with (2 ^ 1). by rewrite flag_IER. }
  unfold U.NextInterrupt. unfold flag in Hr, Ht. rewrite Hr, Ht, !andb_false_r. done.
Qed.

Lemma IER_write_masking_both_clears_witness :
  dlab two_bytes_received = false /\
  U.IIR two_bytes_received = U.UART_IIR_CTI /\
  U.IIR (fst (U.WriteReg8 U.UART_IER 0 two_bytes_received)) = U.UART_IIR_NO_INT.
Proof.
  split; [reflexivity|]. split; [reflexivity|].
  exact (proj1 (IER_write_masking_both_clears 0 two_bytes_received eq_refl eq_refl eq_refl)).
Defined.

(** Property X21.  With the receive interrupt enabled, [ReceiveChar]
    reports the character timeout and calls [intdev.RaiseInterrupt] once,
    also when [IIR] reported the transmit interrupt, which stays
    pending. *)
Theorem ReceiveChar_enabled_reports_CTI x s :
  flag (U.IER s) U.UART_IER_RDI = true ->
  U.IIR s <> U.UART_IIR_RLSI -> U.IIR s <> U.UART_IIR_RDI ->
  let s' := U.ReceiveChar x s in
  U.IIR s' = U.UART_IIR_CTI /\
  U.calls s' = U.calls s ++ [U.intdev_RaiseInterrupt 2] /\
  pending U.UART_IIR_THRI s' = pending U.UART_IIR_THRI s.
Proof.
  intros Hen H1 H2 s'. subst s'. unfold U.ReceiveChar. set (m := U.set_LSR _ _).
  destruct (ThrowCTI_spec m) as (_ & Po & _ & _ & _ & _ & Hon).
  destruct (Hon Hen H1 H2) as [Hi Hc]. split; [done|]. split; [done|].
  by rewrite Po.
Qed.

Lemma ReceiveChar_enabled_reports_CTI_witness :
  flag (U.IER thri_reported) U.UART_IER_RDI = false /\
  flag (U.IER (fst (U.WriteReg8 U.UART_IER 3 thri_reported))) U.UART_IER_RDI = true /\
  U.IIR (fst (U.WriteReg8 U.UART_IER 3 thri_reported)) = U.UART_IIR_THRI /\
  U.IIR (U.ReceiveChar 0x41 (fst (U.WriteReg8 U.UART_IER 3 thri_reported))) = U.UART_IIR_CTI.
Proof.
  split; [reflexivity|]. split; [reflexivity|]. split; [reflexivity|].
  exact (proj1 (ReceiveChar_enabled_reports_CTI 0x41
                  (fst (U.WriteReg8 U.UART_IER 3 thri_reported))
                  eq_refl ltac:(discriminate) ltac:(discriminate))).
Defined.

(** Property X22.  While [IIR] reports the character timeout, a write to
    address 0 puts the byte and records the transmit cause, but leaves
    [IIR] alone and does not call [intdev]. *)
Theorem transmit_does_not_preempt_CTI B s :
  dlab s = false -> U.IIR s = U.UART_IIR_CTI ->
  let s' := fst (U.WriteReg8 0 B s) in
  U.IIR s' = U.UART_IIR_CTI /\
  U.calls s' = U.calls s ++ [U.odev_PutChar (B mod 256)] /\
  pending U.UART_IIR_THRI s' = true.
Proof.
  intros Hd Hi s'. subst s'.
  assert (Hwrite : U.WriteReg8 0 B s = U.WriteReg8_switch 0 (B mod 256) s).
  { unfold U.WriteReg8. unfold dlab, flag in Hd. by rewrite Hd, bit_and_0xFF. }
  rewrite Hwrite. cbn [U.WriteReg8_switch fst].
  set (m := U.set_LSR _ (U.do_call _ _)).
  destruct (ThrowTHRI_spec m) as (Pt & _ & _ & _ & _ & Hoff).
  assert (Hm : U.IIR m = U.UART_IIR_CTI) by (by subst m).
  destruct Hoff as [Hi' Hc'].
  { rewrite Hm. by rewrite andb_false_r. }
  rewrite Hi', Hc'. by subst m.
Qed.

Lemma transmit_does_not_preempt_CTI_witness :
  dlab two_bytes_received = false /\ U.IIR two_bytes_received = U.UART_IIR_CTI /\
  U.IIR (fst (U.WriteReg8 0 0x5A two_bytes_received)) = U.UART_IIR_CTI /\
  raises (U.calls (fst (U.WriteReg8 0 0x5A two_bytes_received)))
    = raises (U.calls two_bytes_received).
Proof.
  split; [reflexivity|]. split; [reflexivity|].
  split; [exact (proj1 (transmit_does_not_preempt_CTI 0x5A two_bytes_received eq_refl eq_refl))|].
  reflexivity.
Defined.

(** Property X23.  While [IIR] reports the character timeout and the
    transmit cause is pending, writing [IER] with bit 0 clear and bit 1 set
    leaves [IIR] at [UART_IIR_CTI] and makes no call. *)
Theorem masked_CTI_stays_reported x s :
  dlab s = false -> U.IIR s = U.UART_IIR_CTI ->
  Z.testbit x 0 = false -> Z.testbit x 1 = true ->
  pending U.UART_IIR_THRI s = true ->
  let s' := fst (U.WriteReg8 U.UART_IER x s) in
  flag (U.IER s') U.UART_IER_RDI = false /\
  U.IIR s' = U.UART_IIR_CTI /\
  U.calls s' = U.calls s.
Proof.
  intros Hd Hi H0 H1 Hp s'. subst s'. rewrite WriteReg8_IER by done.
  set (m := U.set_IER _ _).
  assert (Hr : flag (U.IER m) U.UART_IER_RDI = false).
  { subst m. uart_fields. change U.UART_IER_RDI with (2 ^ 0). by rewrite flag_IER. }
  assert (Ht : flag (U.IER m) U.UART_IER_THRI = true).
  { subst m. uart_fields. change U.UART_IER_THRI with (2 ^ 1). by rewrite flag_IER. }
  destruct (NextInterrupt_frame m) as ((_ & _ & _ & He & _) & _). rewrite He, Hr.
  split; [done|].
  unfold U.NextInterrupt. unfold pending, flag in Hp, Hr, Ht.
  replace (U.ints m) with (U.ints s) by done. rewrite Hr, Ht, Hp, andb_false_r. cbn [andb].
  destruct (ThrowTHRI_spec m) as (_ & _ & _ & _ & _ & Hoff).
  assert (Hm : U.IIR m = U.UART_IIR_CTI) by (by subst m).
  destruct Hoff as [Hi' Hc'].
  { rewrite Hm. by rewrite andb_false_r. }
  rewrite Hi', Hc'. by subst m.
Qed.

Lemma masked_CTI_stays_reported_witness :
  dlab (fst (U.WriteReg8 0 0x5A two_bytes_received)) = false /\
  U.IIR (fst (U.WriteReg8 0 0x5A two_bytes_received)) = U.UART_IIR_CTI /\
  pending U.UART_IIR_THRI (fst (U.WriteReg8 0 0x5A two_bytes_received)) = true /\
  U.IIR (fst (U.WriteReg8 U.UART_IER 2 (fst (U.WriteReg8 0 0x5A two_bytes_received))))
    = U.UART_IIR_CTI.
Proof.
  destruct (masked_CTI_stays_reported 2 (fst (U.WriteReg8 0 0x5A two_bytes_received))
              eq_refl eq_refl eq_refl eq_refl eq_refl) as (_ & Hi & _).
  split; [reflexivity|]. split; [reflexivity|]. split; [reflexivity|exact Hi].
Defined.

End Arbitration.

(** ** The receive FIFO against the bytes unread *)

Section ReceiveQueue.
Import JS.

Lemma fifo_untouched o s :
  touches_fifo o s = false -> U.fifo (uart_step o s) = U.fifo s.
Proof.
  destruct o as [x|addr|addr x| | | | |line]; cbn [uart_step touches_fifo]; try done.
  - destruct (ReadReg8_iir_spec s) as ((_ & _ & _ & _ & _ & _ & _ & _ & _ & Hiir) & _).
    unfold U.ReadReg8, U.ReadReg8_switch, dlab, flag. destruct (truthy _).
    all: addr_cases addr; cbn [fst Z.eqb andb negb]; done.
  - intros _. unfold U.WriteReg8, U.WriteReg8_switch. destruct (truthy _).
    all: addr_cases addr; cbn [fst]; try done.
    all: try (by destruct (truthy _)).
    + set (m := U.set_LSR _ _). by destruct (ThrowTHRI_frame m) as ((_ & _ & _ & _ & _ & _ & _ & _ & _ & ->) & _).
    + set (m := U.set_IER _ _). by destruct (NextInterrupt_frame m) as ((_ & _ & _ & _ & _ & _ & _ & _ & _ & ->) & _).
  - intros _. by destruct (ThrowCTI_frame s) as ((_ & _ & _ & _ & _ & _ & _ & _ & _ & ->) & _).
  - intros _. by destruct (ThrowTHRI_frame s) as ((_ & _ & _ & _ & _ & _ & _ & _ & _ & ->) & _).
  - intros _. by destruct (NextInterrupt_frame s) as ((_ & _ & _ & _ & _ & _ & _ & _ & _ & ->) & _).
  - intros _. by destruct (ClearInterrupt_frame line s) as ((_ & _ & _ & _ & _ & _ & _ & _ & _ & ->) & _).
Qed.

(** One operation within the limit keeps the FIFO in step with the unread
    bytes. *)
Lemma queue_step_represents o s d :
  represents (U.fifo s) d -> receivable o d = true ->
  represents (U.fifo (uart_step o s)) (queue_step o s d).
Proof.
  intros Hrep Hfit.
  destruct (touches_fifo o s) eqn:Ht.
  - destruct o as [x|addr|addr x| | | | |line]; cbn [touches_fifo] in Ht; try done.
    + cbn [uart_step queue_step receivable] in *. by apply ReceiveChar_spec.
    + cbn [uart_step queue_step]. rewrite Ht.
      apply andb_true_iff in Ht as [Ha Hd]. apply Z.eqb_eq in Ha. subst addr.
      apply negb_true_iff in Hd. destruct d as [|x d]; cbn [List.tl].
      * destruct (read_idle s Hd Hrep) as [_ ->]. done.
      * by destruct (read_head s x d Hd Hrep) as (_ & Hrep' & _).
  - rewrite (fifo_untouched o s Ht).
    destruct o as [x|addr|addr x| | | | |line]; cbn [touches_fifo queue_step] in *; try done.
    by rewrite Ht.
Qed.

Lemma uart_run_represents ops : forall s d,
  represents (U.fifo s) d -> receives_fit ops s d = true ->
  represents (U.fifo (uart_run ops s)) (unread ops s d).
Proof.
  induction ops as [|o ops IH]; intros s d Hrep Hfit; [done|].
  cbn [receives_fit] in Hfit. apply andb_true_iff in Hfit as [Ho Hops].
  apply (IH (uart_step o s) (queue_step o s d)); [|done].
  by apply queue_step_represents.
Qed.

Lemma uart_run_snoc ops o s : uart_run (ops ++ [o]) s = uart_step o (uart_run ops s).
Proof. unfold uart_run. by rewrite fold_left_app. Qed.

Lemma unread_snoc ops o : forall s d,
  unread (ops ++ [o]) s d = queue_step o (uart_run ops s) (unread ops s d).
Proof. induction ops as [|o' ops IH]; intros s d; [done|]. apply IH. Qed.

(** Receiving [n] bytes [0] within the limit. *)
Lemma zeros_received n : forall s d,
  Z.of_nat (List.length d) + Z.of_nat n <= Run.max_length ->
  receives_fit (replicate n (OpReceiveChar 0)) s d = true /\
  unread (replicate n (OpReceiveChar 0)) s d = d ++ replicate n 0.
Proof.
  induction n as [|n IH]; intros s d Hd; cbn [replicate receives_fit unread].
  - by rewrite app_nil_r.
  - destruct (IH (uart_step (OpReceiveChar 0) s) (queue_step (OpReceiveChar 0) s d)) as [Hf Hu].
    { cbn [queue_step]. rewrite length_app. cbn [List.length]. lia. }
    rewrite Hf, Hu. cbn [queue_step]. rewrite <- app_assoc. split; [|done].
    rewrite andb_true_r. unfold receivable, Run.admissible, Run.within_limit.
    cbn [Run.typed Run.adds negb orb]. apply andb_true_iff. split; [done|].
    apply Z.ltb_lt. lia.
Qed.

(** [ReceiveChar] pushes on the FIFO and leaves [LCR] and [IER] alone. *)
Lemma ReceiveChar_fifo x s :
  U.fifo (U.ReceiveChar x s) = fst (RB.push x (U.fifo s)) /\
  U.LCR (U.ReceiveChar x s) = U.LCR s /\ U.IER (U.ReceiveChar x s) = U.IER s.
Proof.
  unfold U.ReceiveChar. set (m := U.set_LSR _ _).
  destruct (ThrowCTI_frame m) as ((Hl & _ & _ & Hi & _ & _ & _ & _ & _ & Hf) & _).
  rewrite Hl, Hi, Hf. by subst m.
Qed.

Lemma zeros_received_registers n : forall s,
  U.LCR (uart_run (replicate n (OpReceiveChar 0)) s) = U.LCR s /\
  U.IER (uart_run (replicate n (OpReceiveChar 0)) s) = U.IER s.
Proof.
  induction n as [|n IH]; intros s; [done|].
  cbn [replicate]. change (uart_run (?o :: ?ops) s) with (uart_run ops (uart_step o s)).
  destruct (IH (uart_step (OpReceiveChar 0) s)) as [-> ->]. cbn [uart_step].
  by destruct (ReceiveChar_fifo 0 s) as (_ & -> & ->).
Qed.

(** A push on a full store of [2 ^ 30] slots takes the place of the first
    element. *)
Lemma push_on_full rb v :
  wf rb -> RB.length rb = 2 ^ 30 -> RB.capacity rb = 2 ^ 30 ->
  let rb' := fst (RB.push v rb) in
  RB.length rb' = 2 ^ 30 + 1 /\ RB.capacity rb' = 2 ^ 30 /\
  RB.get 0 rb' = Num (to_int32 v) /\ snd (RB.shift rb') = Num (to_int32 v).
Proof.
  intros Hwf Hl Hc rb'.
  assert (Hwf' : wf rb') by (by apply push_spec).
  pose proof (wf_begin _ Hwf) as Hb.
  assert (He : RB.end_ rb = RB.begin rb).
  { rewrite (wf_end _ Hwf), Hl, Hc.
    rewrite <- (Z.mul_1_l (2 ^ 30)) at 1. rewrite Z_mod_plus_full.
    apply Z.mod_small. lia. }
  assert (Hrb' : RB.length rb' = 2 ^ 30 + 1 /\ RB.capacity rb' = 2 ^ 30 /\
                 RB.begin rb' = RB.begin rb /\
                 slot (RB.array rb') (RB.begin rb) = Some (to_int32 v)).
  { subst rb'. unfold RB.push. rewrite (_check_grow_full rb Hl Hc). cbn [fst].
    rewrite capacity_aset. fold (RB.capacity rb). rb_fields.
    split; [lia|]. split; [done|]. split; [done|].
    rewrite He. apply slot_aset_eq. fold (RB.capacity rb). lia. }
  destruct Hrb' as (Hl' & Hc' & Hb' & Hs').
  split; [done|]. split; [done|]. split.
  - rewrite get_exact by lia. rewrite Hb', Z.add_0_r, Hc', Z.mod_small by lia.
    by apply aget_slot.
  - destruct (shift_spec rb' Hwf') as (_ & _ & _ & _ & -> & _); [lia|].
    assert (Hno : RB._check_shrink rb' = rb').
    { unfold RB._check_shrink, RB.shrinks, RB.shrink_candidate. by rewrite Hl', Hc'. }
    rewrite Hno, Hb'. by apply aget_slot.
Qed.

(** The state of a new UART that has received [n = 2 ^ 30] bytes [0]. *)
Lemma limit_state n (ops := replicate n (OpReceiveChar 0)) :
  Z.of_nat n = 2 ^ 30 ->
  receives_fit ops U.new [] = true /\ unread ops U.new [] = replicate n 0 /\
  represents (U.fifo (uart_run ops U.new)) (replicate n 0) /\
  RB.length (U.fifo (uart_run ops U.new)) = 2 ^ 30 /\
  RB.capacity (U.fifo (uart_run ops U.new)) = 2 ^ 30 /\
  dlab (uart_run ops U.new) = false /\
  flag (U.IER (uart_run ops U.new)) U.UART_IER_RDI = false.
Proof.
  intros Hn. subst ops.
  destruct (zeros_received n U.new []) as [Hf Hu].
  { unfold Run.max_length. cbn [List.length]. lia. }
  pose proof (uart_run_represents _ U.new [] represents_reset Hf) as Hrep.
  rewrite Hu in *. cbn [app] in *.
  destruct (zeros_received_registers n U.new) as [Hlcr Hier].
  pose proof Hrep as (Hwf & Hlen & Hle & _). rewrite length_replicate in Hlen.
  pose proof (valid_capacity_bounds _ (wf_capacity _ Hwf)).
  split_and!; try done; try lia.
  - unfold dlab. by rewrite Hlcr.
  - by rewrite Hier.
Qed.

End ReceiveQueue.

(** ** The UART against its specification: the receive path *)

Section ReceiveQueueClaims.
Import JS.

(** Claim C2, as amended.  With the divisor latch access bit clear, reading
    address 0 acknowledges the receive-data and character-timeout causes.
    When the FIFO is not empty the read shifts it and returns the shifted
    value; otherwise it returns [0x21] and leaves the FIFO alone.  The
    shifted value is the oldest byte whenever the FIFO holds a queue, as
    it does in every state reached from a new UART by operations that
    receive 32-bit integers and receive none while [2 ^ 30] bytes are
    unread: there the read returns the oldest unread byte and leaves the
    others.  When a byte remains afterwards, the data-ready bit of [LSR]
    is set and the character-timeout path has run again: the cause is
    pending, and [intdev.RaiseInterrupt] is called when the receive
    interrupt is enabled.  When none remains the data-ready bit is clear,
    no call is made and the cause stays acknowledged. *)
Theorem ReadReg8_receive_buffer s :
  dlab s = false ->
  let n := RB.length (U.fifo s) in
  let s' := fst (U.ReadReg8 0 s) in
  let out := snd (U.ReadReg8 0 s) in
  pending U.UART_IIR_RDI s' = false /\
  (1 <= n ->
     out = U.Return (snd (RB.shift (U.fifo s))) /\
     U.fifo s' = fst (RB.shift (U.fifo s)) /\
     RB.length (U.fifo s') = n - 1) /\
  (n < 1 -> out = U.Return (Num 0x21) /\ U.fifo s' = U.fifo s) /\
  (forall x d, represents (U.fifo s) (x :: d) ->
     out = U.Return (Num x) /\ represents (U.fifo s') d) /\
  (forall ops, s = uart_run ops U.new -> receives_fit ops U.new [] = true ->
     represents (U.fifo s) (unread ops U.new []) /\
     out = U.Return (Num (hd 0x21 (unread ops U.new []))) /\
     represents (U.fifo s') (List.tl (unread ops U.new []))) /\
  (1 <= RB.length (U.fifo s') ->
     flag (U.LSR s') U.UART_LSR_DATA_READY = true /\
     pending U.UART_IIR_CTI s' = true /\
     (flag (U.IER s) U.UART_IER_RDI = true ->
        U.IIR s' = U.UART_IIR_CTI /\
        U.calls s' = U.calls s ++ [U.intdev_RaiseInterrupt 2]) /\
     (flag (U.IER s) U.UART_IER_RDI = false ->
        U.IIR s' = U.UART_IIR_NO_INT /\ U.calls s' = U.calls s)) /\
  (RB.length (U.fifo s') < 1 ->
     flag (U.LSR s') U.UART_LSR_DATA_READY = false /\
     pending U.UART_IIR_CTI s' = false /\
     U.IIR s' = U.UART_IIR_NO_INT /\ U.calls s' = U.calls s).
Proof.
  intros Hd n s' out.
  assert (Hq : forall ops, s = uart_run ops U.new -> receives_fit ops U.new [] = true ->
            represents (U.fifo s) (unread ops U.new []) /\
            out = U.Return (Num (hd 0x21 (unread ops U.new []))) /\
            represents (U.fifo s') (List.tl (unread ops U.new []))).
  { intros ops -> Hfit.
    pose proof (uart_run_represents ops U.new [] represents_reset Hfit) as Hrep.
    split; [done|]. subst out s'. destruct (unread ops U.new []) as [|x d]; cbn [hd List.tl].
    - destruct (read_idle _ Hd Hrep) as [-> ->]. done.
    - by destruct (read_head _ x d Hd Hrep) as (-> & Hrep' & _). }
  assert (Hread : U.ReadReg8 0 s = U.ReadReg8_rbr s).
  { unfold U.ReadReg8. unfold dlab, flag in Hd. by rewrite Hd. }
  subst s' out. rewrite Hread in *. clear Hread. unfold U.ReadReg8_rbr in *.
  destruct (acknowledge_receive s) as (Hrdi & Hcti & Hiir & Hcalls & Hfifo & Hlsr & Hier).
  set (ack := U.ClearInterrupt U.UART_IIR_CTI _) in *.
  rewrite Hfifo in *. fold n in Hq |- *.
  assert (Hsh : forall x d, represents (U.fifo s) (x :: d) ->
            1 <= n /\ snd (RB.shift (U.fifo s)) = Num x /\ represents (fst (RB.shift (U.fifo s))) d).
  { intros x d Hrep. destruct (step_refines Shift _ _ Hrep eq_refl) as [Hr Hrep'].
    destruct Hrep as (_ & Hlen & _). cbn [List.length] in Hlen. subst n. split; [lia|]. done. }
  destruct (Z.geb_spec n 1) as [Hge|Hlt].
  - (* a byte is removed *)
    pose proof (length_shift (U.fifo s) ltac:(fold n; lia)) as Hlen. fold n in Hlen.
    destruct (RB.shift (U.fifo s)) as [q r]. cbn [fst snd] in *.
    destruct (Z.gtb_spec n 1) as [Hgt|Hle]; cbn [fst snd] in *.
    + (* more bytes remain *)
      set (m := U.set_LSR _ _) in *.
      destruct (ThrowCTI_spec m) as (Pc & Po & Hl & _ & Hf & Hoff & Hon).
      rewrite Hl, Hf in *. subst m. uart_fields. rewrite Hier, Hiir, Hcalls, Hlsr in *.
      split_and!; try done; try lia.
      * rewrite Po; [done|unfold U.UART_IIR_RDI; lia|done].
      * intros x d Hrep. destruct (Hsh x d Hrep) as (_ & -> & Hr). done.
      * intros _. split_and!; try done.
        -- change U.UART_LSR_DATA_READY with (2 ^ 0). by apply flag_set.
        -- intros Hen. by apply Hon.
    + (* it was the last one *)
      uart_fields. rewrite Hlsr.
      split_and!; try done; try lia.
      * intros x d Hrep. destruct (Hsh x d Hrep) as (_ & -> & Hr). done.
      * intros _. split_and!; try done.
        change U.UART_LSR_DATA_READY with (2 ^ 0). by apply flag_clear.
  - (* the FIFO is empty *)
    destruct (Z.gtb_spec n 1) as [Hgt|Hle]; [lia|]. uart_fields. rewrite Hlsr, Hfifo in *. fold n.
    split_and!; try done; try lia.
    + intros x d Hrep. destruct (Hsh x d Hrep). lia.
    + intros _. split_and!; try done.
      change U.UART_LSR_DATA_READY with (2 ^ 0). by apply flag_clear.
Qed.

Lemma ReadReg8_receive_buffer_witness :
  dlab two_bytes_received = false /\
  receives_fit [OpWriteReg8 U.UART_IER 3; OpReceiveChar 0x41; OpReceiveChar 0x42] U.new []
    = true /\
  snd (U.ReadReg8 0 two_bytes_received) = U.Return (Num 0x41) /\
  flag (U.LSR (fst (U.ReadReg8 0 two_bytes_received))) U.UART_LSR_DATA_READY = true /\
  U.calls (fst (U.ReadReg8 0 two_bytes_received))
    = U.calls two_bytes_received ++ [U.intdev_RaiseInterrupt 2].
Proof.
  pose proof (ReadReg8_receive_buffer two_bytes_received eq_refl)
    as (_ & _ & _ & _ & Hq & Hmore & _).
  assert (H2 : 1 <= RB.length (U.fifo (fst (U.ReadReg8 0 two_bytes_received))))
    by (vm_compute; discriminate).
  assert (Hs : two_bytes_received
               = uart_run [OpWriteReg8 U.UART_IER 3; OpReceiveChar 0x41; OpReceiveChar 0x42] U.new)
    by (unfold two_bytes_received; reflexivity).
  assert (Hfit : receives_fit [OpWriteReg8 U.UART_IER 3; OpReceiveChar 0x41; OpReceiveChar 0x42]
                   U.new [] = true) by (vm_compute; reflexivity).
  destruct (Hq _ Hs Hfit) as (_ & Hout & _).
  destruct (Hmore H2) as (Hdr & _ & Hon & _).
  destruct (Hon eq_refl) as [_ Hcalls].
  split; [reflexivity|]. split; [exact Hfit|].
  split; [etransitivity; [exact Hout|vm_compute; reflexivity]|].
  split; [exact Hdr|exact Hcalls].
Defined.

(** Claim C2 as stated fails: a new UART receives [2 ^ 30] bytes [0] and
    then a byte [1].  The divisor latch access bit is clear, the FIFO is
    not empty and the oldest unread byte is [0], yet reading address 0
    returns [1], the byte received last. *)
Lemma ReadReg8_newest_past_limit :
  dlab (uart_run receive_past_limit U.new) = false /\
  1 <= RB.length (U.fifo (uart_run receive_past_limit U.new)) /\
  hd_error (unread receive_past_limit U.new []) = Some 0 /\
  snd (U.ReadReg8 0 (uart_run receive_past_limit U.new)) = U.Return (Num 1).
Proof.
  unfold receive_past_limit, receive_to_limit. set (n := Z.to_nat (2 ^ 30)).
  assert (Hn : Z.of_nat n = 2 ^ 30) by (apply Z2Nat.id; lia).
  clearbody n.
  destruct (limit_state n Hn) as (_ & Hu & (Hwf & _) & Hl & Hc & Hd & _).
  rewrite uart_run_snoc, unread_snoc, Hu. cbn [uart_step queue_step].
  set (s := uart_run (replicate n (OpReceiveChar 0)) U.new) in *.
  destruct (ReceiveChar_fifo 1 s) as (Hf & Hlcr & _).
  destruct (push_on_full (U.fifo s) 1 Hwf Hl Hc) as (Hl' & _ & _ & Hsh).
  rewrite <- Hf in Hl', Hsh.
  assert (Hd' : dlab (U.ReceiveChar 1 s) = false) by (by rewrite (dlab_LCR s)).
  split_and!; try done; try lia.
  - destruct n; [cbn in Hn; lia|done].
  - rewrite ReadReg8_0 by done.
    destruct (ReadReg8_rbr_spec (U.ReceiveChar 1 s)) as (_ & _ & _ & _ & _ & -> & _).
    rewrite Hl', Hsh. done.
Qed.

(** Claim C9, as amended.  With the receive-data interrupt enable bit of
    [IER] clear, [ReceiveChar] makes no call at all, so none of
    [intdev.RaiseInterrupt]; it pushes the byte on the FIFO, whose length
    grows by one; the data-ready bit of [LSR] is set, the
    character-timeout cause is pending, and [IIR] is unchanged.  The push
    appends the byte whenever it is a 32-bit integer and the FIFO holds a
    queue of less than [2 ^ 30] bytes, as in every state reached from a
    new UART by operations that receive 32-bit integers and receive none
    while [2 ^ 30] bytes are unread: the FIFO then holds the unread bytes
    followed by the new one. *)
Theorem ReceiveChar_masked s x :
  flag (U.IER s) U.UART_IER_RDI = false ->
  let s' := U.ReceiveChar x s in
  U.calls s' = U.calls s /\
  raises (U.calls s') = raises (U.calls s) /\
  U.fifo s' = fst (RB.push x (U.fifo s)) /\
  RB.length (U.fifo s') = RB.length (U.fifo s) + 1 /\
  (forall d, represents (U.fifo s) d -> Run.admissible (Push x) d = true ->
     represents (U.fifo s') (d ++ [x])) /\
  (forall ops, s = uart_run ops U.new -> receives_fit ops U.new [] = true ->
     Run.admissible (Push x) (unread ops U.new []) = true ->
     represents (U.fifo s) (unread ops U.new []) /\
     represents (U.fifo s') (unread ops U.new [] ++ [x])) /\
  flag (U.LSR s') U.UART_LSR_DATA_READY = true /\
  pending U.UART_IIR_CTI s' = true /\
  U.IIR s' = U.IIR s.
Proof.
  intros Hoff s'. subst s'. unfold U.ReceiveChar.
  set (m := U.set_LSR _ (U.set_fifo _ _)).
  destruct (ThrowCTI_spec m) as (Pc & _ & Hl & _ & Hf & Hq & _).
  destruct (Hq Hoff) as [Hi Hc].
  rewrite Hf, Hl, Hi, Hc. subst m. uart_fields.
  assert (Happ : forall d, represents (U.fifo s) d -> Run.admissible (Push x) d = true ->
            represents (fst (RB.push x (U.fifo s))) (d ++ [x])).
  { intros d Hrep Hadm. by destruct (step_refines (Push x) _ _ Hrep Hadm). }
  split_and!; try done.
  - apply length_push.
  - intros ops -> Hfit Hadm.
    pose proof (uart_run_represents ops U.new [] represents_reset Hfit) as Hrep.
    split; [done|]. by apply Happ.
  - change U.UART_LSR_DATA_READY with (2 ^ 0). by apply flag_set.
Qed.

Lemma ReceiveChar_masked_witness :
  flag (U.IER U.new) U.UART_IER_RDI = false /\
  raises (U.calls (U.ReceiveChar 0x41 U.new)) = O /\
  RB.get 0 (U.fifo (U.ReceiveChar 0x41 U.new)) = Num 0x41 /\
  represents (U.fifo (U.ReceiveChar 0x41 U.new)) [0x41] /\
  flag (U.LSR (U.ReceiveChar 0x41 U.new)) U.UART_LSR_DATA_READY = true /\
  pending U.UART_IIR_CTI (U.ReceiveChar 0x41 U.new) = true.
Proof.
  pose proof (ReceiveChar_masked U.new 0x41 eq_refl) as (_ & Hr & _ & _ & _ & Hq & Hdr & Hp & _).
  assert (Hnew : U.new = uart_run [] U.new) by reflexivity.
  destruct (Hq [] Hnew eq_refl eq_refl) as [_ Hrep].
  split; [reflexivity|]. split; [exact Hr|]. split; [reflexivity|].
  split; [exact Hrep|]. split; [exact Hdr|exact Hp].
Defined.

(** Claim C9 as stated fails: a new UART that has received [2 ^ 30] bytes
    [0] has bit 0 of [IER] clear and holds these bytes in its FIFO.
    [ReceiveChar(1)] does not append: the byte takes the place of the
    oldest one, so the first element of the FIFO is [1] and the FIFO does
    not hold the unread bytes followed by [1]. *)
Lemma ReceiveChar_overwrites_past_limit :
  flag (U.IER (uart_run receive_to_limit U.new)) U.UART_IER_RDI = false /\
  receives_fit receive_to_limit U.new [] = true /\
  represents (U.fifo (uart_run receive_to_limit U.new)) (unread receive_to_limit U.new []) /\
  hd_error (unread receive_to_limit U.new []) = Some 0 /\
  RB.get 0 (U.fifo (U.ReceiveChar 1 (uart_run receive_to_limit U.new))) = Num 1 /\
  ~ represents (U.fifo (U.ReceiveChar 1 (uart_run receive_to_limit U.new)))
      (unread receive_to_limit U.new [] ++ [1]).
Proof.
  unfold receive_to_limit. set (n := Z.to_nat (2 ^ 30)).
  assert (Hn : Z.of_nat n = 2 ^ 30) by (apply Z2Nat.id; lia).
  clearbody n.
  destruct (limit_state n Hn) as (Hfit & Hu & Hrep & Hl & Hc & _ & Hier).
  rewrite Hu. set (s := uart_run (replicate n (OpReceiveChar 0)) U.new) in *.
  destruct (ReceiveChar_fifo 1 s) as (Hf & _).
  destruct (push_on_full (U.fifo s) 1 (proj1 Hrep) Hl Hc) as (Hl' & Hc' & Hg & _).
  rewrite <- Hf in Hl', Hc', Hg.
  split_and!; try done.
  - destruct n; [cbn in Hn; lia|done].
  - intros (_ & _ & Hle & _). lia.
Qed.

End ReceiveQueueClaims.
